(** * DREEM bit vectors and mutation histograms

    A shallow embedding of [dreem/bit_vector.py] and
    [dreem/mutation_histogram.py]: the CIGAR decoder, the read classifier with
    its ambiguous-deletion test, the paired-read merger, the per-read check of
    the reference name, and the histogram with its merge and derived
    statistics.

    Conventions of the embedding.
    - Python [int] is [Z].  Loops [for k in range(n)] run [Z.to_nat n] times.
    - A Python [str] that is indexed or sliced (reference, read, quality
      string, CIGAR) is a [list ascii]; names used as dictionary keys are
      [string].
    - A [dict] is a [gmap]; a Python [list] or a one-dimensional numpy array
      is a [list].
    - A raised exception is the left summand of [result]; every index or key
      lookup that Python checks is checked here. *)

From Stdlib Require Import ZArith Ascii String List Lia Floats.
From stdpp Require Import functions gmap strings list pretty.

Open Scope Z_scope.

(** ** Exceptions and the error monad *)

Inductive exn : Type :=
  | IndexError
  | KeyError
  | TypeError
  | ValueError (msg : string).

Abbreviation result := (sum exn).

Definition raise {A} (e : exn) : result A := inl e.

#[global] Instance result_ret : MRet result := fun _ x => inr x.
#[global] Instance result_bind : MBind result := fun _ _ f m =>
  match m with
  | inl e => inl e
  | inr x => f x
  end.

#[global] Instance result_fmap : FMap result := fun _ _ f m =>
  match m with
  | inl e => inl e
  | inr x => inr (f x)
  end.

Definition is_ok {A} (m : result A) : bool :=
  match m with inr _ => true | inl _ => false end.

(** ** Python sequences *)

Definition str (s : string) : list ascii := list_ascii_of_string s.

Definition len {A} (s : list A) : Z := Z.of_nat (length s).

(** [s[k]]: a negative index counts from the end; outside [-len, len) the
    lookup raises [IndexError]. *)
Definition py_index {A} (s : list A) (k : Z) : result A :=
  let k' := if k <? 0 then k + len s else k in
  if k' <? 0 then raise IndexError
  else match s !! Z.to_nat k' with
       | Some x => mret x
       | None => raise IndexError
       end.

(** A slice bound as [slice.indices] normalises it (step 1): a negative bound
    has the length added and is then clamped below at 0; a bound past the end
    is clamped to the length. *)
Definition slice_bound {A} (s : list A) (k : Z) : Z :=
  if k <? 0 then Z.max (k + len s) 0 else Z.min k (len s).

(** [s[a:b]]. *)
Definition py_slice {A} (s : list A) (a b : Z) : list A :=
  let a' := slice_bound s a in
  let b' := slice_bound s b in
  take (Z.to_nat (b' - a')) (drop (Z.to_nat a') s).

(** ** CigarDecoder: [BitVectorIterator._parse_cigar]

    [re.findall(r"(\d+)([A-Z]{1})", cigar_string)]: the non-overlapping
    matches of the pattern, scanned left to right, each as the pair of its
    two groups. Characters that belong to no match are passed over. Over the
    8-bit characters of a SAM file [\d] is [0-9]. *)

Definition is_digit (c : ascii) : bool :=
  let n := Z.of_nat (nat_of_ascii c) in (48 <=? n) && (n <=? 57).

Definition is_upper (c : ascii) : bool :=
  let n := Z.of_nat (nat_of_ascii c) in (65 <=? n) && (n <=? 90).

(** The longest run of digits at the head of [s], and what follows it. *)
Fixpoint span_digits (s : list ascii) : list ascii * list ascii :=
  match s with
  | c :: s' =>
      if is_digit c
      then let '(ds, rest) := span_digits s' in (c :: ds, rest)
      else ([], s)
  | [] => ([], [])
  end.

(** The pattern tried at the head of [s]. [\d+] is greedy and takes the whole
    run of digits; giving digits back cannot help, as the character after a
    shorter run is a digit, which [[A-Z]] refuses. *)
Definition match_at (s : list ascii) : option (list ascii * ascii) :=
  match span_digits s with
  | ((_ :: _) as ds, c :: _) => if is_upper c then Some (ds, c) else None
  | _ => None
  end.

(** The scan of [findall]: [skip] counts the characters still covered by the
    last match; elsewhere the pattern is tried at every position. *)
Fixpoint findall_from (skip : nat) (s : list ascii) : list (list ascii * ascii) :=
  match s with
  | [] => []
  | _ :: s' =>
      match skip with
      | S k => findall_from k s'
      | O =>
          match match_at s with
          | Some (ds, c) => (ds, c) :: findall_from (length ds) s'
          | None => findall_from 0 s'
          end
      end
  end.

Definition _parse_cigar (cigar_string : list ascii) : list (list ascii * ascii) :=
  findall_from 0 cigar_string.

(** [int(op[0])] on a run of decimal digits. *)
Definition int_of_digits (ds : list ascii) : Z :=
  fold_left (fun acc c => 10 * acc + (Z.of_nat (nat_of_ascii c) - 48)) ds 0.

(** A token as the pattern describes it, and the text of a token list. *)
Definition wf_token (t : list ascii * ascii) : Prop :=
  t.1 ≠ [] ∧ Forall (fun c => is_digit c = true) t.1 ∧ is_upper t.2 = true.

Definition render_tokens (toks : list (list ascii * ascii)) : list ascii :=
  flat_map (fun t => t.1 ++ [t.2]) toks.


(** ** Reads and the iterator's configuration *)

(** Modelled from the spec: the record [AlignedRead] of [dreem/sam.py], with
    the fields that [bit_vector.py] reads. It is a frozen dataclass of strings
    and integers: hashable, and equal only to another [AlignedRead]. *)
Record AlignedRead : Type := {
  qname : string;
  rname : string;
  pos : Z;
  mapq : Z;
  cigar : list ascii;
  seq : list ascii;
  qual : list ascii;
}.

#[global] Instance AlignedRead_eq_dec : EqDecision AlignedRead.
Proof. solve_decision. Defined.

(** The attributes that [BitVectorIterator.__init__] sets. The table
    [phred_qscores] is read from [resources/phred_ascii.txt]. *)
Record BitVectorIterator : Type := {
  ref_seqs : gmap string (list ascii);
  paired : bool;
  phred_qscores : gmap ascii Z;
  qscore_cutoff : Z;
  num_of_surbases : Z;
}.

Definition bases : list ascii := ["A"; "C"; "G"; "T"]%char.
Definition miss_info : ascii := "*"%char.
Definition ambig_info : ascii := "?"%char.
Definition nomut_bit : ascii := "0"%char.
Definition del_bit : ascii := "1"%char.

Inductive log_entry : Type :=
  | Warn (msg : string).

Definition dict_get `{Countable K} {V} (d : gmap K V) (k : K) : result V :=
  match d !! k with
  | Some v => mret v
  | None => raise KeyError
  end.

(** [range(a, b)]. *)
Definition py_range (a b : Z) : list Z := seqZ a (b - a).

(** A loop body run [n] times, stopping at the first exception. *)
Fixpoint repeat_m {S} (n : nat) (body : S → result S) (s : S) : result S :=
  match n with
  | O => mret s
  | S n' => s' ← body s; repeat_m n' body s'
  end.

(** ** AmbiguityResolver: [BitVectorIterator.__calc_ambig_reads] *)

Section ambiguity.
Context {A : Type} `{EqDecision A}.
(** The slicing of the window is a parameter, so that the source's slices
    and the specification's clipped windows share one transcription. *)
Variable slice : list A → Z → Z → list A.

Definition sur_seq_at (ref_seq : list A) (orig_sur_start orig_sur_end length new_del_end : Z)
    : list A :=
  let new_del_start := new_del_end - length + 1 in
  slice ref_seq (orig_sur_start - 1) (new_del_start - 1)
    ++ slice ref_seq new_del_end orig_sur_end.

Definition ambig_with (surbases : Z) (ref_seq : list A) (i length : Z) : bool :=
  let orig_del_start := i - length + 1 in
  let orig_sur_start := orig_del_start - surbases in
  let orig_sur_end := i + surbases in
  let orig_sur_seq :=
    slice ref_seq (orig_sur_start - 1) (orig_del_start - 1)
      ++ slice ref_seq i orig_sur_end in
  existsb
    (fun new_del_end =>
       if new_del_end =? i then false
       else bool_decide
              (sur_seq_at ref_seq orig_sur_start orig_sur_end length new_del_end
               = orig_sur_seq))
    (py_range (i - length) (i + length + 1)).
End ambiguity.

Definition __calc_ambig_reads (self : BitVectorIterator) (ref_seq : list ascii) (i length : Z)
    : bool :=
  ambig_with py_slice (num_of_surbases self) ref_seq i length.

(** The window as the specification words it: it stays within the reference
    bounds, and what lies outside them contributes nothing. *)
Definition window_slice {A} (s : list A) (a b : Z) : list A :=
  let a' := Z.max a 0 in
  let b' := Z.min b (len s) in
  take (Z.to_nat (b' - a')) (drop (Z.to_nat a') s).

Definition spec_is_ambiguous (ref_seq : list ascii) (i length surbases : Z) : bool :=
  ambig_with window_slice surbases ref_seq i length.

(** ** ReadClassifier: [BitVectorIterator.__convert_read_to_bit_vector] *)

(** The local variables of the walk: the bit vector built so far, the
    reference coordinate [i] and the read coordinate [j]. *)
Record walk : Type := {
  bitvector : gmap Z ascii;
  i_ref : Z;
  j_read : Z;
}.

Definition mark (bit : ascii) (st : walk) : walk :=
  {| bitvector := <[i_ref st := bit]> (bitvector st);
     i_ref := i_ref st + 1;
     j_read := j_read st |}.

Definition advance_read (n : Z) (st : walk) : walk :=
  {| bitvector := bitvector st; i_ref := i_ref st; j_read := j_read st + n |}.

(** The symbol of one base of a match run:
    [phred_qscores[q_scores[j]] > qscore_cutoff] guards the comparison of the
    read base with [ref_seq[i - 1]]. *)
Definition match_bit (self : BitVectorIterator) (read_seq q_scores ref_seq : list ascii)
    (i j : Z) : result ascii :=
  q ← py_index q_scores j;
  score ← dict_get (phred_qscores self) q;
  if score >? qscore_cutoff self then
    r ← py_index read_seq j;
    f ← py_index ref_seq (i - 1);
    mret (if decide (r ≠ f) then r else nomut_bit)
  else mret ambig_info.

Definition match_base (self : BitVectorIterator) (read_seq q_scores ref_seq : list ascii)
    (st : walk) : result walk :=
  bit ← match_bit self read_seq q_scores ref_seq (i_ref st) (j_read st);
  mret (advance_read 1 (mark bit st)).

Definition match_run (self : BitVectorIterator) (read_seq q_scores ref_seq : list ascii)
    (length : Z) (st : walk) : result walk :=
  repeat_m (Z.to_nat length) (match_base self read_seq q_scores ref_seq) st.

Definition deletion_run (self : BitVectorIterator) (ref_seq : list ascii)
    (length : Z) (st : walk) : walk :=
  let st := Nat.iter (Z.to_nat (length - 1)) (mark ambig_info) st in
  let is_ambig := __calc_ambig_reads self ref_seq (i_ref st) length in
  if is_ambig then mark ambig_info st else mark del_bit st.

Definition softclip_run (is_last : bool) (length : Z) (st : walk) : walk :=
  let st := advance_read length st in
  if is_last then Nat.iter (Z.to_nat length) (mark miss_info) st else st.

Definition unknown_op_warning (desc : ascii) : log_entry :=
  Warn ("unknown cigar op encounters: " +:+ String desc EmptyString).

(** The [while] loop over the decoded operations; [rest = []] is
    [op_index == len(cigar_ops) - 1]. An unknown operation logs a warning and
    returns the empty dictionary. *)
Fixpoint run_ops (self : BitVectorIterator) (read_seq q_scores ref_seq : list ascii)
    (cigar_ops : list (list ascii * ascii)) (st : walk)
    : result (gmap Z ascii * list log_entry) :=
  match cigar_ops with
  | [] => mret (bitvector st, [])
  | op :: rest =>
      let desc := op.2 in
      let length := int_of_digits op.1 in
      if decide (desc = "M"%char) then
        st' ← match_run self read_seq q_scores ref_seq length st;
        run_ops self read_seq q_scores ref_seq rest st'
      else if decide (desc = "D"%char) then
        run_ops self read_seq q_scores ref_seq rest (deletion_run self ref_seq length st)
      else if decide (desc = "I"%char) then
        run_ops self read_seq q_scores ref_seq rest (advance_read length st)
      else if decide (desc = "S"%char) then
        run_ops self read_seq q_scores ref_seq rest
          (softclip_run (bool_decide (rest = [])) length st)
      else mret (∅, [unknown_op_warning desc])
  end.

Definition __convert_read_to_bit_vector (self : BitVectorIterator) (read : AlignedRead)
    (ref_seq : list ascii) : result (gmap Z ascii * list log_entry) :=
  run_ops self (seq read) (qual read) ref_seq (_parse_cigar (cigar read))
    {| bitvector := ∅; i_ref := pos read; j_read := 0 |}.

(** ** PairMerger: [BitVectorIterator.__merge_paired_bit_vectors] *)

(** The branches of the [if]/[elif] chain, in the order the source tests
    them; [unhandled] is the final [else]. *)
Inductive merge_rule : Type :=
  | keep_nomut
  | other_than_ambig
  | other_than_missing
  | two_bases
  | deletion_and_base
  | unhandled.

#[global] Instance merge_rule_eq_dec : EqDecision merge_rule.
Proof. solve_decision. Defined.

Definition select_rule (b1 bit : ascii) : merge_rule :=
  let bits : gset ascii := {[b1; bit]} in
  if decide (nomut_bit ∈ bits) then keep_nomut
  else if decide (ambig_info ∈ bits) then other_than_ambig
  else if decide (miss_info ∈ bits) then other_than_missing
  else if decide (b1 ∈ bases ∧ bit ∈ bases) then two_bases
  else if decide ((b1 = del_bit ∧ bit ∈ bases) ∨ (b1 ∈ bases ∧ bit = del_bit))
       then deletion_and_base
  else unhandled.

(** [list(bits - set(x))[0]]. *)
Definition other_bit (b1 bit x : ascii) : result ascii :=
  let bits : gset ascii := {[b1; bit]} in
  py_index (elements (bits ∖ {[x]})) 0.

(** The value a branch stores at the position; [None] for the final [else],
    which stores nothing. *)
Definition merged_bit (rule : merge_rule) (b1 bit : ascii) : result (option ascii) :=
  match rule with
  | keep_nomut => mret (Some nomut_bit)
  | other_than_ambig => Some <$> other_bit b1 bit ambig_info
  | other_than_missing => Some <$> other_bit b1 bit miss_info
  | two_bases => mret (Some ambig_info)
  | deletion_and_base => mret (Some ambig_info)
  | unhandled => mret None
  end.

Definition unable_to_merge_warning (b1 bit : ascii) : log_entry :=
  Warn ("unable to merge bit_vectors with bits: "
          +:+ String b1 EmptyString +:+ " " +:+ String bit EmptyString).

(** The body of the loop over [bit_vector_2.items()]: [acc] is the dictionary
    [bit_vector] under construction with the warnings logged so far. *)
Definition merge_position (bit_vector_1 : gmap Z ascii)
    (acc : gmap Z ascii * list log_entry) (item : Z * ascii)
    : result (gmap Z ascii * list log_entry) :=
  let '(bit_vector, log) := acc in
  let '(pos, bit) := item in
  match bit_vector !! pos with
  | None => mret (<[pos := bit]> bit_vector, log)
  | Some cur =>
      if decide (bit ≠ cur) then
        b1 ← dict_get bit_vector_1 pos;
        new ← merged_bit (select_rule b1 bit) b1 bit;
        match new with
        | Some b => mret (<[pos := b]> bit_vector, log)
        | None => mret (bit_vector, log ++ [unable_to_merge_warning b1 bit])
        end
      else mret acc
  end.

Fixpoint fold_m {S X} (body : S → X → result S) (s : S) (xs : list X) : result S :=
  match xs with
  | [] => mret s
  | x :: xs' => s' ← body s x; fold_m body s' xs'
  end.

Definition __merge_paired_bit_vectors (bit_vector_1 bit_vector_2 : gmap Z ascii)
    : result (gmap Z ascii * list log_entry) :=
  fold_m (merge_position bit_vector_1) (bit_vector_1, []) (map_to_list bit_vector_2).

(** The symbols the classifier is meant to produce. *)
Definition valid_symbol (b : ascii) : Prop :=
  b = nomut_bit ∨ b = del_bit ∨ b = ambig_info ∨ b = miss_info ∨ b ∈ bases.

(** ** [BitVectorIterator.__next__] and the loop that consumes it *)

Definition __get_bit_vector_single (self : BitVectorIterator) (read : AlignedRead)
    : result (gmap Z ascii * list log_entry) :=
  ref_seq ← dict_get (ref_seqs self) (rname read);
  __convert_read_to_bit_vector self read ref_seq.

Definition __get_bit_vector_paired (self : BitVectorIterator) (read_1 read_2 : AlignedRead)
    : result (gmap Z ascii * list log_entry) :=
  ref_seq ← dict_get (ref_seqs self) (rname read_1);
  '(bit_vector_1, log_1) ← __convert_read_to_bit_vector self read_1 ref_seq;
  '(bit_vector_2, log_2) ← __convert_read_to_bit_vector self read_2 ref_seq;
  '(bit_vector, log_3) ← __merge_paired_bit_vectors bit_vector_1 bit_vector_2;
  mret (bit_vector, log_1 ++ log_2 ++ log_3).

Record BitVector : Type := {
  reads : list AlignedRead;
  data : gmap Z ascii;
}.

(** The objects tested for membership in the dictionary of references. Its
    keys are the [str] names of the FASTA records. *)
Inductive pyobj : Type :=
  | PyStr (s : string)
  | PyRead (r : AlignedRead).

(** [k in d] for a dictionary keyed by [str]: the key is hashed and compared
    with [==]; an [AlignedRead] compares unequal to every [str]. *)
Definition dict_contains {V} (d : gmap string V) (k : pyobj) : bool :=
  match k with
  | PyStr s => bool_decide (is_Some (d !! s))
  | PyRead _ => false
  end.

Definition unknown_reference_message (read : AlignedRead) : string :=
  "read " +:+ qname read +:+ " aligned to " +:+ rname read
    +:+ " which is not in the reference fasta".

(** [for read in reads: if read not in self.__ref_seqs: raise ValueError(...)] *)
Fixpoint check_reads (self : BitVectorIterator) (group : list AlignedRead) : result unit :=
  match group with
  | [] => mret tt
  | read :: rest =>
      if negb (dict_contains (ref_seqs self) (PyRead read))
      then raise (ValueError (unknown_reference_message read))
      else check_reads self rest
  end.

(** [__next__], given the reads that [next(self.__sam_iterator)] returned;
    the first component is [self.count] after the call. *)
Definition __next__ (self : BitVectorIterator) (count : Z) (group : list AlignedRead)
    : Z * result (BitVector * list log_entry) :=
  (count + 1,
   _ ← check_reads self group;
   '(d, log) ← (if paired self then
                  read_1 ← py_index group 0;
                  read_2 ← py_index group 1;
                  __get_bit_vector_paired self read_1 read_2
                else
                  read ← py_index group 0;
                  __get_bit_vector_single self read);
   mret ({| reads := group; data := d |}, log)).

Section pipeline.
(** [BitVectorGenerator.__generate_all_bit_vectors] runs
    [for bit_vector in self.__bit_vec_iterator: self.__record_bit_vector(bit_vector)].
    The state [histos] stands for [self._mut_histos], where accepted reads
    and skips are counted; [record] stands for [__record_bit_vector]. *)
Context {histos : Type}.
Variable record : BitVector → histos → histos * option exn.

Definition pipeline_step (self : BitVectorIterator) (st : Z * histos)
    (group : list AlignedRead) : (Z * histos) * option exn :=
  match __next__ self st.1 group with
  | (count, inl e) => ((count, st.2), Some e)
  | (count, inr (bit_vector, _)) =>
      let '(h, e) := record bit_vector st.2 in ((count, h), e)
  end.

(** The loop stops at the first exception. *)
Fixpoint pipeline_run (self : BitVectorIterator) (st : Z * histos)
    (groups : list (list AlignedRead)) : (Z * histos) * option exn :=
  match groups with
  | [] => (st, None)
  | group :: rest =>
      match pipeline_step self st group with
      | (st', None) => pipeline_run self st' rest
      | (st', Some e) => (st', Some e)
      end
  end.
End pipeline.

(** ** MutationHistogram *)

(** The position-indexed counters are numpy [float64] arrays that only ever
    receive [+= 1] and sums of such arrays; each holds a whole number, kept
    here as a [Z], and is converted to a [float] where the source divides.
    [end] is a keyword, so the attribute is [end_]. *)
Record MutationHistogram : Type := {
  name : string;
  sequence : list ascii;
  structure : option (list ascii);
  data_type : string;
  num_reads : Z;
  num_aligned : Z;
  skips : gmap string Z;
  num_of_mutations : list Z;
  mut_bases : list Z;
  info_bases : list Z;
  del_bases : list Z;
  ins_bases : list Z;
  cov_bases : list Z;
  mod_bases : gmap ascii (list Z);
  start : Z;
  end_ : Z;
}.

Definition zeros (n : Z) : list Z := replicate (Z.to_nat n) 0.

Definition __init__ (name : string) (sequence : list ascii) (data_type : string)
    (start end_ : option Z) : MutationHistogram :=
  let n := len sequence + 1 in
  {| name := name;
     sequence := sequence;
     structure := None;
     data_type := data_type;
     num_reads := 0;
     num_aligned := 0;
     skips := {[ "low_mapq"%string := 0; "short_read"%string := 0;
                 "too_many_muts"%string := 0 ]};
     num_of_mutations := zeros n;
     mut_bases := zeros n;
     info_bases := zeros n;
     del_bases := zeros n;
     ins_bases := zeros n;
     cov_bases := zeros n;
     mod_bases := {[ "A"%char := zeros n; "C"%char := zeros n;
                     "G"%char := zeros n; "T"%char := zeros n ]};
     start := default 1 start;
     end_ := default (len sequence) end_ |}.

(** [a += b] on one-dimensional arrays: element-wise when the shapes agree,
    [b] broadcast when it has one element, and a [ValueError] otherwise. *)
Definition np_iadd (a b : list Z) : result (list Z) :=
  if decide (length b = length a) then mret (zip_with Z.add a b)
  else match b with
       | [x] => mret ((fun y => y + x) <$> a)
       | _ => raise (ValueError "operands could not be broadcast together")
       end.

(** [for ii in range(len(b)): a[ii] += b[ii]] on Python lists. *)
Definition list_iadd (a b : list Z) : result (list Z) :=
  if decide (length b ≤ length a)%nat
  then mret (zip_with Z.add (take (length b) a) b ++ drop (length b) a)
  else raise IndexError.

(** [for key in a.keys(): a[key] += b[key]]. *)
Definition dict_iadd `{Countable K} {V} (add : V → V → result V) (a b : gmap K V)
    : result (gmap K V) :=
  fold_m (fun acc '(key, v) =>
            w ← dict_get b key;
            s ← add v w;
            mret (<[key := s]> acc))
         a (map_to_list a).

Definition merge (self other : MutationHistogram) : result MutationHistogram :=
  if decide (name self ≠ name other) then
    raise (ValueError "MutationalHistogram names do not match cannot merge")
  else if decide (sequence self ≠ sequence other) then
    raise (ValueError "MutationalHistogram sequences do not match cannot merge")
  else if decide (data_type self ≠ data_type other) then
    raise (ValueError "MutationalHistogram data_types do not match cannot merge")
  else if decide (start self ≠ start other) then
    raise (ValueError "MutationalHistogram starts do not match cannot merge")
  else if decide (end_ self ≠ end_ other) then
    raise (ValueError "MutationalHistogram ends do not match cannot merge")
  else if decide (structure self ≠ structure other) then
    raise (ValueError "MutationalHistogram structures do not match cannot merge")
  else
    skips' ← dict_iadd (fun x y => mret (x + y)) (skips self) (skips other);
    num_of_mutations' ← list_iadd (num_of_mutations self) (num_of_mutations other);
    mut_bases' ← np_iadd (mut_bases self) (mut_bases other);
    ins_bases' ← np_iadd (ins_bases self) (ins_bases other);
    cov_bases' ← np_iadd (cov_bases self) (cov_bases other);
    info_bases' ← np_iadd (info_bases self) (info_bases other);
    mod_bases' ← dict_iadd np_iadd (mod_bases self) (mod_bases other);
    mret {| name := name self;
            sequence := sequence self;
            structure := structure self;
            data_type := data_type self;
            num_reads := num_reads self + num_reads other;
            num_aligned := num_aligned self + num_aligned other;
            skips := skips';
            num_of_mutations := num_of_mutations';
            mut_bases := mut_bases';
            info_bases := info_bases';
            del_bases := del_bases self;
            ins_bases := ins_bases';
            cov_bases := cov_bases';
            mod_bases := mod_bases';
            start := start self;
            end_ := end_ self |}.

Definition get_nuc_coords (self : MutationHistogram) : list Z :=
  py_range (start self) (end_ self + 1).

(** [a[k] += 1]. *)
Definition py_incr (a : list Z) (k : Z) : result (list Z) :=
  x ← py_index a k;
  let k' := if k <? 0 then k + len a else k in
  mret (<[Z.to_nat k' := x + 1]> a).

(** The two attributes of [p.bit_vector] that [record_bit_vector] reads. *)
Record bit_vector_params : Type := {
  p_ambig_info : ascii;
  p_del_bit : ascii;
}.

(** The body of the loop of [record_bit_vector] over the coordinates; the
    state is the histogram with the running [total_muts]. *)
Definition record_position (p : bit_vector_params) (bit_vector : gmap Z ascii)
    (st : MutationHistogram * Z) (pos : Z) : result (MutationHistogram * Z) :=
  let '(self, total_muts) := st in
  match bit_vector !! pos with
  | None => mret st
  | Some read_bit =>
      cov ← (if decide (read_bit ≠ p_ambig_info p)
             then py_incr (cov_bases self) pos else mret (cov_bases self));
      '(total_muts, mods, mut, del) ←
        (if decide (read_bit ∈ bases) then
           arr ← dict_get (mod_bases self) read_bit;
           arr' ← py_incr arr pos;
           mut ← py_incr (mut_bases self) pos;
           mret (total_muts + 1, <[read_bit := arr']> (mod_bases self), mut, del_bases self)
         else if decide (read_bit = p_del_bit p) then
           del ← py_incr (del_bases self) pos;
           mret (total_muts, mod_bases self, mut_bases self, del)
         else mret (total_muts, mod_bases self, mut_bases self, del_bases self));
      info ← py_incr (info_bases self) pos;
      mret ({| name := name self;
               sequence := sequence self;
               structure := structure self;
               data_type := data_type self;
               num_reads := num_reads self;
               num_aligned := num_aligned self;
               skips := skips self;
               num_of_mutations := num_of_mutations self;
               mut_bases := mut;
               info_bases := info;
               del_bases := del;
               ins_bases := ins_bases self;
               cov_bases := cov;
               mod_bases := mods;
               start := start self;
               end_ := end_ self |}, total_muts)
  end.

Definition set_counts (self : MutationHistogram) (reads aligned : Z) (nom : list Z)
    : MutationHistogram :=
  {| name := name self;
     sequence := sequence self;
     structure := structure self;
     data_type := data_type self;
     num_reads := reads;
     num_aligned := aligned;
     skips := skips self;
     num_of_mutations := nom;
     mut_bases := mut_bases self;
     info_bases := info_bases self;
     del_bases := del_bases self;
     ins_bases := ins_bases self;
     cov_bases := cov_bases self;
     mod_bases := mod_bases self;
     start := start self;
     end_ := end_ self |}.

Definition record_bit_vector (self : MutationHistogram) (bit_vector : gmap Z ascii)
    (p : bit_vector_params) : result MutationHistogram :=
  let self := set_counts self (num_reads self + 1) (num_aligned self + 1)
                (num_of_mutations self) in
  '(self, total_muts) ←
    fold_m (record_position p bit_vector) (self, 0) (get_nuc_coords self);
  nom ← py_incr (num_of_mutations self) total_muts;
  mret (set_counts self (num_reads self) (num_aligned self) nom).

(** *** Derived statistics *)

(** A count as the [float64] the array holds. *)
Definition float_of_count (z : Z) : float :=
  if z <? 0 then PrimFloat.opp (PrimFloat.of_uint63 (Uint63.of_Z (- z)))
  else PrimFloat.of_uint63 (Uint63.of_Z z).

(** [numpy.rint]: the nearest whole number, ties to even. Below [2^52] in
    magnitude adding and removing [2^52] performs that rounding; from [2^52]
    on every [float64] is whole. *)
Definition two52 : float := 4503599627370496%float.

Definition rint (x : float) : float :=
  if PrimFloat.ltb (PrimFloat.abs x) two52 then
    if PrimFloat.ltb x 0%float
    then PrimFloat.add (PrimFloat.sub x two52) two52
    else PrimFloat.sub (PrimFloat.add x two52) two52
  else x.

(** [round(x, decimals)] on a numpy [float64], for [decimals >= 0]:
    [rint(x * 10**decimals) / 10**decimals]. *)
Definition np_round (x : float) (decimals : Z) : float :=
  let f := float_of_count (10 ^ decimals) in
  PrimFloat.div (rint (PrimFloat.mul x f)) f.

(** The body of the [try] in [get_pop_avg]. The operands are numpy scalars:
    their division follows IEEE 754 and raises nothing, a zero divisor gives
    [nan] or an infinity with a [RuntimeWarning]. What the bare [except] can
    catch is the [IndexError] of a lookup. *)
Definition mut_frac (self : MutationHistogram) (inc_del : bool) (pos : Z) : result float :=
  if inc_del then
    d ← py_index (del_bases self) pos;
    m ← py_index (mut_bases self) pos;
    n ← py_index (info_bases self) pos;
    mret (PrimFloat.div (PrimFloat.add (float_of_count d) (float_of_count m))
            (float_of_count n))
  else
    m ← py_index (mut_bases self) pos;
    n ← py_index (info_bases self) pos;
    mret (PrimFloat.div (float_of_count m) (float_of_count n)).

Definition get_pop_avg (self : MutationHistogram) (inc_del : bool) : list float :=
  (fun pos =>
     let frac := match mut_frac self inc_del pos with
                 | inr x => x
                 | inl _ => 0%float
                 end in
     np_round frac 5) <$> get_nuc_coords self.

Definition sum_list (l : list Z) : Z := foldr Z.add 0 l.

(** [self.num_of_mutations[0:4] + [sum(self.num_of_mutations[5:])]] *)
Definition percent_mutation_counts (self : MutationHistogram) : list Z :=
  py_slice (num_of_mutations self) 0 4
    ++ [sum_list (py_slice (num_of_mutations self) 5 (len (num_of_mutations self)))].

Definition get_percent_mutations (self : MutationHistogram) : list float :=
  (fun x =>
     np_round (PrimFloat.mul
                 (PrimFloat.div (float_of_count x) (float_of_count (num_aligned self)))
                 100%float) 2) <$> percent_mutation_counts self.

Definition record_skip (self : MutationHistogram) (t : string) : result MutationHistogram :=
  n ← dict_get (skips self) t;
  mret {| name := name self;
          sequence := sequence self;
          structure := structure self;
          data_type := data_type self;
          num_reads := num_reads self + 1;
          num_aligned := num_aligned self;
          skips := <[t := n + 1]> (skips self);
          num_of_mutations := num_of_mutations self;
          mut_bases := mut_bases self;
          info_bases := info_bases self;
          del_bases := del_bases self;
          ins_bases := ins_bases self;
          cov_bases := cov_bases self;
          mod_bases := mod_bases self;
          start := start self;
          end_ := end_ self |}.

(** *** Read coverage *)

Fixpoint map_m {X Y} (f : X → result Y) (xs : list X) : result (list Y) :=
  match xs with
  | [] => mret []
  | x :: xs' => y ← f x; ys ← map_m f xs'; mret (y :: ys)
  end.

(** The quotient is that of a numpy scalar by a Python integer: it follows
    IEEE 754 and raises nothing, so the [except ZeroDivisionError] has nothing
    to catch; the [IndexError] of the lookup is not caught. *)
Definition get_read_coverage (self : MutationHistogram) : result (list float) :=
  map_m (fun pos =>
           c ← py_index (cov_bases self) pos;
           mret (PrimFloat.div (float_of_count c) (float_of_count (num_reads self))))
        (get_nuc_coords self).

(** *** Signal to noise *)

(** The numbers of [get_signal_to_noise]: the accumulators start as the
    Python integer [0] and become numpy scalars with the first array element
    added. A division that involves a numpy scalar follows IEEE 754; a
    division of Python numbers raises [ZeroDivisionError] at a zero divisor. *)
Inductive pynum : Type :=
  | PyInt (z : Z)
  | PyFloat (x : float)
  | NpFloat (x : float).

Definition as_float (a : pynum) : float :=
  match a with
  | PyInt z => float_of_count z
  | PyFloat x | NpFloat x => x
  end.

(** The exceptions of [get_signal_to_noise]: those of the lookups, and the
    one of the division. *)
Inductive arith_exn : Type :=
  | Raised (e : exn)
  | ZeroDivisionError.

(** [a += x] for an element [x] of a [float64] array. *)
Definition add_element (a : pynum) (x : Z) : pynum :=
  NpFloat (PrimFloat.add (as_float a) (float_of_count x)).

(** [a / b]. *)
Definition truediv (a b : pynum) : arith_exn + pynum :=
  match a, b with
  | NpFloat x, _ => inr (NpFloat (PrimFloat.div x (as_float b)))
  | _, NpFloat y => inr (NpFloat (PrimFloat.div (as_float a) y))
  | _, _ =>
      if PrimFloat.eqb (as_float b) 0%float then inl ZeroDivisionError
      else inr (PyFloat (PrimFloat.div (as_float a) (as_float b)))
  end.

(** [seq.count(c)] for a character [c]. *)
Definition count_char (c : ascii) (s : list ascii) : Z :=
  Z.of_nat (length (List.filter (λ x, bool_decide (x = c)) s)).

(** The body of the loop; the state is [(AC, GU)]. *)
Definition signal_position (self : MutationHistogram) (st : pynum * pynum) (pos : Z)
    : result (pynum * pynum) :=
  let '(AC, GU) := st in
  e ← py_index (sequence self) (pos - 1);
  if bool_decide (e = "A"%char ∨ e = "C"%char) then
    m ← py_index (mut_bases self) pos;
    mret (add_element AC m, GU)
  else
    m ← py_index (mut_bases self) pos;
    mret (AC, add_element GU m).

Section signal_to_noise.
(** [round(x, 2)] on a Python [float]. *)
Variable py_round : float → float.

Definition get_signal_to_noise (self : MutationHistogram) : arith_exn + float :=
  let seq := sequence self in
  let AC_count := count_char "A" seq + count_char "C" seq in
  let GU_count := count_char "G" seq + count_char "U" seq + count_char "T" seq in
  match fold_m (signal_position self) (PyInt 0, PyInt 0) (get_nuc_coords self) with
  | inl e => inl (Raised e)
  | inr (AC, GU) =>
      match truediv AC (PyFloat (float_of_count AC_count)) with
      | inl e => inl e
      | inr AC =>
          match truediv GU (PyFloat (float_of_count GU_count)) with
          | inl e => inl e
          | inr GU =>
              match truediv AC GU with
              | inl e => inl e
              | inr q => inr (py_round (as_float q))
              end
          end
      end
  end.
End signal_to_noise.

(** ** BitVectorFileWriter *)

(** [str.isalpha] on one character, over the code points that an [ascii]
    holds (Latin-1): the letters of ASCII, the ordinal indicators, the micro
    sign and the accented letters. *)
Definition isalpha (c : ascii) : bool :=
  let n := Z.of_nat (nat_of_ascii c) in
  ((65 <=? n) && (n <=? 90)) || ((97 <=? n) && (n <=? 122))
  || (n =? 170) || (n =? 181) || (n =? 186)
  || ((192 <=? n) && (n <=? 214)) || ((216 <=? n) && (n <=? 246))
  || ((248 <=? n) && (n <=? 255)).

(** The file [self.f] is the list of the strings written to it. *)
Record BitVectorFileWriter : Type := {
  w_start : Z;
  w_end : Z;
  w_sequence : list ascii;
  w_file : list string;
}.

Definition tab : string := String (ascii_of_nat 9) EmptyString.
Definition newline : string := String (ascii_of_nat 10) EmptyString.

(** [BitVectorFileWriter.__init__]: the three header lines. *)
Definition writer_init (name : string) (sequence : list ascii) (data_type : string)
    (start end_ : Z) : BitVectorFileWriter :=
  {| w_start := start;
     w_end := end_;
     w_sequence := sequence;
     w_file :=
       [ "@ref" +:+ tab +:+ name +:+ tab +:+ string_of_list_ascii sequence
           +:+ tab +:+ data_type +:+ newline;
         "@coordinates:" +:+ tab +:+ pretty 0 +:+ "," +:+ pretty (len sequence)
           +:+ ":" +:+ pretty (len sequence) +:+ newline;
         "Query_name" +:+ tab +:+ "Bit_vector" +:+ tab +:+ "N_Mutations" +:+ newline ] |}.

(** The body of the loop of [write_bit_vector]; the state is
    [(n_mutations, bit_string)]. *)
Definition write_position (bit_vector : gmap Z ascii) (st : Z * list ascii) (pos : Z)
    : Z * list ascii :=
  let '(n_mutations, bit_string) := st in
  match bit_vector !! pos with
  | None => (n_mutations, bit_string ++ ["."%char])
  | Some read_bit =>
      (if isalpha read_bit then n_mutations + 1 else n_mutations,
       bit_string ++ [read_bit])
  end.

Definition bit_vector_line (self : BitVectorFileWriter) (bit_vector : gmap Z ascii)
    : Z * list ascii :=
  foldl (write_position bit_vector) (0, []) (py_range (w_start self) (w_end self + 1)).

Definition write_bit_vector (self : BitVectorFileWriter) (q_name : string)
    (bit_vector : gmap Z ascii) : BitVectorFileWriter :=
  let '(n_mutations, bit_string) := bit_vector_line self bit_vector in
  {| w_start := w_start self;
     w_end := w_end self;
     w_sequence := w_sequence self;
     w_file := w_file self ++
       [ q_name +:+ tab +:+ string_of_list_ascii bit_string +:+ tab
           +:+ pretty n_mutations +:+ newline ] |}.

(** ** Dictionaries of histograms *)

(** [merge] changes a histogram in place, item assignment changes a
    dictionary in place, and both objects can be reached through several
    names. The store maps the identity of an object to its present value. *)
Abbreviation ref := nat.

Record store : Type := {
  histograms : ref → MutationHistogram;
  dicts : ref → gmap string ref;
}.

(** The body of the loop of [merge_mut_histo_dicts]. *)
Definition merge_key (left right : ref) (σ : store) (key : string) : result store :=
  match dicts σ left !! key with
  | Some l =>
      r ← dict_get (dicts σ right) key;
      h ← merge (histograms σ l) (histograms σ r);
      mret {| histograms := <[l := h]> (histograms σ); dicts := dicts σ |}
  | None =>
      r ← dict_get (dicts σ right) key;
      mret {| histograms := histograms σ;
              dicts := <[left := <[key := r]> (dicts σ left)]> (dicts σ) |}
  end.

(** [merge_mut_histo_dicts(left, right)]. The keys are those that [right]
    has when the loop starts: the loop adds no key to [right], also when
    [left] and [right] are one dictionary. They are taken in the order of the
    map, which matters only for which exception comes first. *)
Definition merge_mut_histo_dicts (left right : ref) (σ : store) : result store :=
  fold_m (merge_key left right) σ (map_to_list (dicts σ right)).*1.

(** [merge_all_merge_mut_histo_dicts(mut_histos)]: the first dictionary of
    the list receives the others and is returned. *)
Definition merge_all_merge_mut_histo_dicts (mut_histos : list ref) (σ : store)
    : result (ref * store) :=
  match mut_histos with
  | [] => raise IndexError
  | merged :: rest =>
      σ' ← fold_m (fun σ mh => merge_mut_histo_dicts merged mh σ) σ rest;
      mret (merged, σ')
  end.

(** ** Statements of the specification used below *)

(** The number of reference positions that the walk over [cigar_ops]
    consumes: the lengths of the match runs, of the deletion runs (the final
    position of a deletion run is always marked, also when its length is 0)
    and of a soft clip that ends the CIGAR. An unknown operation ends the
    walk. *)
Fixpoint ref_span (cigar_ops : list (list ascii * ascii)) : Z :=
  match cigar_ops with
  | [] => 0
  | op :: rest =>
      let length := int_of_digits op.1 in
      if decide (op.2 = "M"%char) then length + ref_span rest
      else if decide (op.2 = "D"%char) then Z.max length 1 + ref_span rest
      else if decide (op.2 = "I"%char) then ref_span rest
      else if decide (op.2 = "S"%char) then
        (if bool_decide (rest = []) then length else 0) + ref_span rest
      else 0
  end.

(** The symbol of a matched base with quality [score], read base [r] and
    reference base [f], with the cutoff exclusive: a score at the cutoff is
    ambiguous. *)
Definition expected_bit (cutoff score : Z) (r f : ascii) : ascii :=
  if decide (score ≤ cutoff) then ambig_info
  else if decide (r = f) then nomut_bit
  else r.

(** The same rule as the specification words it, with the cutoff inclusive:
    only a score below the cutoff is ambiguous. *)
Definition claimed_bit (cutoff score : Z) (r f : ascii) : ascii :=
  if decide (score < cutoff) then ambig_info
  else if decide (r = f) then nomut_bit
  else r.

(** The positions of the bit vector under construction lie between [lo] and
    the reference coordinate. *)
Definition covered (lo : Z) (st : walk) : Prop :=
  lo ≤ i_ref st ∧ ∀ p b, bitvector st !! p = Some b → lo ≤ p < i_ref st.

(** What the merged bit vector holds at a position of mate 2 with symbol
    [bit], given what mate 1 holds there. *)
Definition merge_value (o1 : option ascii) (bit v : ascii) : Prop :=
  match o1 with
  | None => v = bit
  | Some b1 =>
      if decide (bit = b1) then v = b1
      else select_rule b1 bit ≠ unhandled
           ∧ merged_bit (select_rule b1 bit) b1 bit = inr (Some v)
  end.

(** A second wording of the window: a slice that reaches outside the
    reference is empty as a whole. *)
Definition strict_window_slice {A} (s : list A) (a b : Z) : list A :=
  if (0 <=? a) && (b <=? len s) then take (Z.to_nat (b - a)) (drop (Z.to_nat a) s)
  else [].


(** ** Data of the examples *)

(** A quality table for the examples: the Sanger encoding, in which the
    character of code [33 + q] stands for the score [q]. *)
Definition phred33 : gmap ascii Z :=
  list_to_map ((fun k => (ascii_of_nat (33 + k), Z.of_nat k)) <$> List.seq 0 94).

(** An iterator with the default [qscore_cutoff=25] and
    [num_of_surbases=10]. *)
Definition default_iterator (refs : gmap string (list ascii)) (paired : bool)
    : BitVectorIterator :=
  {| ref_seqs := refs;
     paired := paired;
     phred_qscores := phred33;
     qscore_cutoff := 25;
     num_of_surbases := 10 |}.

Definition example_read (rname : string) (pos : Z) (cigar seq qual : string) : AlignedRead :=
  {| qname := "read_1";
     rname := rname;
     pos := pos;
     mapq := 40;
     cigar := str cigar;
     seq := str seq;
     qual := str qual |}.

Definition default_params : bit_vector_params :=
  {| p_ambig_info := ambig_info; p_del_bit := del_bit |}.

(** The histogram that [__generate_all_bit_vectors] creates for a
    reference [ref] with sequence [ACGTA]: [MutationHistogram(ref_name, seq,
    "DMS", 1, len(seq))]. *)
Definition fresh_histogram : MutationHistogram :=
  __init__ "ref" (str "ACGTA") "DMS" (Some 1) (Some 5).

(** Three bit vectors over that reference: a read with a deletion at
    position 2, another one, and a read with exactly four mutated bases. *)
Definition deletion_bv : gmap Z ascii :=
  {[ 1 := "0"; 2 := "1"; 3 := "T"; 4 := "?" ]}%char.

Definition second_deletion_bv : gmap Z ascii :=
  {[ 2 := "1"; 3 := "0" ]}%char.

Definition four_mutations_bv : gmap Z ascii :=
  {[ 1 := "C"; 2 := "A"; 3 := "T"; 4 := "A"; 5 := "0" ]}%char.


(** ** Notions used by the further properties *)

(** *** Classification *)

(** The operations that [__convert_read_to_bit_vector] has a branch for. *)
Definition known_op (op : list ascii * ascii) : Prop :=
  op.2 ∈ ["M"; "D"; "I"; "S"]%char.

(** The walk has classified every position from [lo] up to the reference
    cursor, and no other. *)
Definition exactly_covered (lo : Z) (st : walk) : Prop :=
  lo ≤ i_ref st ∧ ∀ p, is_Some (bitvector st !! p) ↔ lo ≤ p < i_ref st.

(** *** Pair merger *)

(** What the loop of [__merge_paired_bit_vectors] leaves at a position that
    holds [b1] in the first mate and [bit] in the second: the branches of
    [select_rule], and [b1] kept where no branch applies. *)
Definition merged_symbol (b1 bit : ascii) : ascii :=
  if decide (bit = b1) then b1
  else match select_rule b1 bit with
       | keep_nomut => nomut_bit
       | other_than_ambig => if decide (b1 = ambig_info) then bit else b1
       | other_than_missing => if decide (b1 = miss_info) then bit else b1
       | two_bases | deletion_and_base => ambig_info
       | unhandled => b1
       end.

Definition unhandled_pair (bit_vector_1 bit_vector_2 : gmap Z ascii) (p : Z) (b1 b2 : ascii)
    : Prop :=
  bit_vector_1 !! p = Some b1 ∧ bit_vector_2 !! p = Some b2
  ∧ b1 ≠ b2 ∧ select_rule b1 b2 = unhandled.

(** *** Counting over the coordinates *)

Definition count_where (f : Z → bool) (l : list Z) : Z :=
  Z.of_nat (length (List.filter f l)).

Definition tick (c : bool) : Z := if c then 1 else 0.

(** Whether the bit vector holds at [pos] a symbol that passes [test]. *)
Definition hits (bit_vector : gmap Z ascii) (test : ascii → bool) (pos : Z) : bool :=
  from_option test false (bit_vector !! pos).

Definition is_base (b : ascii) : bool := bool_decide (b ∈ bases).

(** *** MutationHistogram *)

Definition skip_reasons : list string := ["low_mapq"; "short_read"; "too_many_muts"]%string.

(** The shape that [__init__] gives a histogram and that [record_bit_vector],
    [record_skip] and [merge] keep. *)
Definition counters_sized (h : MutationHistogram) : Prop :=
  let n := S (length (sequence h)) in
  length (num_of_mutations h) = n
  ∧ length (mut_bases h) = n ∧ length (info_bases h) = n
  ∧ length (del_bases h) = n ∧ length (ins_bases h) = n
  ∧ length (cov_bases h) = n
  ∧ (∀ b, is_Some (mod_bases h !! b) ↔ b ∈ bases)
  ∧ map_Forall (λ _ a, length a = n) (mod_bases h)
  ∧ (∀ t, is_Some (skips h !! t) ↔ t ∈ skip_reasons).

(** A histogram of that shape whose window [start .. end] lies in
    [1 .. len(sequence)], as [__generate_all_bit_vectors] creates them. *)
Definition well_formed (h : MutationHistogram) : Prop :=
  counters_sized h ∧ 1 ≤ start h ∧ end_ h ≤ len (sequence h).

(** The same, as a test that evaluates. *)
Definition well_formed_b (h : MutationHistogram) : bool :=
  let n := S (length (sequence h)) in
  bool_decide (length (num_of_mutations h) = n)
  && bool_decide (length (mut_bases h) = n)
  && bool_decide (length (info_bases h) = n)
  && bool_decide (length (del_bases h) = n)
  && bool_decide (length (ins_bases h) = n)
  && bool_decide (length (cov_bases h) = n)
  && bool_decide (dom (mod_bases h) = list_to_set bases)
  && forallb (λ kv, bool_decide (length kv.2 = n)) (map_to_list (mod_bases h))
  && bool_decide (dom (skips h) = list_to_set skip_reasons)
  && bool_decide (1 ≤ start h) && bool_decide (end_ h ≤ len (sequence h)).

(** [a[pos] += 1] when [pos] is a valid index. *)
Definition incr (pos : Z) (a : list Z) : list Z :=
  alter (λ x, x + 1) (Z.to_nat pos) a.

Definition bump (c : bool) (pos : Z) (a : list Z) : list Z :=
  if c then incr pos a else a.

(** The body of the loop of [record_bit_vector] when every index is in
    range. *)
Definition record_at (p : bit_vector_params) (bit_vector : gmap Z ascii)
    (st : MutationHistogram * Z) (pos : Z) : MutationHistogram * Z :=
  match bit_vector !! pos with
  | None => st
  | Some b =>
      ({| name := name st.1;
          sequence := sequence st.1;
          structure := structure st.1;
          data_type := data_type st.1;
          num_reads := num_reads st.1;
          num_aligned := num_aligned st.1;
          skips := skips st.1;
          num_of_mutations := num_of_mutations st.1;
          mut_bases := if decide (b ∈ bases) then incr pos (mut_bases st.1)
                       else mut_bases st.1;
          info_bases := incr pos (info_bases st.1);
          del_bases := if decide (b ∈ bases) then del_bases st.1
                       else if decide (b = p_del_bit p) then incr pos (del_bases st.1)
                       else del_bases st.1;
          ins_bases := ins_bases st.1;
          cov_bases := if decide (b ≠ p_ambig_info p) then incr pos (cov_bases st.1)
                       else cov_bases st.1;
          mod_bases := if decide (b ∈ bases)
                       then alter (incr pos) b (mod_bases st.1)
                       else mod_bases st.1;
          start := start st.1;
          end_ := end_ st.1 |},
       if decide (b ∈ bases) then st.2 + 1 else st.2)
  end.

(** The symbols that count for each array: every symbol is informative; it
    covers unless it is the ambiguous one; it is a deletion when it is the
    deletion symbol and no base. *)
Definition is_covering (p : bit_vector_params) (b : ascii) : bool :=
  bool_decide (b ≠ p_ambig_info p).

Definition is_deletion (p : bit_vector_params) (b : ascii) : bool :=
  bool_decide (b ∉ bases ∧ b = p_del_bit p).

(** Whether [record_bit_vector] visits [pos] and finds there a symbol that
    passes [test]. *)
Definition counted (h : MutationHistogram) (bit_vector : gmap Z ascii)
    (test : ascii → bool) (pos : Z) : bool :=
  bool_decide (start h ≤ pos ≤ end_ h) && hits bit_vector test pos.

Definition total_skips (h : MutationHistogram) : Z :=
  map_fold (λ _ v acc, v + acc) 0 (skips h).

(** Every read is counted once, as aligned or as skipped, and every aligned
    read is in one bucket of the distribution. *)
Definition balanced (h : MutationHistogram) : Prop :=
  num_reads h = num_aligned h + total_skips h
  ∧ sum_list (num_of_mutations h) = num_aligned h.

(** At every position the counters are non-negative, the covering reads are
    among the informative ones, and so are the mutated and the deleted ones
    together. *)
Definition rates_bounded (h : MutationHistogram) : Prop :=
  ∀ (k : nat) x c m d,
    info_bases h !! k = Some x → cov_bases h !! k = Some c →
    mut_bases h !! k = Some m → del_bases h !! k = Some d →
    0 ≤ c ≤ x ∧ 0 ≤ m ∧ 0 ≤ d ∧ m + d ≤ x.

(** The six attributes that [merge] compares. *)
Definition same_identity (self other : MutationHistogram) : Prop :=
  name self = name other ∧ sequence self = sequence other
  ∧ data_type self = data_type other ∧ start self = start other
  ∧ end_ self = end_ other ∧ structure self = structure other.

(** Two histograms that [merge] accepts. *)
Definition mergeable (a b : MutationHistogram) : Prop :=
  well_formed a ∧ well_formed b ∧ same_identity a b.

(** *** Signal to noise *)

(** Whether the base of the sequence at the position [pos], counted from 1,
    is [A] or [C]. *)
Definition is_ac (self : MutationHistogram) (pos : Z) : bool :=
  match sequence self !! Z.to_nat (pos - 1) with
  | Some e => bool_decide (e = "A"%char ∨ e = "C"%char)
  | None => false
  end.

Definition is_np (a : pynum) : bool :=
  match a with NpFloat _ => true | _ => false end.

(** The cases in which [get_signal_to_noise] divides Python numbers by
    zero: the sequence has no [A] and no [C]; or it has no [G], [U] and [T]
    and the window holds only [A] and [C]; or the window is empty. *)
Definition divides_by_zero (self : MutationHistogram) : Prop :=
  count_char "A" (sequence self) + count_char "C" (sequence self) = 0
  ∨ (count_char "G" (sequence self) + count_char "U" (sequence self)
     + count_char "T" (sequence self) = 0
     ∧ Forall (λ pos, is_ac self pos = true) (get_nuc_coords self))
  ∨ end_ self < start self.

(** *** Dictionaries of histograms *)

(** No histogram object is held twice by the dictionary [d]. *)
Definition holds_once (σ : store) (d : ref) : Prop :=
  ∀ k1 k2 x, dicts σ d !! k1 = Some x → dicts σ d !! k2 = Some x → k1 = k2.

(** The dictionaries [d1] and [d2] hold no histogram object in common. *)
Definition apart (σ : store) (d1 d2 : ref) : Prop :=
  ∀ k1 k2 x, dicts σ d1 !! k1 = Some x → dicts σ d2 !! k2 = Some x → False.

(** Every histogram object is held once, by one dictionary of [ds]. *)
Definition unshared (σ : store) (ds : list ref) : Prop :=
  ∀ d1 d2 k1 k2 x,
    d1 ∈ ds → d2 ∈ ds →
    dicts σ d1 !! k1 = Some x → dicts σ d2 !! k2 = Some x → d1 = d2 ∧ k1 = k2.

(** The dictionaries of [ds] hold well-formed histograms, and under one key
    histograms of one identity. *)
Definition shards (σ : store) (ds : list ref) : Prop :=
  (∀ d key x, d ∈ ds → dicts σ d !! key = Some x → well_formed (histograms σ x))
  ∧ (∀ d1 d2 key x1 x2,
       d1 ∈ ds → d2 ∈ ds →
       dicts σ d1 !! key = Some x1 → dicts σ d2 !! key = Some x2 →
       same_identity (histograms σ x1) (histograms σ x2)).

(** [(num_reads, num_aligned)] of the histogram that [d] holds under [key],
    and their sums over the dictionaries [ds]. *)
Definition reads_of (σ : store) (d : ref) (key : string) : Z * Z :=
  match dicts σ d !! key with
  | Some x => (num_reads (histograms σ x), num_aligned (histograms σ x))
  | None => (0, 0)
  end.

Definition total_reads (σ : store) (ds : list ref) (key : string) : Z * Z :=
  foldr (λ d acc, ((reads_of σ d key).1 + acc.1, (reads_of σ d key).2 + acc.2)) (0, 0) ds.

(** The histogram object that the first dictionary of [ds] with the key
    [key] holds there. *)
Definition first_holder (σ : store) (ds : list ref) (key : string) : option ref :=
  foldr (λ d acc, match dicts σ d !! key with Some x => Some x | None => acc end) None ds.

(** The state of [merge_all_merge_mut_histo_dicts] after the dictionaries
    [processed] of the store [σ0], the first of which is [merged]. *)
Definition merged_so_far (σ0 : store) (processed : list ref) (merged : ref) (σ : store)
    : Prop :=
  (∀ d, d ≠ merged → dicts σ d = dicts σ0 d)
  ∧ (∀ key, dicts σ merged !! key = first_holder σ0 processed key)
  ∧ (∀ key x, dicts σ merged !! key = Some x →
       well_formed (histograms σ x)
       ∧ same_identity (histograms σ x) (histograms σ0 x)
       ∧ (num_reads (histograms σ x), num_aligned (histograms σ x))
         = total_reads σ0 processed key)
  ∧ (∀ x, (∀ d key, d ∈ processed → dicts σ0 d !! key ≠ Some x) →
          histograms σ x = histograms σ0 x).

(** *** Data of the further examples *)

(** The histogram of the examples after one read. *)
Definition recorded (bit_vector : gmap Z ascii) : MutationHistogram :=
  match record_bit_vector fresh_histogram bit_vector default_params with
  | inr h => h
  | inl _ => fresh_histogram
  end.

(** A reference of thirty bases with a repeat around position 20. *)
Definition repeat_reference : list ascii := str "ACGTACGTACGTACGTAGGTCCAGTACGTA".


(** A store for the examples: the dictionary [0] holds one shard of the
    reference [ref], the dictionary [1] another shard of it and a shard of a
    second reference. *)
Definition example_store : store :=
  {| histograms := λ x, if decide (x = 1%nat) then recorded four_mutations_bv
                        else recorded deletion_bv;
     dicts := λ d, if decide (d = 0%nat) then {[ "ref"%string := 0%nat ]}
                   else if decide (d = 1%nat)
                        then {[ "ref"%string := 1%nat; "ref2"%string := 2%nat ]}
                        else ∅ |}.

(** A histogram of a reference without [A] and [C]. *)
Definition no_ac_histogram : MutationHistogram :=
  __init__ "poly" (str "GGTTG") "DMS" None None.

(** * Facts about the embedding *)

(** ** The error monad and the Python sequences *)

Lemma bind_inr {A B} (m : result A) (f : A → result B) (y : B) :
  m ≫= f = inr y → ∃ x, m = inr x ∧ f x = inr y.
Proof. destruct m as [e|x]; simpl; [discriminate | eauto]. Qed.

Lemma py_index_nonneg {A} (s : list A) (k : Z) (x : A) :
  0 ≤ k → s !! Z.to_nat k = Some x → py_index s k = inr x.
Proof.
  intros Hk Hx. unfold py_index.
  destruct (k <? 0) eqn:E; [apply Z.ltb_lt in E; lia |].
  rewrite E, Hx. reflexivity.
Qed.

Lemma py_index_nonneg_inv {A} (s : list A) (k : Z) (x : A) :
  0 ≤ k → py_index s k = inr x → s !! Z.to_nat k = Some x.
Proof.
  intros Hk. unfold py_index.
  destruct (k <? 0) eqn:E; [apply Z.ltb_lt in E; lia |].
  rewrite E. destruct (s !! Z.to_nat k); simpl; [| discriminate].
  intros [= ->]. reflexivity.
Qed.

(** A slice does not see an assignment outside its bounds. *)
Lemma py_slice_insert_before {A} (l : list A) (k : nat) (x : A) (a b : Z) :
  Z.of_nat k < a → py_slice (<[k := x]> l) a b = py_slice l a b.
Proof.
  intros Hk. unfold py_slice, slice_bound, len. rewrite length_insert.
  destruct (a <? 0) eqn:E; [apply Z.ltb_lt in E; lia |].
  destruct (decide (k < length l)%nat) as [Hin|Hout].
  - destruct (Z.min_spec a (Z.of_nat (length l))) as [[_ ->]|[_ ->]];
      (rewrite drop_insert_lt by lia; reflexivity).
  - rewrite list_insert_ge by lia. reflexivity.
Qed.

Lemma py_slice_insert_after {A} (l : list A) (k : nat) (x : A) (a b : Z) :
  0 ≤ a → 0 ≤ b ≤ Z.of_nat k → py_slice (<[k := x]> l) a b = py_slice l a b.
Proof.
  intros Ha Hb. unfold py_slice, slice_bound, len. rewrite length_insert.
  destruct (a <? 0) eqn:Ea; [apply Z.ltb_lt in Ea; lia |].
  destruct (b <? 0) eqn:Eb; [apply Z.ltb_lt in Eb; lia |].
  set (a' := Z.min a (Z.of_nat (length l))).
  set (b' := Z.min b (Z.of_nat (length l))).
  destruct (decide (Z.to_nat a' ≤ k)%nat) as [Hle|Hgt].
  - rewrite drop_insert_ge by exact Hle. apply take_insert_ge. lia.
  - rewrite drop_insert_lt by lia. reflexivity.
Qed.

(** ** CigarDecoder *)


Lemma span_digits_split s ds rest :
  span_digits s = (ds, rest) →
  s = ds ++ rest ∧ Forall (λ c, is_digit c = true) ds.
Proof.
  revert ds rest. induction s as [|c s IH]; intros ds rest; simpl.
  - intros [= <- <-]. split; [reflexivity | constructor].
  - destruct (is_digit c) eqn:Hc.
    + destruct (span_digits s) as [ds' rest'] eqn:Hs.
      intros [= <- <-]. destruct (IH _ _ eq_refl) as [-> Hall].
      split; [reflexivity | constructor; assumption].
    + intros [= <- <-]. split; [reflexivity | constructor].
Qed.



Lemma match_at_inv s ds c :
  match_at s = Some (ds, c) → wf_token (ds, c) ∧ ∃ rest, s = ds ++ c :: rest.
Proof.
  unfold match_at. destruct (span_digits s) as [ds' rest'] eqn:Hs.
  apply span_digits_split in Hs as [-> Hall].
  destruct ds' as [|d ds']; [discriminate |].
  destruct rest' as [|c' rest']; [discriminate |].
  destruct (is_upper c') eqn:Hc; [| discriminate].
  intros [= <- <-]. split; [| eauto].
  repeat split; simpl; auto; discriminate.
Qed.



Lemma findall_from_sound s :
  ∀ skip,
    Forall wf_token (findall_from skip s)
    ∧ sublist (render_tokens (findall_from skip s)) (drop skip s).
Proof.
  induction s as [|a s IH]; intros skip; simpl.
  - split; [constructor |]. destruct skip; constructor.
  - destruct skip as [|k]; [| apply IH].
    destruct (match_at (a :: s)) as [[ds c]|] eqn:Hm.
    + apply match_at_inv in Hm as [Hwf [rest Heq]].
      destruct (IH (length ds)) as [Hall Hsub].
      split; [constructor; assumption |].
      destruct ds as [|d ds]; [destruct Hwf as [? _]; simpl in *; congruence |].
      simpl in Heq. injection Heq as -> ->.
      assert (Hdrop : drop (length (d :: ds)) (ds ++ c :: rest) = rest).
      { replace (ds ++ c :: rest) with ((ds ++ [c]) ++ rest)
          by (rewrite <- app_assoc; reflexivity).
        apply drop_app_length'. rewrite length_app. simpl. lia. }
      rewrite Hdrop in Hsub. simpl.
      constructor. rewrite <- app_assoc. apply sublist_app; [reflexivity |].
      simpl. constructor. exact Hsub.
    + destruct (IH 0%nat) as [Hall Hsub]. split; [assumption |].
      rewrite drop_0 in Hsub. apply sublist_cons. assumption.
Qed.

(** ** ReadClassifier: the runs *)

(** Closes a goal whose hypotheses are contradictory in linear arithmetic. *)
Ltac absurd_lia := exfalso; lia.

Lemma iter_mark_spec (n : nat) (b : ascii) (st : walk) :
  i_ref (Nat.iter n (mark b) st) = i_ref st + Z.of_nat n
  ∧ j_read (Nat.iter n (mark b) st) = j_read st
  ∧ ∀ p, bitvector (Nat.iter n (mark b) st) !! p
         = if decide (i_ref st ≤ p < i_ref st + Z.of_nat n) then Some b
           else bitvector st !! p.
Proof.
  induction n as [|n (Hi & Hj & Hbv)].
  - simpl. split; [lia |]. split; [reflexivity |].
    intros p. case_decide; [absurd_lia | reflexivity].
  - rewrite Nat.iter_succ. set (st1 := Nat.iter n (mark b) st) in *.
    unfold mark. simpl.
    split; [lia |]. split; [assumption |].
    intros p. rewrite Hi. destruct (decide (p = i_ref st + Z.of_nat n)) as [->|Hne].
    + rewrite lookup_insert_eq. case_decide; [reflexivity | absurd_lia].
    + rewrite lookup_insert_ne by congruence. rewrite Hbv.
      repeat case_decide; try reflexivity; absurd_lia.
Qed.

Lemma match_base_inv self read_seq q_scores ref_seq st st' :
  match_base self read_seq q_scores ref_seq st = inr st' →
  ∃ bit, match_bit self read_seq q_scores ref_seq (i_ref st) (j_read st) = inr bit
         ∧ st' = advance_read 1 (mark bit st).
Proof.
  unfold match_base. intros H. apply bind_inr in H as (bit & Hbit & [= <-]). eauto.
Qed.

Lemma match_run_spec self read_seq q_scores ref_seq (n : nat) :
  ∀ st st',
    repeat_m n (match_base self read_seq q_scores ref_seq) st = inr st' →
    i_ref st' = i_ref st + Z.of_nat n
    ∧ j_read st' = j_read st + Z.of_nat n
    ∧ (∀ p, ¬ (i_ref st ≤ p < i_ref st + Z.of_nat n) →
            bitvector st' !! p = bitvector st !! p)
    ∧ (∀ k : nat, (k < n)%nat →
         ∃ bit, match_bit self read_seq q_scores ref_seq
                  (i_ref st + Z.of_nat k) (j_read st + Z.of_nat k) = inr bit
                ∧ bitvector st' !! (i_ref st + Z.of_nat k) = Some bit).
Proof.
  induction n as [|n IH]; intros st st'; simpl.
  - intros [= <-]. split; [lia |]. split; [lia |]. split; [reflexivity |].
    intros k Hk. lia.
  - intros H. apply bind_inr in H as (st1 & H1 & Hrest).
    apply match_base_inv in H1 as (bit & Hbit & ->).
    apply IH in Hrest as (Hi & Hj & Hout & Hin). simpl in Hi, Hj, Hout, Hin.
    split; [lia |]. split; [lia |]. split.
    + intros p Hp. rewrite Hout by lia. apply lookup_insert_ne. lia.
    + intros [|k] Hk.
      * exists bit. rewrite !Z.add_0_r. split; [assumption |].
        rewrite Hout by lia. apply lookup_insert_eq.
      * destruct (Hin k) as (bit' & Hbit' & Hlook); [lia |].
        exists bit'.
        replace (i_ref st + Z.of_nat (S k)) with (i_ref st + 1 + Z.of_nat k) by lia.
        replace (j_read st + Z.of_nat (S k)) with (j_read st + 1 + Z.of_nat k) by lia.
        auto.
Qed.

Lemma match_base_eq self read_seq q_scores ref_seq st bit :
  match_bit self read_seq q_scores ref_seq (i_ref st) (j_read st) = inr bit →
  match_base self read_seq q_scores ref_seq st = inr (advance_read 1 (mark bit st)).
Proof. unfold match_base. intros ->. reflexivity. Qed.

Lemma match_run_returns self read_seq q_scores ref_seq (n : nat) :
  ∀ st,
    (∀ k : nat, (k < n)%nat →
       is_ok (match_bit self read_seq q_scores ref_seq
                (i_ref st + Z.of_nat k) (j_read st + Z.of_nat k)) = true) →
    ∃ st', repeat_m n (match_base self read_seq q_scores ref_seq) st = inr st'.
Proof.
  induction n as [|n IH]; intros st Hok; simpl; [eauto |].
  pose proof (Hok 0%nat ltac:(lia)) as H0. rewrite !Z.add_0_r in H0.
  destruct (match_bit _ _ _ _ _ _) as [e|bit] eqn:Hbit; [discriminate |].
  rewrite (match_base_eq _ _ _ _ _ _ Hbit). simpl.
  apply IH. intros k Hk. simpl.
  specialize (Hok (S k) ltac:(lia)).
  replace (i_ref st + 1 + Z.of_nat k) with (i_ref st + Z.of_nat (S k)) by lia.
  replace (j_read st + 1 + Z.of_nat k) with (j_read st + Z.of_nat (S k)) by lia.
  assumption.
Qed.

(** One base of a match run, when the three lookups are in range. *)
Lemma match_bit_expected self read_seq q_scores ref_seq i j q r f score :
  0 ≤ j → 1 ≤ i →
  q_scores !! Z.to_nat j = Some q →
  read_seq !! Z.to_nat j = Some r →
  ref_seq !! Z.to_nat (i - 1) = Some f →
  phred_qscores self !! q = Some score →
  match_bit self read_seq q_scores ref_seq i j
  = inr (expected_bit (qscore_cutoff self) score r f).
Proof.
  intros Hj Hi Hq Hr Hf Hs. unfold match_bit, expected_bit.
  rewrite (py_index_nonneg _ _ _ Hj Hq). simpl.
  unfold dict_get. rewrite Hs. simpl.
  destruct (score >? qscore_cutoff self) eqn:E.
  - apply Z.gtb_lt in E. rewrite (py_index_nonneg _ _ _ Hj Hr). simpl.
    rewrite (py_index_nonneg ref_seq (i - 1) f) by (lia || assumption). simpl.
    destruct (decide (score ≤ qscore_cutoff self)); [absurd_lia |].
    destruct (decide (r ≠ f)), (decide (r = f)); first [reflexivity | contradiction].
  - rewrite Z.gtb_ltb in E. apply Z.ltb_ge in E.
    destruct (decide (score ≤ qscore_cutoff self)); [reflexivity | absurd_lia].
Qed.

Lemma deletion_run_spec self ref_seq (length : Z) (st : walk) :
  1 ≤ length →
  let last := i_ref st + length - 1 in
  i_ref (deletion_run self ref_seq length st) = i_ref st + length
  ∧ j_read (deletion_run self ref_seq length st) = j_read st
  ∧ ∀ p, bitvector (deletion_run self ref_seq length st) !! p
         = if decide (i_ref st ≤ p < last) then Some ambig_info
           else if decide (p = last)
                then Some (if __calc_ambig_reads self ref_seq last length
                           then ambig_info else del_bit)
                else bitvector st !! p.
Proof.
  intros Hlen last. unfold deletion_run.
  destruct (iter_mark_spec (Z.to_nat (length - 1)) ambig_info st) as (Hi & Hj & Hbv).
  rewrite Z2Nat.id in Hi, Hbv by lia.
  set (st1 := Nat.iter _ _ st) in *.
  replace (i_ref st1) with last by (unfold last; lia).
  assert (Hmark : ∀ b, i_ref (mark b st1) = i_ref st + length
                       ∧ j_read (mark b st1) = j_read st
                       ∧ ∀ p, bitvector (mark b st1) !! p
                              = if decide (i_ref st ≤ p < last) then Some ambig_info
                                else if decide (p = last) then Some b
                                     else bitvector st !! p).
  { intros b. unfold mark. simpl. split; [lia |]. split; [assumption |].
    intros p. rewrite Hi. destruct (decide (p = last)) as [->|Hne].
    - replace (i_ref st + (length - 1)) with last by (unfold last; lia).
      rewrite lookup_insert_eq. case_decide; [absurd_lia | reflexivity].
    - rewrite lookup_insert_ne by (unfold last in Hne; lia). rewrite Hbv.
      unfold last. repeat case_decide; try reflexivity; absurd_lia. }
  destruct (__calc_ambig_reads self ref_seq last length); apply Hmark.
Qed.

Lemma digits_fold_nonneg ds :
  Forall (λ c, is_digit c = true) ds →
  ∀ acc, 0 ≤ acc →
    0 ≤ fold_left (λ acc c, 10 * acc + (Z.of_nat (nat_of_ascii c) - 48)) ds acc.
Proof.
  induction 1 as [|d ds Hd _ IH]; intros acc Hacc; simpl; [exact Hacc |].
  apply IH. unfold is_digit in Hd. simpl in Hd. lia.
Qed.

Lemma int_of_digits_nonneg ds :
  Forall (λ c, is_digit c = true) ds → 0 ≤ int_of_digits ds.
Proof. intros Hds. apply digits_fold_nonneg; [exact Hds | lia]. Qed.

(** ** AmbiguityResolver: the loop as a search *)

Lemma ambig_with_iff {A} `{EqDecision A} (slice : list A → Z → Z → list A)
    (surbases : Z) (ref_seq : list A) (i length : Z) :
  ambig_with slice surbases ref_seq i length = true
  ↔ ∃ new_del_end,
      i - length ≤ new_del_end ≤ i + length ∧ new_del_end ≠ i
      ∧ sur_seq_at slice ref_seq (i - length + 1 - surbases) (i + surbases) length new_del_end
        = sur_seq_at slice ref_seq (i - length + 1 - surbases) (i + surbases) length i.
Proof.
  unfold ambig_with, py_range. rewrite existsb_exists. split.
  - intros (e & Hin & He). apply list_elem_of_In, elem_of_seqZ in Hin.
    destruct (e =? i) eqn:E; [discriminate |]. apply Z.eqb_neq in E.
    apply bool_decide_eq_true in He. exists e. split; [lia |]. split; [assumption |].
    exact He.
  - intros (e & Hrange & Hne & Heq). exists e. split.
    + apply list_elem_of_In, elem_of_seqZ. lia.
    + apply Z.eqb_neq in Hne. rewrite Hne. apply bool_decide_eq_true. exact Heq.
Qed.

(** The scenario of the specification: in the reference [AAAAAAAA] the
    deletion of positions 4 and 5 is ambiguous at both positions. *)
Lemma homopolymer_deletion_ambiguous :
  ∃ bv log,
    __convert_read_to_bit_vector (default_iterator ∅ false)
      (example_read "ref" 1 "3M2D3M" "AAAAAA" "IIIIII") (str "AAAAAAAA") = inr (bv, log)
    ∧ bv !! 4 = Some ambig_info ∧ bv !! 5 = Some ambig_info.
Proof. eexists _, _. split; [vm_compute; reflexivity |]. split; vm_compute; reflexivity. Qed.

(** ** ReadClassifier: the positions of the bit vector *)

(** A soft clip that ends the CIGAR marks the [length] positions after the
    aligned part as Missing, wherever the reference ends. *)
Lemma softclip_last_spec (length : Z) (st : walk) :
  0 ≤ length →
  ∀ p, bitvector (softclip_run true length st) !! p
       = if decide (i_ref st ≤ p < i_ref st + length) then Some miss_info
         else bitvector st !! p.
Proof.
  intros Hlen p. unfold softclip_run.
  destruct (iter_mark_spec (Z.to_nat length) miss_info (advance_read length st))
    as (_ & _ & Hbv).
  rewrite Hbv, Z2Nat.id by lia. reflexivity.
Qed.

Lemma mark_covered lo b st : covered lo st → covered lo (mark b st).
Proof.
  intros [Hlo Hbv]. unfold covered, mark. simpl. split; [lia |].
  intros p c. destruct (decide (p = i_ref st)) as [->|Hne].
  - intros _. lia.
  - rewrite lookup_insert_ne by congruence. intros Hp. apply Hbv in Hp. lia.
Qed.

Lemma iter_mark_covered lo b (n : nat) st :
  covered lo st → covered lo (Nat.iter n (mark b) st).
Proof.
  intros Hst. induction n as [|n IH]; [exact Hst |].
  rewrite Nat.iter_succ. apply mark_covered, IH.
Qed.

Lemma advance_read_covered lo n st : covered lo st → covered lo (advance_read n st).
Proof. intros H. exact H. Qed.

Lemma match_run_covered self read_seq q_scores ref_seq lo length st st' :
  covered lo st →
  match_run self read_seq q_scores ref_seq length st = inr st' →
  covered lo st' ∧ i_ref st' = i_ref st + Z.of_nat (Z.to_nat length).
Proof.
  intros [Hlo Hbv] Hrun. unfold match_run in Hrun.
  apply match_run_spec in Hrun as (Hi & _ & Hout & _).
  split; [| exact Hi]. split; [lia |].
  intros p b Hp.
  destruct (decide (i_ref st ≤ p < i_ref st + Z.of_nat (Z.to_nat length))) as [Hin|Hnin].
  - lia.
  - rewrite Hout in Hp by exact Hnin. apply Hbv in Hp. lia.
Qed.

Lemma deletion_run_covered self ref_seq lo length st :
  0 ≤ length → covered lo st →
  covered lo (deletion_run self ref_seq length st)
  ∧ i_ref (deletion_run self ref_seq length st) = i_ref st + Z.max length 1.
Proof.
  intros Hlen Hst. unfold deletion_run.
  pose proof (iter_mark_covered lo ambig_info (Z.to_nat (length - 1)) st Hst) as Hcov.
  destruct (iter_mark_spec (Z.to_nat (length - 1)) ambig_info st) as (Hi & _ & _).
  set (st1 := Nat.iter _ _ st) in *.
  destruct (__calc_ambig_reads self ref_seq (i_ref st1) length);
    (split; [apply mark_covered; exact Hcov | unfold mark; simpl; lia]).
Qed.

Lemma softclip_run_covered lo is_last length st :
  0 ≤ length → covered lo st →
  covered lo (softclip_run is_last length st)
  ∧ i_ref (softclip_run is_last length st)
    = i_ref st + (if is_last then length else 0).
Proof.
  intros Hlen Hst. unfold softclip_run. destruct is_last.
  - split; [apply iter_mark_covered, advance_read_covered, Hst |].
    destruct (iter_mark_spec (Z.to_nat length) miss_info (advance_read length st))
      as (Hi & _ & _).
    rewrite Hi. simpl. lia.
  - split; [exact Hst | simpl; lia].
Qed.

Lemma run_ops_covered self read_seq q_scores ref_seq lo cigar_ops :
  Forall wf_token cigar_ops →
  ∀ st bv log,
    covered lo st →
    run_ops self read_seq q_scores ref_seq cigar_ops st = inr (bv, log) →
    ∀ p b, bv !! p = Some b → lo ≤ p < i_ref st + ref_span cigar_ops.
Proof.
  induction 1 as [|[ds desc] rest Hwf _ IH]; intros st bv log Hst; simpl.
  - intros [= <- <-] p b Hp. destruct Hst as [_ Hbv]. apply Hbv in Hp. lia.
  - destruct Hwf as (_ & Hds & _). simpl in Hds.
    pose proof (int_of_digits_nonneg ds Hds) as Hlen.
    destruct (decide (desc = "M"%char)) as [_|_].
    { intros Hrun. apply bind_inr in Hrun as (st1 & Hm & Hrest).
      destruct (match_run_covered _ _ _ _ lo _ _ _ Hst Hm) as [Hcov Hi].
      intros p b Hp. pose proof (IH _ _ _ Hcov Hrest p b Hp). lia. }
    destruct (decide (desc = "D"%char)) as [_|_].
    { intros Hrest.
      destruct (deletion_run_covered self ref_seq lo _ st Hlen Hst) as [Hcov Hi].
      intros p b Hp. pose proof (IH _ _ _ Hcov Hrest p b Hp). lia. }
    destruct (decide (desc = "I"%char)) as [_|_].
    { intros Hrest p b Hp.
      pose proof (IH _ _ _ (advance_read_covered lo _ st Hst) Hrest p b Hp) as Hb.
      simpl in Hb. exact Hb. }
    destruct (decide (desc = "S"%char)) as [_|_].
    { intros Hrest.
      destruct (softclip_run_covered lo (bool_decide (rest = [])) _ st Hlen Hst)
        as [Hcov Hi].
      intros p b Hp. pose proof (IH _ _ _ Hcov Hrest p b Hp). lia. }
    intros [= <- <-] p b Hp. rewrite lookup_empty in Hp. discriminate.
Qed.

(** ** PairMerger *)

(** Proves [valid_symbol] of a given character. *)
Ltac solve_valid_symbol :=
  cbv beta; unfold valid_symbol, bases;
  first [ left; reflexivity
        | right; left; reflexivity
        | do 2 right; left; reflexivity
        | do 3 right; left; reflexivity
        | do 4 right; repeat first [apply list_elem_of_here | apply list_elem_of_further] ].

Lemma valid_symbol_cases b :
  valid_symbol b →
  b ∈ [nomut_bit; del_bit; ambig_info; miss_info; "A"; "C"; "G"; "T"]%char.
Proof.
  unfold valid_symbol, bases. rewrite !elem_of_cons, elem_of_nil. tauto.
Qed.

(** Two distinct valid symbols always fall under one of the first five
    branches, and that branch stores a symbol. *)
Lemma valid_pair_resolved b1 bit :
  valid_symbol b1 → valid_symbol bit → bit ≠ b1 →
  select_rule b1 bit ≠ unhandled
  ∧ ∃ v, merged_bit (select_rule b1 bit) b1 bit = inr (Some v).
Proof.
  intros H1%valid_symbol_cases H2%valid_symbol_cases Hne.
  rewrite !elem_of_cons, elem_of_nil in H1, H2.
  destruct H1 as [->|[->|[->|[->|[->|[->|[->|[->|[]]]]]]]]];
  destruct H2 as [->|[->|[->|[->|[->|[->|[->|[->|[]]]]]]]]];
    first [ congruence
          | split; [vm_compute; discriminate | eexists; vm_compute; reflexivity] ].
Qed.

Lemma merge_position_spec bit_vector_1 acc p bit :
  (∀ q b, bit_vector_1 !! q = Some b → valid_symbol b) →
  valid_symbol bit →
  acc !! p = bit_vector_1 !! p →
  ∃ acc' v,
    merge_position bit_vector_1 (acc, []) (p, bit) = inr (acc', [])
    ∧ merge_value (bit_vector_1 !! p) bit v
    ∧ acc' !! p = Some v
    ∧ ∀ q, q ≠ p → acc' !! q = acc !! q.
Proof.
  intros Hv1 Hbit Hacc. unfold merge_position, merge_value. rewrite Hacc.
  destruct (bit_vector_1 !! p) as [b1|] eqn:H1.
  - destruct (decide (bit = b1)) as [->|Hne].
    + destruct (decide (b1 ≠ b1)) as [Hc|_]; [congruence |].
      exists acc, b1. split; [reflexivity |]. split; [reflexivity |]. split; auto.
    + destruct (decide (bit ≠ b1)) as [_|Hc]; [| contradiction].
      unfold dict_get. rewrite H1. simpl.
      destruct (valid_pair_resolved b1 bit (Hv1 _ _ H1) Hbit Hne) as (Hrule & v & Hm).
      rewrite Hm. simpl.
      exists (<[p := v]> acc), v. split; [reflexivity |]. split; [auto |].
      split; [apply lookup_insert_eq |].
      intros q Hq. apply lookup_insert_ne. congruence.
  - exists (<[p := bit]> acc), bit. split; [reflexivity |]. split; [reflexivity |].
    split; [apply lookup_insert_eq |].
    intros q Hq. apply lookup_insert_ne. congruence.
Qed.

Lemma fold_m_cons {S X} (body : S → X → result S) (s : S) (x : X) (xs : list X) :
  fold_m body s (x :: xs) = body s x ≫= λ s', fold_m body s' xs.
Proof. reflexivity. Qed.

Lemma merge_fold_spec bit_vector_1 (items : list (Z * ascii)) :
  (∀ q b, bit_vector_1 !! q = Some b → valid_symbol b) →
  NoDup items.*1 →
  Forall (λ item, valid_symbol item.2) items →
  ∀ acc,
    (∀ p, p ∈ items.*1 → acc !! p = bit_vector_1 !! p) →
    ∃ bv,
      fold_m (merge_position bit_vector_1) (acc, []) items = inr (bv, [])
      ∧ (∀ p, p ∉ items.*1 → bv !! p = acc !! p)
      ∧ ∀ p bit, (p, bit) ∈ items →
          ∃ v, merge_value (bit_vector_1 !! p) bit v ∧ bv !! p = Some v.
Proof.
  intros Hv1. induction items as [|[p bit] items IH]; intros Hnd Hv2 acc Hacc.
  - exists acc. split; [reflexivity |]. split; [auto |].
    intros p bit Hin. apply elem_of_nil in Hin. contradiction.
  - simpl in Hnd. apply NoDup_cons in Hnd as [Hp Hnd].
    apply Forall_cons in Hv2 as [Hbit Hv2]. simpl in Hbit.
    destruct (merge_position_spec bit_vector_1 acc p bit Hv1 Hbit)
      as (acc' & v & Hstep & Hval & Hlook & Hother).
    { apply Hacc. simpl. left. }
    destruct (IH Hnd Hv2 acc') as (bv & Hfold & Hout & Hin).
    { intros q Hq. rewrite Hother by (intros ->; contradiction).
      apply Hacc. simpl. right. exact Hq. }
    exists bv. split; [rewrite fold_m_cons, Hstep; exact Hfold |]. split.
    + intros q Hq. simpl in Hq. apply not_elem_of_cons in Hq as [Hne Hq].
      rewrite Hout by exact Hq. apply Hother. exact Hne.
    + intros q b Hqb. apply elem_of_cons in Hqb as [[= -> ->]|Hqb].
      * exists v. split; [exact Hval |]. rewrite Hout by exact Hp. exact Hlook.
      * apply Hin. exact Hqb.
Qed.

(** ** The check of the reference name *)

Lemma check_reads_first self first rest :
  check_reads self (first :: rest)
  = inl (ValueError (unknown_reference_message first)).
Proof. reflexivity. Qed.

Lemma next_raises self count first rest :
  __next__ self count (first :: rest)
  = (count + 1, inl (ValueError (unknown_reference_message first))).
Proof. reflexivity. Qed.

(** ** MutationHistogram: merge *)

Lemma np_iadd_same_length a b :
  length b = length a → np_iadd a b = inr (zip_with Z.add a b).
Proof. intros H. unfold np_iadd. rewrite decide_True by exact H. reflexivity. Qed.

Lemma merge_inv self other h :
  merge self other = inr h →
  name self = name other ∧ sequence self = sequence other
  ∧ data_type self = data_type other ∧ start self = start other
  ∧ end_ self = end_ other ∧ structure self = structure other
  ∧ num_reads h = num_reads self + num_reads other
  ∧ num_aligned h = num_aligned self + num_aligned other
  ∧ np_iadd (mut_bases self) (mut_bases other) = inr (mut_bases h)
  ∧ np_iadd (ins_bases self) (ins_bases other) = inr (ins_bases h)
  ∧ np_iadd (cov_bases self) (cov_bases other) = inr (cov_bases h)
  ∧ np_iadd (info_bases self) (info_bases other) = inr (info_bases h)
  ∧ list_iadd (num_of_mutations self) (num_of_mutations other)
    = inr (num_of_mutations h)
  ∧ del_bases h = del_bases self.
Proof.
  unfold merge.
  repeat (match goal with
          | |- context [decide (?x ≠ ?y)] => destruct (decide (x ≠ y)); [discriminate |]
          end).
  intros H.
  apply bind_inr in H as (sk & _ & H).
  apply bind_inr in H as (nom & Hnom & H).
  apply bind_inr in H as (mut & Hmut & H).
  apply bind_inr in H as (ins & Hins & H).
  apply bind_inr in H as (cov & Hcov & H).
  apply bind_inr in H as (info & Hinfo & H).
  apply bind_inr in H as (mods & _ & H).
  injection H as <-. simpl.
  repeat (split; [first [assumption | reflexivity | (apply dec_stable; assumption)] |]).
  reflexivity.
Qed.

(** Whatever the two histograms hold, the merged deletion counts are those of
    the receiver: [merge] has no line for [del_bases]. *)
Lemma merge_keeps_del_bases self other h :
  merge self other = inr h → del_bases h = del_bases self.
Proof. intros H. apply merge_inv in H. tauto. Qed.

(** The counters that [merge] does add, position by position. *)
Lemma merge_sums_position self other h (k : nat) :
  merge self other = inr h →
  length (mut_bases other) = length (mut_bases self) →
  length (ins_bases other) = length (ins_bases self) →
  length (cov_bases other) = length (cov_bases self) →
  length (info_bases other) = length (info_bases self) →
  mut_bases h !! k
  = (x ← mut_bases self !! k; y ← mut_bases other !! k; Some (x + y))
  ∧ ins_bases h !! k
    = (x ← ins_bases self !! k; y ← ins_bases other !! k; Some (x + y))
  ∧ cov_bases h !! k
    = (x ← cov_bases self !! k; y ← cov_bases other !! k; Some (x + y))
  ∧ info_bases h !! k
    = (x ← info_bases self !! k; y ← info_bases other !! k; Some (x + y)).
Proof.
  intros H Lm Li Lc Ln. apply merge_inv in H.
  destruct H as (_ & _ & _ & _ & _ & _ & _ & _ & Hm & Hi & Hc & Hn & _).
  rewrite np_iadd_same_length in Hm, Hi, Hc, Hn by assumption.
  injection Hm as <-. injection Hi as <-. injection Hc as <-. injection Hn as <-.
  rewrite !lookup_zip_with.
  repeat split;
    match goal with
    | |- _ = ?a !! _ ≫= _ => destruct (a !! k); simpl; try reflexivity
    end;
    match goal with
    | |- _ = ?b !! _ ≫= _ => destruct (b !! k); reflexivity
    end.
Qed.

(** ** MutationHistogram: derived statistics *)

(** The count of the reads with exactly four mutations does not enter
    [get_percent_mutations]: the fifth bucket starts at index 5. *)
Lemma percent_mutation_counts_ignores_four self (x : Z) :
  percent_mutation_counts
    (set_counts self (num_reads self) (num_aligned self)
       (<[4%nat := x]> (num_of_mutations self)))
  = percent_mutation_counts self.
Proof.
  unfold percent_mutation_counts. simpl.
  rewrite py_slice_insert_after by lia.
  unfold len. rewrite length_insert.
  rewrite py_slice_insert_before by lia. reflexivity.
Qed.

(** Where no read is informative the quotient is [nan], with or without the
    deletions, and so is its rounding. *)
Lemma mut_frac_of_uncovered_position self (inc_del : bool) (pos : Z) :
  py_index (del_bases self) pos = inr 0 →
  py_index (mut_bases self) pos = inr 0 →
  py_index (info_bases self) pos = inr 0 →
  mut_frac self inc_del pos = inr nan ∧ np_round nan 5 = nan.
Proof.
  intros Hd Hm Hn. split; [| vm_compute; reflexivity].
  unfold mut_frac. rewrite Hd, Hm, Hn. destruct inc_del; vm_compute; reflexivity.
Qed.

(** * The claims *)

(** ** C1: merge and the deletion counts *)

(** C1. Two shards of the reference [ACGTA] each record one read with a
    deletion at position 2. After [merge] the coverage at position 2 is the
    sum 2 of the two inputs, but the deletion count at position 2 is still
    the receiver's 1 and not the sum 2: [merge] adds every counter array
    except [del_bases]. *)
Theorem merge_loses_deletion_counts :
  ∃ a b m,
    record_bit_vector fresh_histogram deletion_bv default_params = inr a
    ∧ record_bit_vector fresh_histogram second_deletion_bv default_params = inr b
    ∧ merge a b = inr m
    ∧ del_bases a !! 2%nat = Some 1
    ∧ del_bases b !! 2%nat = Some 1
    ∧ del_bases m !! 2%nat = Some 1
    ∧ cov_bases m !! 2%nat = Some 2.
Proof.
  eexists _, _, _.
  split; [vm_compute; reflexivity |].
  split; [vm_compute; reflexivity |].
  split; [vm_compute; reflexivity |].
  repeat split; vm_compute; reflexivity.
Qed.

(** ** C2: merge is not commutative *)

(** C2. One shard records a read with a deletion at position 2, the other a
    read without deletion. Merging them in the two orders gives different
    deletion counts, and the order that receives into the second shard also
    differs from the histogram that records both reads: the deletion of the
    first read is lost. *)
Theorem merge_order_changes_deletion_counts :
  ∃ a b ab ba full,
    record_bit_vector fresh_histogram deletion_bv default_params = inr a
    ∧ record_bit_vector fresh_histogram four_mutations_bv default_params = inr b
    ∧ merge a b = inr ab
    ∧ merge b a = inr ba
    ∧ record_bit_vector a four_mutations_bv default_params = inr full
    ∧ del_bases ab !! 2%nat = Some 1
    ∧ del_bases ba !! 2%nat = Some 0
    ∧ del_bases full !! 2%nat = Some 1.
Proof.
  eexists _, _, _, _, _.
  split; [vm_compute; reflexivity |].
  split; [vm_compute; reflexivity |].
  split; [vm_compute; reflexivity |].
  split; [vm_compute; reflexivity |].
  split; [vm_compute; reflexivity |].
  repeat split; vm_compute; reflexivity.
Qed.

(** ** C3: the deletion run and its ambiguity test *)

(** The repeat need not be short: in a reference of thirty [A] the deletion
    of positions 4 and 5 is called a confident deletion, where the test over
    clipped windows answers ambiguous. *)
Lemma long_homopolymer_deletion_called_confident :
  ∃ bv log,
    __convert_read_to_bit_vector (default_iterator ∅ false)
      (example_read "ref" 1 "3M2D3M" "AAAAAA" "IIIIII")
      (str "AAAAAAAAAAAAAAAAAAAAAAAAAAAAAA")
    = inr (bv, log)
    ∧ bv !! 5 = Some del_bit
    ∧ spec_is_ambiguous (str "AAAAAAAAAAAAAAAAAAAAAAAAAAAAAA") 5 2 10 = true.
Proof.
  eexists _, _. split; [vm_compute; reflexivity |].
  split; vm_compute; reflexivity.
Qed.

(** C3. In the reference [AAGCGTTTTT] the deletion of positions 4 and 5
    ([CG]) leaves the same sequence as the deletion of positions 3 and 4
    ([GC]), so the test answers ambiguous when its windows are clipped to
    the reference, and also when a window that reaches outside the reference
    is empty. The source marks position 4 ambiguous and position 5 as a
    confident deletion: the start of its window, [orig_sur_start - 1 = -7],
    is a negative slice bound, which Python counts from the end of the
    reference. *)
Theorem repeat_near_reference_start_called_deletion :
  ∃ bv log,
    __convert_read_to_bit_vector (default_iterator ∅ false)
      (example_read "ref" 1 "3M2D5M" "AAGTTTTT" "IIIIIIII") (str "AAGCGTTTTT")
    = inr (bv, log)
    ∧ bv !! 4 = Some ambig_info
    ∧ bv !! 5 = Some del_bit
    ∧ __calc_ambig_reads (default_iterator ∅ false) (str "AAGCGTTTTT") 5 2 = false
    ∧ spec_is_ambiguous (str "AAGCGTTTTT") 5 2 10 = true
    ∧ ambig_with strict_window_slice 10 (str "AAGCGTTTTT") 5 2 = true
    ∧ py_slice (str "AAGCGTTTTT") (-7) 3 = []
    ∧ window_slice (str "AAGCGTTTTT") (-7) 3 = str "AAG".
Proof.
  eexists _, _. split; [vm_compute; reflexivity |].
  repeat split; vm_compute; reflexivity.
Qed.

(** ** C4: a read of an unknown reference *)



(** ** C5: the last bucket of the percent-mutation distribution *)

(** C5. After one read with exactly four mutated bases is recorded, the
    histogram has [num_of_mutations[4] = 1] and [num_aligned = 1], and
    [get_percent_mutations] returns 0 in all five buckets: the last bucket
    sums [num_of_mutations[5:]] and leaves the reads with exactly four
    mutations out. *)
Theorem four_mutations_missing_from_last_bucket :
  ∃ h,
    record_bit_vector fresh_histogram four_mutations_bv default_params = inr h
    ∧ num_of_mutations h !! 4%nat = Some 1
    ∧ num_aligned h = 1
    ∧ percent_mutation_counts h = [0; 0; 0; 0; 0]
    ∧ get_percent_mutations h = [0; 0; 0; 0; 0]%float.
Proof.
  eexists. split; [vm_compute; reflexivity |].
  repeat split; vm_compute; reflexivity.
Qed.

(** ** C6: the population average where nothing is informative *)

(** C6. In a histogram that has recorded no read every [info_bases[pos]] is
    0, and [get_pop_avg] returns [nan] at every position, with and without
    deletions, not 0: the division of two numpy scalars raises nothing, so
    the [except] branch that sets 0.0 is not taken. *)
Theorem pop_avg_of_uncovered_position_is_nan :
  info_bases fresh_histogram = [0; 0; 0; 0; 0; 0]
  ∧ get_nuc_coords fresh_histogram = [1; 2; 3; 4; 5]
  ∧ get_pop_avg fresh_histogram false = [nan; nan; nan; nan; nan]
  ∧ get_pop_avg fresh_histogram true = [nan; nan; nan; nan; nan]
  ∧ PrimFloat.eqb nan 0%float = false.
Proof. repeat split; vm_compute; reflexivity. Qed.

(** ** C7: the quality cutoff in a match run *)

(** C7, as stated, fails at a base whose quality equals the cutoff: with the
    default cutoff 25 and the quality character [:] (score 25), a read base
    [A] over the reference base [A] is classified Ambiguous by the source,
    where the claim's rule gives NoMutation. *)
Lemma quality_at_cutoff_is_ambiguous :
  phred_qscores (default_iterator ∅ false) !! ":"%char
  = Some (qscore_cutoff (default_iterator ∅ false))
  ∧ __convert_read_to_bit_vector (default_iterator ∅ false)
      (example_read "ref" 1 "1M" "A" ":") (str "A")
    = inr ({[ 1 := ambig_info ]}, [])
  ∧ claimed_bit (qscore_cutoff (default_iterator ∅ false)) 25 "A" "A" = nomut_bit
  ∧ ambig_info ≠ nomut_bit.
Proof.
  split; [vm_compute; reflexivity |].
  split; [vm_compute; reflexivity |].
  split; [vm_compute; reflexivity | discriminate].
Qed.

(** C7, amended. A match run of length [length] that stays inside the read,
    its quality string and the reference returns, and for every base [k] of
    the run: if the quality score is at or below the cutoff, position
    [i + k] is Ambiguous; otherwise (score strictly above the cutoff) it is
    NoMutation when the read base equals the reference base and the read
    base itself when they differ. *)
Theorem match_run_classifies (self : BitVectorIterator)
    (read_seq q_scores ref_seq : list ascii) (length : Z) (st : walk) :
  0 ≤ j_read st → 1 ≤ i_ref st →
  j_read st + length ≤ len read_seq →
  j_read st + length ≤ len q_scores →
  i_ref st - 1 + length ≤ len ref_seq →
  Forall (λ q, is_Some (phred_qscores self !! q)) q_scores →
  ∃ st',
    match_run self read_seq q_scores ref_seq length st = inr st'
    ∧ ∀ (k : Z) q r f score,
        0 ≤ k < length →
        q_scores !! Z.to_nat (j_read st + k) = Some q →
        read_seq !! Z.to_nat (j_read st + k) = Some r →
        ref_seq !! Z.to_nat (i_ref st + k - 1) = Some f →
        phred_qscores self !! q = Some score →
        bitvector st' !! (i_ref st + k)
        = Some (expected_bit (qscore_cutoff self) score r f).
Proof.
  intros Hj Hi Hread Hqual Href Hphred. unfold len in *.
  assert (Hbit : ∀ k : nat, (k < Z.to_nat length)%nat →
            ∃ q r f score,
              q_scores !! Z.to_nat (j_read st + Z.of_nat k) = Some q
              ∧ read_seq !! Z.to_nat (j_read st + Z.of_nat k) = Some r
              ∧ ref_seq !! Z.to_nat (i_ref st + Z.of_nat k - 1) = Some f
              ∧ phred_qscores self !! q = Some score).
  { intros k Hk.
    destruct (lookup_lt_is_Some_2 q_scores (Z.to_nat (j_read st + Z.of_nat k)))
      as [q Hq]; [lia |].
    destruct (lookup_lt_is_Some_2 read_seq (Z.to_nat (j_read st + Z.of_nat k)))
      as [r Hr]; [lia |].
    destruct (lookup_lt_is_Some_2 ref_seq (Z.to_nat (i_ref st + Z.of_nat k - 1)))
      as [f Hf]; [lia |].
    rewrite Forall_lookup in Hphred. destruct (Hphred _ _ Hq) as [score Hs].
    exists q, r, f, score. auto. }
  destruct (match_run_returns self read_seq q_scores ref_seq (Z.to_nat length) st)
    as [st' Hrun].
  { intros k Hk. destruct (Hbit k Hk) as (q & r & f & score & Hq & Hr & Hf & Hs).
    rewrite (match_bit_expected self read_seq q_scores ref_seq _ _ q r f score)
      by (assumption || lia).
    reflexivity. }
  exists st'. split; [exact Hrun |].
  intros k q r f score Hk Hq Hr Hf Hs.
  apply match_run_spec in Hrun as (_ & _ & _ & Hin).
  destruct (Hin (Z.to_nat k)) as (bit & Hb & Hlook); [lia |].
  rewrite Z2Nat.id in Hb, Hlook by lia.
  rewrite (match_bit_expected self read_seq q_scores ref_seq _ _ q r f score) in Hb
    by (assumption || lia).
  injection Hb as <-. exact Hlook.
Qed.

Lemma match_run_classifies_witness :
  ∃ st',
    match_run (default_iterator ∅ false) (str "AC") (str ":;") (str "ACGT") 2
      {| bitvector := ∅; i_ref := 1; j_read := 0 |} = inr st'
    ∧ ∀ (k : Z) q r f score,
        0 ≤ k < 2 →
        str ":;" !! Z.to_nat (0 + k) = Some q →
        str "AC" !! Z.to_nat (0 + k) = Some r →
        str "ACGT" !! Z.to_nat (1 + k - 1) = Some f →
        phred33 !! q = Some score →
        bitvector st' !! (1 + k) = Some (expected_bit 25 score r f).
Proof.
  apply (match_run_classifies (default_iterator ∅ false) (str "AC") (str ":;")
           (str "ACGT") 2 {| bitvector := ∅; i_ref := 1; j_read := 0 |}).
  - simpl. lia.
  - simpl. lia.
  - unfold len. simpl. lia.
  - unfold len. simpl. lia.
  - unfold len. simpl. lia.
  - repeat constructor; eexists; vm_compute; reflexivity.
Defined.

(** ** C8: the CIGAR decoder never fails *)




(** ** C9: the positions of a bit vector *)

(** C9, as stated, fails on a read that ends in a soft clip at the end of the
    reference: over the reference [ACGTACGT] (positions 1 to 8) the CIGAR
    [8M2S] at position 1 puts Missing at positions 9 and 10. *)
Lemma trailing_soft_clip_passes_reference_end :
  len (str "ACGTACGT") = 8
  ∧ ∃ bv log,
      __convert_read_to_bit_vector (default_iterator ∅ false)
        (example_read "ref" 1 "8M2S" "ACGTACGTAA" "IIIIIIIIII") (str "ACGTACGT")
      = inr (bv, log)
      ∧ bv !! 9 = Some miss_info ∧ bv !! 10 = Some miss_info.
Proof.
  split; [reflexivity |]. eexists _, _. split; [vm_compute; reflexivity |].
  split; vm_compute; reflexivity.
Qed.

(** C9, amended. The bit vector of a read maps each position to at most one
    symbol, and every position in it lies in
    [[read.pos, read.pos + span)], where [span] is the number of reference
    positions that the CIGAR consumes: the lengths of its match and deletion
    runs and of a soft clip that ends it. The range is not cut at the end of
    the reference. *)
Theorem bit_vector_within_read_span (self : BitVectorIterator) (read : AlignedRead)
    (ref_seq : list ascii) (bv : gmap Z ascii) (log : list log_entry) (p : Z) (b : ascii) :
  __convert_read_to_bit_vector self read ref_seq = inr (bv, log) →
  bv !! p = Some b →
  pos read ≤ p < pos read + ref_span (_parse_cigar (cigar read))
  ∧ ∀ b', bv !! p = Some b' → b' = b.
Proof.
  intros Hconv Hp. split; [| intros b' Hb'; congruence].
  unfold __convert_read_to_bit_vector in Hconv.
  destruct (findall_from_sound (cigar read) 0) as [Hwf _].
  refine (run_ops_covered self _ _ _ (pos read) _ Hwf _ bv log _ Hconv p b Hp).
  split; simpl; [lia |]. intros q c Hq. rewrite lookup_empty in Hq. discriminate.
Qed.

Lemma bit_vector_within_read_span_witness :
  (pos (example_read "ref" 1 "8M2S" "ACGTACGTAA" "IIIIIIIIII") ≤ 9
   < pos (example_read "ref" 1 "8M2S" "ACGTACGTAA" "IIIIIIIIII")
     + ref_span (_parse_cigar (cigar (example_read "ref" 1 "8M2S" "ACGTACGTAA" "IIIIIIIIII"))))
  ∧ ∀ b',
      (<[10 := miss_info]> (<[9 := miss_info]>
         (list_to_map ((λ k, (Z.of_nat k, nomut_bit)) <$> List.seq 1 8)))
       : gmap Z ascii) !! 9 = Some b' → b' = miss_info.
Proof.
  apply (bit_vector_within_read_span (default_iterator ∅ false)
           (example_read "ref" 1 "8M2S" "ACGTACGTAA" "IIIIIIIIII") (str "ACGTACGT")
           _ [] 9 miss_info).
  - vm_compute. reflexivity.
  - vm_compute. reflexivity.
Defined.

(** ** C10: the paired merge of valid symbols *)

(** C10. When both bit vectors hold only valid symbols, the merge raises
    nothing and logs no warning, and at every position where the two mates
    hold different symbols the branch taken is one of the first five, never
    the final [else]; the merged bit vector holds the symbol that this
    branch stores. *)
Theorem paired_merge_never_unhandled (bit_vector_1 bit_vector_2 : gmap Z ascii) :
  map_Forall (λ _ b, valid_symbol b) bit_vector_1 →
  map_Forall (λ _ b, valid_symbol b) bit_vector_2 →
  ∃ bv,
    __merge_paired_bit_vectors bit_vector_1 bit_vector_2 = inr (bv, [])
    ∧ ∀ p b1 b2,
        bit_vector_1 !! p = Some b1 → bit_vector_2 !! p = Some b2 → b1 ≠ b2 →
        select_rule b1 b2 ≠ unhandled
        ∧ merged_bit (select_rule b1 b2) b1 b2 = inr (bv !! p).
Proof.
  intros Hv1 Hv2. unfold __merge_paired_bit_vectors.
  destruct (merge_fold_spec bit_vector_1 (map_to_list bit_vector_2) Hv1)
    with (acc := bit_vector_1) as (bv & Hfold & _ & Hin).
  - apply NoDup_fst_map_to_list.
  - apply Forall_forall. intros [p b] Hpb%elem_of_map_to_list.
    exact (Hv2 p b Hpb).
  - reflexivity.
  - exists bv. split; [exact Hfold |].
    intros p b1 b2 H1 H2 Hne.
    destruct (Hin p b2) as (v & Hval & Hlook); [apply elem_of_map_to_list; exact H2 |].
    rewrite H1 in Hval. simpl in Hval.
    destruct (decide (b2 = b1)) as [->|_]; [contradiction |].
    destruct Hval as [Hrule Hm]. rewrite Hlook. auto.
Qed.

Lemma paired_merge_never_unhandled_witness :
  ∃ bv,
    __merge_paired_bit_vectors ({[ 1 := "A"; 2 := "0"; 4 := "1" ]}%char)
      ({[ 1 := "C"; 2 := "?"; 3 := "1"; 4 := "T" ]}%char) = inr (bv, [])
    ∧ ∀ p b1 b2,
        ({[ 1 := "A"; 2 := "0"; 4 := "1" ]}%char : gmap Z ascii) !! p = Some b1 →
        ({[ 1 := "C"; 2 := "?"; 3 := "1"; 4 := "T" ]}%char : gmap Z ascii) !! p = Some b2 →
        b1 ≠ b2 →
        select_rule b1 b2 ≠ unhandled
        ∧ merged_bit (select_rule b1 b2) b1 b2 = inr (bv !! p).
Proof.
  apply (paired_merge_never_unhandled ({[ 1 := "A"; 2 := "0"; 4 := "1" ]}%char)
           ({[ 1 := "C"; 2 := "?"; 3 := "1"; 4 := "T" ]}%char)).
  - repeat apply map_Forall_insert_2;
      first [apply map_Forall_empty | solve_valid_symbol].
  - repeat apply map_Forall_insert_2;
      first [apply map_Forall_empty | solve_valid_symbol].
Defined.

(** * Further properties *)

(** ** Classification: the positions of a bit vector *)

Lemma iter_mark_exact lo b (n : nat) st :
  exactly_covered lo st →
  exactly_covered lo (Nat.iter n (mark b) st).
Proof.
  intros [Hlo Hbv]. destruct (iter_mark_spec n b st) as (Hi & _ & Hl).
  split; [lia |]. intros p. rewrite Hl, Hi.
  destruct (decide (i_ref st ≤ p < i_ref st + Z.of_nat n)) as [Hin|Hout].
  - split; [intros _; lia | intros _; eauto].
  - rewrite Hbv. lia.
Qed.

Lemma mark_exact lo b st : exactly_covered lo st → exactly_covered lo (mark b st).
Proof. apply (iter_mark_exact lo b 1). Qed.

Lemma match_run_exact self read_seq q_scores ref_seq lo length st st' :
  exactly_covered lo st →
  match_run self read_seq q_scores ref_seq length st = inr st' →
  exactly_covered lo st' ∧ i_ref st' = i_ref st + Z.of_nat (Z.to_nat length).
Proof.
  intros [Hlo Hbv] Hrun. unfold match_run in Hrun.
  apply match_run_spec in Hrun as (Hi & _ & Hout & Hin).
  split; [| exact Hi]. split; [lia |].
  intros p.
  destruct (decide (i_ref st ≤ p < i_ref st + Z.of_nat (Z.to_nat length))) as [Hp|Hp].
  - split; [intros _; lia |]. intros _.
    destruct (Hin (Z.to_nat (p - i_ref st))) as (bit & _ & Hl); [lia |].
    rewrite Z2Nat.id in Hl by lia. replace (i_ref st + (p - i_ref st)) with p in Hl by lia.
    eauto.
  - rewrite Hout by exact Hp. rewrite Hbv. lia.
Qed.

Lemma deletion_run_exact self ref_seq lo length st :
  0 ≤ length → exactly_covered lo st →
  exactly_covered lo (deletion_run self ref_seq length st)
  ∧ i_ref (deletion_run self ref_seq length st) = i_ref st + Z.max length 1.
Proof.
  intros Hlen Hst. unfold deletion_run.
  pose proof (iter_mark_exact lo ambig_info (Z.to_nat (length - 1)) st Hst) as Hcov.
  destruct (iter_mark_spec (Z.to_nat (length - 1)) ambig_info st) as (Hi & _ & _).
  set (st1 := Nat.iter _ _ st) in *.
  destruct (__calc_ambig_reads self ref_seq (i_ref st1) length);
    (split; [apply mark_exact; exact Hcov | unfold mark; simpl; lia]).
Qed.

Lemma softclip_run_exact lo is_last length st :
  0 ≤ length → exactly_covered lo st →
  exactly_covered lo (softclip_run is_last length st)
  ∧ i_ref (softclip_run is_last length st)
    = i_ref st + (if is_last then length else 0).
Proof.
  intros Hlen Hst. unfold softclip_run. destruct is_last.
  - split; [apply iter_mark_exact; exact Hst |].
    destruct (iter_mark_spec (Z.to_nat length) miss_info (advance_read length st))
      as (Hi & _ & _).
    rewrite Hi. simpl. lia.
  - split; [exact Hst | simpl; lia].
Qed.

(** When every operation is one of [M], [D], [I], [S], the walk classifies
    every position of the span, logs nothing, and leaves no gap. *)
Lemma run_ops_exact self read_seq q_scores ref_seq lo cigar_ops :
  Forall wf_token cigar_ops → Forall known_op cigar_ops →
  ∀ st bv log,
    exactly_covered lo st →
    run_ops self read_seq q_scores ref_seq cigar_ops st = inr (bv, log) →
    log = [] ∧ ∀ p, is_Some (bv !! p) ↔ lo ≤ p < i_ref st + ref_span cigar_ops.
Proof.
  induction 1 as [|[ds desc] rest Hwf _ IH]; intros Hknown st bv log Hst; simpl.
  - intros [= <- <-]. split; [reflexivity |]. intros p. destruct Hst as [_ Hbv].
    rewrite Hbv. lia.
  - apply Forall_cons in Hknown as [Hop Hknown]. specialize (IH Hknown).
    destruct Hwf as (_ & Hds & _). simpl in Hds.
    pose proof (int_of_digits_nonneg ds Hds) as Hlen.
    destruct (decide (desc = "M"%char)) as [_|HM].
    { intros Hrun. apply bind_inr in Hrun as (st1 & Hm & Hrest).
      destruct (match_run_exact _ _ _ _ lo _ _ _ Hst Hm) as [Hcov Hi].
      destruct (IH _ _ _ Hcov Hrest) as [Hlog Hdom]. split; [exact Hlog |].
      intros p. rewrite Hdom. lia. }
    destruct (decide (desc = "D"%char)) as [_|HD].
    { intros Hrest.
      destruct (deletion_run_exact self ref_seq lo _ st Hlen Hst) as [Hcov Hi].
      destruct (IH _ _ _ Hcov Hrest) as [Hlog Hdom]. split; [exact Hlog |].
      intros p. rewrite Hdom. lia. }
    destruct (decide (desc = "I"%char)) as [_|HI].
    { intros Hrest.
      exact (IH (advance_read (int_of_digits ds) st) _ _ Hst Hrest). }
    destruct (decide (desc = "S"%char)) as [_|HS].
    { intros Hrest.
      destruct (softclip_run_exact lo (bool_decide (rest = [])) _ st Hlen Hst)
        as [Hcov Hi].
      destruct (IH _ _ _ Hcov Hrest) as [Hlog Hdom]. split; [exact Hlog |].
      intros p. rewrite Hdom. lia. }
    exfalso. unfold known_op in Hop. simpl in Hop.
    rewrite !elem_of_cons, elem_of_nil in Hop. tauto.
Qed.

(** The first operation without a branch ends the walk: what was classified
    before it is dropped. *)
Lemma run_ops_unknown self read_seq q_scores ref_seq pre op rest :
  Forall known_op pre → ¬ known_op op →
  ∀ st bv log,
    run_ops self read_seq q_scores ref_seq (pre ++ op :: rest) st = inr (bv, log) →
    bv = ∅ ∧ log = [unknown_op_warning op.2].
Proof.
  intros Hpre Hop. induction Hpre as [|[ds desc] pre Hk _ IH]; intros st bv log; simpl.
  - destruct op as [ds c]. unfold known_op in Hop. simpl in Hop |- *.
    rewrite !elem_of_cons, elem_of_nil in Hop.
    destruct (decide (c = "M"%char)); [exfalso; tauto |].
    destruct (decide (c = "D"%char)); [exfalso; tauto |].
    destruct (decide (c = "I"%char)); [exfalso; tauto |].
    destruct (decide (c = "S"%char)); [exfalso; tauto |].
    intros [= <- <-]. auto.
  - destruct (decide (desc = "M"%char)) as [_|HM].
    { intros Hrun. apply bind_inr in Hrun as (st1 & _ & Hrest). exact (IH _ _ _ Hrest). }
    destruct (decide (desc = "D"%char)) as [_|HD]; [apply IH |].
    destruct (decide (desc = "I"%char)) as [_|HI]; [apply IH |].
    destruct (decide (desc = "S"%char)) as [_|HS].
    { replace (bool_decide (pre ++ op :: rest = [])) with false; [apply IH |].
      symmetry. apply bool_decide_eq_false. destruct pre; discriminate. }
    exfalso. unfold known_op in Hk. simpl in Hk.
    rewrite !elem_of_cons, elem_of_nil in Hk. tauto.
Qed.

Ltac solve_known_ops :=
  let op := fresh "op" in
  let Hop := fresh "Hop" in
  apply Forall_forall; intros op Hop; vm_compute in Hop; unfold known_op;
  repeat (apply elem_of_cons in Hop as [->|Hop]; [set_solver |]);
  apply elem_of_nil in Hop; destruct Hop.

(** X1. When the CIGAR of a read holds only the operations [M], [D], [I] and
    [S] and the conversion returns, it logs nothing and the bit vector has a
    symbol at every reference position from [read.pos] up to the end of the
    span that the CIGAR consumes, and at no other: the classification leaves
    no gap. *)
Theorem bit_vector_covers_read_span (self : BitVectorIterator) (read : AlignedRead)
    (ref_seq : list ascii) (bv : gmap Z ascii) (log : list log_entry) :
  Forall known_op (_parse_cigar (cigar read)) →
  __convert_read_to_bit_vector self read ref_seq = inr (bv, log) →
  log = []
  ∧ ∀ p, is_Some (bv !! p)
         ↔ pos read ≤ p < pos read + ref_span (_parse_cigar (cigar read)).
Proof.
  intros Hknown Hconv. unfold __convert_read_to_bit_vector in Hconv.
  destruct (findall_from_sound (cigar read) 0) as [Hwf _].
  refine (run_ops_exact self _ _ _ (pos read) _ Hwf Hknown _ bv log _ Hconv).
  split; simpl; [lia |]. intros p. rewrite lookup_empty. split.
  - intros []. discriminate.
  - lia.
Qed.

Lemma bit_vector_covers_read_span_witness :
  @nil log_entry = []
  ∧ ∀ p, is_Some (({[ 3 := "0"; 4 := "0"; 5 := "T"; 6 := "0" ]}%char : gmap Z ascii) !! p)
         ↔ pos (example_read "ref" 3 "2M1I2M" "GTATC" "IIIII") ≤ p
           < pos (example_read "ref" 3 "2M1I2M" "GTATC" "IIIII")
             + ref_span (_parse_cigar (cigar (example_read "ref" 3 "2M1I2M" "GTATC" "IIIII"))).
Proof.
  apply (bit_vector_covers_read_span (default_iterator ∅ false)
           (example_read "ref" 3 "2M1I2M" "GTATC" "IIIII") (str "ACGTACGT")).
  - solve_known_ops.
  - vm_compute. reflexivity.
Defined.

(** X2. When the CIGAR holds an operation other than [M], [D], [I] and [S]
    and the conversion returns, the bit vector is empty, whatever was
    classified before that operation, and the log holds the one warning that
    names the operation. *)
Theorem unknown_operation_empties_bit_vector (self : BitVectorIterator)
    (read : AlignedRead) (ref_seq : list ascii) (bv : gmap Z ascii) (log : list log_entry)
    (pre rest : list (list ascii * ascii)) (op : list ascii * ascii) :
  _parse_cigar (cigar read) = pre ++ op :: rest →
  Forall known_op pre → ¬ known_op op →
  __convert_read_to_bit_vector self read ref_seq = inr (bv, log) →
  bv = ∅ ∧ log = [unknown_op_warning op.2].
Proof.
  intros Hcigar Hpre Hop Hconv. unfold __convert_read_to_bit_vector in Hconv.
  rewrite Hcigar in Hconv.
  exact (run_ops_unknown self _ _ _ pre op rest Hpre Hop _ bv log Hconv).
Qed.

Lemma unknown_operation_empties_bit_vector_witness :
  (∅ : gmap Z ascii) = ∅
  ∧ [unknown_op_warning "N"] = [unknown_op_warning (str "3", "N"%char).2].
Proof.
  apply (unknown_operation_empties_bit_vector (default_iterator ∅ false)
           (example_read "ref" 1 "2M3N2M" "ACCG" "IIII") (str "ACGTACCG")
           ∅ [unknown_op_warning "N"] [(str "2", "M"%char)] [(str "2", "M"%char)]
           (str "3", "N"%char)).
  - vm_compute. reflexivity.
  - solve_known_ops.
  - unfold known_op. simpl. rewrite !elem_of_cons, elem_of_nil.
    intros [H|[H|[H|[H|[]]]]]; discriminate.
  - vm_compute. reflexivity.
Defined.

(** ** The ambiguity test away from the reference start *)

Lemma py_slice_in_range {A} (s : list A) (a b : Z) :
  0 ≤ a → 0 ≤ b →
  py_slice s a b = take (Z.to_nat (Z.min b (len s) - a)) (drop (Z.to_nat a) s).
Proof.
  intros Ha Hb. unfold py_slice, slice_bound.
  destruct (a <? 0) eqn:Ea; [apply Z.ltb_lt in Ea; lia |].
  destruct (b <? 0) eqn:Eb; [apply Z.ltb_lt in Eb; lia |].
  destruct (decide (a ≤ len s)) as [Hle|Hgt].
  - rewrite (Z.min_l a) by lia. reflexivity.
  - rewrite (Z.min_r a) by lia. unfold len in *.
    rewrite !drop_ge by lia. rewrite !take_nil. reflexivity.
Qed.


Lemma py_slice_snoc {A} (s : list A) (a b : Z) (x : A) :
  0 ≤ a ≤ b → s !! Z.to_nat b = Some x →
  py_slice s a (b + 1) = py_slice s a b ++ [x].
Proof.
  intros Hab Hx. pose proof (lookup_lt_Some _ _ _ Hx) as Hlt.
  rewrite !py_slice_in_range by lia. unfold len.
  rewrite (Z.min_l (b + 1)), (Z.min_l b) by lia.
  replace (Z.to_nat (b + 1 - a)) with (S (Z.to_nat (b - a))) by lia.
  apply take_S_r. rewrite lookup_drop.
  replace (Z.to_nat a + Z.to_nat (b - a))%nat with (Z.to_nat b) by lia. exact Hx.
Qed.

Lemma py_slice_cons {A} (s : list A) (a b : Z) (x : A) :
  0 ≤ a < b → s !! Z.to_nat a = Some x →
  py_slice s a b = x :: py_slice s (a + 1) b.
Proof.
  intros Hab Hx. pose proof (lookup_lt_Some _ _ _ Hx) as Hlt.
  rewrite !py_slice_in_range by lia. unfold len in *.
  rewrite (drop_S _ _ _ Hx).
  replace (Z.to_nat (Z.min b (Z.of_nat (length s)) - a))
    with (S (Z.to_nat (Z.min b (Z.of_nat (length s)) - (a + 1)))) by lia.
  simpl. replace (Z.to_nat (a + 1)) with (S (Z.to_nat a)) by lia. reflexivity.
Qed.




(** X4. A deletion of [length] bases ending at [i], at least
    [length + num_of_surbases] positions after the reference start, is
    ambiguous whenever the base before the deleted run equals the last
    deleted base: the run can be moved one position to the left. *)
Theorem deletion_shiftable_left_is_ambiguous (self : BitVectorIterator)
    (ref_seq : list ascii) (i length : Z) (x : ascii) :
  1 ≤ length → 1 ≤ num_of_surbases self →
  0 ≤ i - length - num_of_surbases self →
  ref_seq !! Z.to_nat (i - length - 1) = Some x →
  ref_seq !! Z.to_nat (i - 1) = Some x →
  __calc_ambig_reads self ref_seq i length = true.
Proof.
  intros HL HW Hstart Hbefore Hlast. unfold __calc_ambig_reads.
  apply ambig_with_iff. exists (i - 1). split; [lia |]. split; [lia |].
  unfold sur_seq_at. set (W := num_of_surbases self) in *.
  replace (i - length + 1 - W - 1) with (i - length - W) by lia.
  replace (i - 1 - length + 1 - 1) with (i - length - 1) by lia.
  replace (i - length + 1 - 1) with (i - length - 1 + 1) by lia.
  rewrite (py_slice_snoc ref_seq _ (i - length - 1) x) by (lia || assumption).
  rewrite (py_slice_cons ref_seq (i - 1) _ x) by (lia || assumption).
  replace (i - 1 + 1) with i by lia.
  rewrite <- app_assoc. reflexivity.
Qed.

Lemma deletion_shiftable_left_is_ambiguous_witness :
  __calc_ambig_reads (default_iterator ∅ false) repeat_reference 19 1 = true.
Proof.
  apply (deletion_shiftable_left_is_ambiguous (default_iterator ∅ false)
           repeat_reference 19 1 "G"%char).
  - lia.
  - simpl. lia.
  - simpl. lia.
  - vm_compute. reflexivity.
  - vm_compute. reflexivity.
Defined.

(** ** The pair merger on arbitrary symbols *)

Lemma other_bit_spec b1 bit x :
  bit ≠ b1 → x ∈ ({[b1; bit]} : gset ascii) →
  other_bit b1 bit x = inr (if decide (b1 = x) then bit else b1).
Proof.
  intros Hne Hx. unfold other_bit.
  assert (Hset : ({[b1; bit]} : gset ascii) ∖ {[x]}
                 = {[ if decide (b1 = x) then bit else b1 ]}).
  { rewrite elem_of_union, !elem_of_singleton in Hx.
    apply set_eq. intros y.
    rewrite elem_of_difference, elem_of_union, !elem_of_singleton.
    destruct (decide (b1 = x)); intuition congruence. }
  rewrite Hset, elements_singleton. reflexivity.
Qed.

Lemma merged_bit_spec b1 bit :
  bit ≠ b1 →
  merged_bit (select_rule b1 bit) b1 bit
  = inr (if decide (select_rule b1 bit = unhandled) then None
         else Some (merged_symbol b1 bit)).
Proof.
  intros Hne. unfold merged_symbol.
  destruct (decide (bit = b1)) as [Heq|_]; [contradiction |].
  unfold select_rule.
  destruct (decide (nomut_bit ∈ ({[b1; bit]} : gset ascii))); [reflexivity |].
  destruct (decide (ambig_info ∈ ({[b1; bit]} : gset ascii))) as [Ha|_].
  { simpl. rewrite other_bit_spec by assumption. reflexivity. }
  destruct (decide (miss_info ∈ ({[b1; bit]} : gset ascii))) as [Hm|_].
  { simpl. rewrite other_bit_spec by assumption. reflexivity. }
  destruct (decide (b1 ∈ bases ∧ bit ∈ bases)); [reflexivity |].
  destruct (decide ((b1 = del_bit ∧ bit ∈ bases) ∨ (b1 ∈ bases ∧ bit = del_bit)));
    reflexivity.
Qed.

Lemma merge_position_general bit_vector_1 acc log p bit :
  acc !! p = bit_vector_1 !! p →
  ∃ acc' log',
    merge_position bit_vector_1 (acc, log) (p, bit) = inr (acc', log')
    ∧ (∀ q, q ≠ p → acc' !! q = acc !! q)
    ∧ acc' !! p = Some (from_option (λ b1, merged_symbol b1 bit) bit (bit_vector_1 !! p))
    ∧ log' = log ++
        match bit_vector_1 !! p with
        | Some b1 =>
            if decide (bit ≠ b1 ∧ select_rule b1 bit = unhandled)
            then [unable_to_merge_warning b1 bit] else []
        | None => []
        end.
Proof.
  intros Hacc. unfold merge_position. rewrite Hacc.
  destruct (bit_vector_1 !! p) as [b1|] eqn:H1; simpl.
  - destruct (decide (bit ≠ b1)) as [Hne|Heq].
    + unfold dict_get. rewrite H1. simpl. rewrite merged_bit_spec by exact Hne.
      simpl. destruct (decide (select_rule b1 bit = unhandled)) as [Hu|Hu].
      * exists acc, (log ++ [unable_to_merge_warning b1 bit]).
        split; [reflexivity |]. split; [auto |]. split.
        -- rewrite Hacc. unfold merged_symbol.
           destruct (decide (bit = b1)) as [Heq|_]; [contradiction |].
           rewrite Hu. reflexivity.
        -- rewrite decide_True by auto. reflexivity.
      * exists (<[p := merged_symbol b1 bit]> acc), log.
        split; [reflexivity |]. split; [intros q Hq; apply lookup_insert_ne; congruence |].
        split; [apply lookup_insert_eq |].
        rewrite decide_False by tauto. rewrite app_nil_r. reflexivity.
    + apply dec_stable in Heq. subst bit. exists acc, log.
      split; [reflexivity |]. split; [auto |]. split.
      * rewrite Hacc. unfold merged_symbol. rewrite decide_True by reflexivity. reflexivity.
      * rewrite decide_False by tauto. rewrite app_nil_r. reflexivity.
  - exists (<[p := bit]> acc), log.
    split; [reflexivity |]. split; [intros q Hq; apply lookup_insert_ne; congruence |].
    split; [apply lookup_insert_eq |]. rewrite app_nil_r. reflexivity.
Qed.

Lemma merge_fold_general bit_vector_1 (items : list (Z * ascii)) :
  NoDup items.*1 →
  ∀ acc log,
    (∀ p, p ∈ items.*1 → acc !! p = bit_vector_1 !! p) →
    ∃ bv log',
      fold_m (merge_position bit_vector_1) (acc, log) items = inr (bv, log')
      ∧ (∀ p, p ∉ items.*1 → bv !! p = acc !! p)
      ∧ (∀ p bit, (p, bit) ∈ items →
           bv !! p = Some (from_option (λ b1, merged_symbol b1 bit) bit
                             (bit_vector_1 !! p)))
      ∧ (∀ w, w ∈ log' ↔
           w ∈ log ∨ ∃ p b1 bit, (p, bit) ∈ items ∧ bit_vector_1 !! p = Some b1
                                 ∧ bit ≠ b1 ∧ select_rule b1 bit = unhandled
                                 ∧ w = unable_to_merge_warning b1 bit).
Proof.
  induction items as [|[p bit] items IH]; intros Hnd acc log Hacc.
  - exists acc, log. split; [reflexivity |]. split; [auto |]. split.
    + intros p bit Hin. apply elem_of_nil in Hin. contradiction.
    + intros w. split; [auto |]. intros [Hw|(p & b1 & bit & Hin & _)]; [exact Hw |].
      apply elem_of_nil in Hin. contradiction.
  - simpl in Hnd. apply NoDup_cons in Hnd as [Hp Hnd].
    destruct (merge_position_general bit_vector_1 acc log p bit)
      as (acc' & log1 & Hstep & Hother & Hlook & Hlog).
    { apply Hacc. simpl. left. }
    destruct (IH Hnd acc' log1) as (bv & log' & Hfold & Hout & Hin & Hwarn).
    { intros q Hq. rewrite Hother by (intros ->; contradiction).
      apply Hacc. simpl. right. exact Hq. }
    exists bv, log'. split; [rewrite fold_m_cons, Hstep; exact Hfold |]. split.
    { intros q Hq. simpl in Hq. apply not_elem_of_cons in Hq as [Hne Hq].
      rewrite Hout by exact Hq. apply Hother. exact Hne. }
    split.
    { intros q b Hqb. apply elem_of_cons in Hqb as [[= -> ->]|Hqb].
      - rewrite Hout by exact Hp. exact Hlook.
      - apply Hin. exact Hqb. }
    intros w. rewrite Hwarn, Hlog, elem_of_app. split.
    + intros [[Hw|Hw]|(q & b1 & b & Hqb & Hrest)].
      * left. exact Hw.
      * right. destruct (bit_vector_1 !! p) as [b1|] eqn:H1;
          [| apply elem_of_nil in Hw; contradiction].
        destruct (decide (bit ≠ b1 ∧ select_rule b1 bit = unhandled)) as [[Hne Hu]|_];
          [| apply elem_of_nil in Hw; contradiction].
        apply list_elem_of_singleton in Hw. subst w.
        exists p, b1, bit. split; [left |]. auto.
      * right. exists q, b1, b. split; [right; exact Hqb | exact Hrest].
    + intros [Hw|(q & b1 & b & Hqb & H1 & Hne & Hu & ->)]; [left; left; exact Hw |].
      apply elem_of_cons in Hqb as [[= -> ->]|Hqb].
      * left. right. rewrite H1. rewrite decide_True by auto. apply list_elem_of_singleton.
        reflexivity.
      * right. exists q, b1, b. auto.
Qed.

(** The merge never raises: its result is the union of the two mates with
    [merged_symbol] at the common positions, and its log holds one warning
    for every pair that no branch handles. *)
Lemma merge_paired_spec bit_vector_1 bit_vector_2 :
  ∃ bv log,
    __merge_paired_bit_vectors bit_vector_1 bit_vector_2 = inr (bv, log)
    ∧ bv = union_with (λ b1 b2, Some (merged_symbol b1 b2)) bit_vector_1 bit_vector_2
    ∧ ∀ w, w ∈ log ↔
        ∃ p b1 b2, unhandled_pair bit_vector_1 bit_vector_2 p b1 b2
                   ∧ w = unable_to_merge_warning b1 b2.
Proof.
  unfold __merge_paired_bit_vectors.
  destruct (merge_fold_general bit_vector_1 (map_to_list bit_vector_2)
              (NoDup_fst_map_to_list _) bit_vector_1 [])
    as (bv & log & Hfold & Hout & Hin & Hwarn); [reflexivity |].
  exists bv, log. split; [exact Hfold |]. split.
  - apply map_eq. intros p. rewrite lookup_union_with.
    destruct (bit_vector_2 !! p) as [b2|] eqn:H2.
    + rewrite (Hin p b2) by (apply elem_of_map_to_list; exact H2).
      destruct (bit_vector_1 !! p); reflexivity.
    + rewrite Hout.
      * destruct (bit_vector_1 !! p); reflexivity.
      * intros Hp. apply list_elem_of_fmap in Hp as ([q b] & -> & Hqb).
        apply elem_of_map_to_list in Hqb. simpl in H2. congruence.
  - intros w. rewrite Hwarn. split.
    + intros [Hw|(p & b1 & b2 & Hpb & H1 & Hne & Hu & ->)];
        [apply elem_of_nil in Hw; contradiction |].
      apply elem_of_map_to_list in Hpb. exists p, b1, b2.
      split; [| reflexivity]. repeat split; auto.
    + intros (p & b1 & b2 & (H1 & H2 & Hne & Hu) & ->). right.
      exists p, b1, b2. split; [apply elem_of_map_to_list; exact H2 |]. auto.
Qed.

Lemma merged_symbol_same b : merged_symbol b b = b.
Proof. unfold merged_symbol. rewrite decide_True by reflexivity. reflexivity. Qed.

Lemma merged_symbol_nomut b1 b2 :
  b1 = nomut_bit ∨ b2 = nomut_bit → merged_symbol b1 b2 = nomut_bit.
Proof.
  intros H. unfold merged_symbol.
  destruct (decide (b2 = b1)) as [->|Hne]; [tauto |].
  unfold select_rule. rewrite decide_True; [reflexivity |].
  destruct H as [->| ->]; set_solver.
Qed.

Lemma select_rule_ambig b1 b2 :
  b1 ≠ nomut_bit → b2 ≠ nomut_bit → b1 = ambig_info ∨ b2 = ambig_info →
  select_rule b1 b2 = other_than_ambig.
Proof.
  intros H1 H2 H. unfold select_rule.
  rewrite decide_False
    by (rewrite elem_of_union, !elem_of_singleton; intuition congruence).
  rewrite decide_True; [reflexivity |].
  rewrite elem_of_union, !elem_of_singleton. destruct H; auto.
Qed.

Lemma select_rule_missing b1 b2 :
  b1 ≠ nomut_bit → b2 ≠ nomut_bit → b1 ≠ ambig_info → b2 ≠ ambig_info →
  b1 = miss_info ∨ b2 = miss_info →
  select_rule b1 b2 = other_than_missing.
Proof.
  intros H1 H2 H3 H4 H. unfold select_rule.
  rewrite !decide_False
    by (rewrite elem_of_union, !elem_of_singleton; intuition congruence).
  rewrite decide_True; [reflexivity |].
  rewrite elem_of_union, !elem_of_singleton. destruct H; auto.
Qed.

Lemma empty_log (log : list log_entry) : (∀ w, w ∉ log) → log = [].
Proof. destruct log as [|w log]; [reflexivity |]. intros H. destruct (H w). left. Qed.

Lemma merged_symbol_comm b1 b2 :
  valid_symbol b1 → valid_symbol b2 → merged_symbol b1 b2 = merged_symbol b2 b1.
Proof.
  intros H1%valid_symbol_cases H2%valid_symbol_cases.
  rewrite !elem_of_cons, elem_of_nil in H1, H2.
  destruct H1 as [->|[->|[->|[->|[->|[->|[->|[->|[]]]]]]]]];
  destruct H2 as [->|[->|[->|[->|[->|[->|[->|[->|[]]]]]]]]];
    vm_compute; reflexivity.
Qed.

(** X5. The merge of two mates never raises, whatever symbols they hold. The
    merged bit vector has the positions of both mates; a position that only
    one mate has keeps that mate's symbol, and a position where the mates
    agree keeps the common symbol. *)
Theorem paired_merge_shape (bit_vector_1 bit_vector_2 : gmap Z ascii) :
  ∃ bv log,
    __merge_paired_bit_vectors bit_vector_1 bit_vector_2 = inr (bv, log)
    ∧ dom bv = dom bit_vector_1 ∪ dom bit_vector_2
    ∧ (∀ p, bit_vector_2 !! p = None → bv !! p = bit_vector_1 !! p)
    ∧ (∀ p, bit_vector_1 !! p = None → bv !! p = bit_vector_2 !! p)
    ∧ (∀ p b, bit_vector_1 !! p = Some b → bit_vector_2 !! p = Some b →
              bv !! p = Some b).
Proof.
  destruct (merge_paired_spec bit_vector_1 bit_vector_2) as (bv & log & Hm & -> & _).
  eexists _, log. split; [exact Hm |]. split.
  - apply set_eq. intros p. rewrite elem_of_union, !elem_of_dom, lookup_union_with.
    destruct (bit_vector_1 !! p), (bit_vector_2 !! p); simpl;
      rewrite ?is_Some_alt; split; try tauto; eauto.
  - split; [| split].
    + intros p H2. rewrite lookup_union_with, H2.
      destruct (bit_vector_1 !! p); reflexivity.
    + intros p H1. rewrite lookup_union_with, H1.
      destruct (bit_vector_2 !! p); reflexivity.
    + intros p b H1 H2. rewrite lookup_union_with, H1, H2. simpl.
      rewrite merged_symbol_same. reflexivity.
Qed.

(** X6. Merging a bit vector with itself returns it unchanged and logs
    nothing. *)
Theorem paired_merge_idempotent (bit_vector : gmap Z ascii) :
  __merge_paired_bit_vectors bit_vector bit_vector = inr (bit_vector, []).
Proof.
  destruct (merge_paired_spec bit_vector bit_vector) as (bv & log & Hm & -> & Hlog).
  rewrite Hm. f_equal. f_equal.
  - apply map_eq. intros p. rewrite lookup_union_with.
    destruct (bit_vector !! p); simpl; [rewrite merged_symbol_same |]; reflexivity.
  - apply empty_log. intros w Hw. apply Hlog in Hw as (p & b1 & b2 & (H1 & H2 & Hne & _) & _).
    congruence.
Qed.

(** X7. At a position that both mates have, the branches of the merge are
    ordered: NoMutation in either mate wins; otherwise an Ambiguous symbol
    yields to the other mate's symbol; otherwise a Missing symbol yields to
    the other mate's symbol. *)
Theorem paired_merge_precedence (bit_vector_1 bit_vector_2 bv : gmap Z ascii)
    (log : list log_entry) (p : Z) (b1 b2 : ascii) :
  __merge_paired_bit_vectors bit_vector_1 bit_vector_2 = inr (bv, log) →
  bit_vector_1 !! p = Some b1 → bit_vector_2 !! p = Some b2 →
  (b1 = nomut_bit ∨ b2 = nomut_bit → bv !! p = Some nomut_bit)
  ∧ (b1 ≠ nomut_bit → b2 ≠ nomut_bit →
       (b1 = ambig_info → bv !! p = Some b2) ∧ (b2 = ambig_info → bv !! p = Some b1))
  ∧ (b1 ≠ nomut_bit → b2 ≠ nomut_bit → b1 ≠ ambig_info → b2 ≠ ambig_info →
       (b1 = miss_info → bv !! p = Some b2) ∧ (b2 = miss_info → bv !! p = Some b1)).
Proof.
  intros Hm H1 H2.
  destruct (merge_paired_spec bit_vector_1 bit_vector_2) as (bv' & log' & Hm' & -> & _).
  rewrite Hm in Hm'. injection Hm' as -> _.
  rewrite lookup_union_with, H1, H2. simpl.
  split; [intros H; rewrite merged_symbol_nomut by exact H; reflexivity |].
  split.
  - intros Hn1 Hn2. unfold merged_symbol.
    destruct (decide (b2 = b1)) as [->|Hne]; [split; intros ->; reflexivity |].
    split; intros Ha.
    + rewrite select_rule_ambig by auto. rewrite decide_True by exact Ha. reflexivity.
    + rewrite select_rule_ambig by auto.
      rewrite decide_False by congruence. reflexivity.
  - intros Hn1 Hn2 Ha1 Ha2. unfold merged_symbol.
    destruct (decide (b2 = b1)) as [->|Hne]; [split; intros ->; reflexivity |].
    split; intros Hs.
    + rewrite select_rule_missing by auto. rewrite decide_True by exact Hs. reflexivity.
    + rewrite select_rule_missing by auto.
      rewrite decide_False by congruence. reflexivity.
Qed.

Lemma paired_merge_precedence_witness :
  ("*"%char = nomut_bit ∨ "T"%char = nomut_bit →
   ({[ 1 := "?"; 2 := "0"; 3 := "T"; 4 := "?" ]}%char : gmap Z ascii) !! 3
   = Some nomut_bit)
  ∧ ("*"%char ≠ nomut_bit → "T"%char ≠ nomut_bit →
       ("*"%char = ambig_info →
        ({[ 1 := "?"; 2 := "0"; 3 := "T"; 4 := "?" ]}%char : gmap Z ascii) !! 3
        = Some "T"%char)
       ∧ ("T"%char = ambig_info →
          ({[ 1 := "?"; 2 := "0"; 3 := "T"; 4 := "?" ]}%char : gmap Z ascii) !! 3
          = Some "*"%char))
  ∧ ("*"%char ≠ nomut_bit → "T"%char ≠ nomut_bit →
     "*"%char ≠ ambig_info → "T"%char ≠ ambig_info →
       ("*"%char = miss_info →
        ({[ 1 := "?"; 2 := "0"; 3 := "T"; 4 := "?" ]}%char : gmap Z ascii) !! 3
        = Some "T"%char)
       ∧ ("T"%char = miss_info →
          ({[ 1 := "?"; 2 := "0"; 3 := "T"; 4 := "?" ]}%char : gmap Z ascii) !! 3
          = Some "*"%char)).
Proof.
  apply (paired_merge_precedence ({[ 1 := "A"; 2 := "0"; 3 := "*"; 4 := "1" ]}%char)
           ({[ 1 := "C"; 2 := "?"; 3 := "T"; 4 := "T" ]}%char) _ [] 3).
  - vm_compute. reflexivity.
  - vm_compute. reflexivity.
  - vm_compute. reflexivity.
Defined.

(** X8. At a position where the mates hold two different bases, or a
    deletion and a base, the merged symbol is Ambiguous. *)
Theorem paired_merge_conflict (bit_vector_1 bit_vector_2 bv : gmap Z ascii)
    (log : list log_entry) (p : Z) (b1 b2 : ascii) :
  __merge_paired_bit_vectors bit_vector_1 bit_vector_2 = inr (bv, log) →
  bit_vector_1 !! p = Some b1 → bit_vector_2 !! p = Some b2 →
  b1 ≠ b2 →
  (b1 ∈ bases ∧ b2 ∈ bases) ∨ (b1 = del_bit ∧ b2 ∈ bases) ∨ (b1 ∈ bases ∧ b2 = del_bit) →
  bv !! p = Some ambig_info.
Proof.
  intros Hm H1 H2 Hne Hc.
  destruct (merge_paired_spec bit_vector_1 bit_vector_2) as (bv' & log' & Hm' & -> & _).
  rewrite Hm in Hm'. injection Hm' as -> _.
  rewrite lookup_union_with, H1, H2. simpl. f_equal.
  assert (Hb : ∀ b, b ∈ bases ∨ b = del_bit →
               b ≠ nomut_bit ∧ b ≠ ambig_info ∧ b ≠ miss_info).
  { intros b [Hb| ->]; [| repeat split; discriminate].
    unfold bases in Hb. rewrite !elem_of_cons, elem_of_nil in Hb.
    destruct Hb as [->|[->|[->|[->|[]]]]]; repeat split; discriminate. }
  assert (Hb1 : b1 ∈ bases ∨ b1 = del_bit) by tauto.
  assert (Hb2 : b2 ∈ bases ∨ b2 = del_bit) by tauto.
  apply Hb in Hb1 as (? & ? & ?). apply Hb in Hb2 as (? & ? & ?).
  unfold merged_symbol. rewrite decide_False by congruence.
  unfold select_rule.
  rewrite !decide_False
    by (rewrite elem_of_union, !elem_of_singleton; intuition congruence).
  destruct (decide (b1 ∈ bases ∧ b2 ∈ bases)); [reflexivity |].
  rewrite decide_True by tauto. reflexivity.
Qed.

Lemma paired_merge_conflict_witness :
  ({[ 1 := "?"; 2 := "0"; 3 := "T"; 4 := "?" ]}%char : gmap Z ascii) !! 4
  = Some ambig_info.
Proof.
  apply (paired_merge_conflict ({[ 1 := "A"; 2 := "0"; 3 := "*"; 4 := "1" ]}%char)
           ({[ 1 := "C"; 2 := "?"; 3 := "T"; 4 := "T" ]}%char) _ [] 4 "1"%char "T"%char).
  - vm_compute. reflexivity.
  - vm_compute. reflexivity.
  - vm_compute. reflexivity.
  - discriminate.
  - right. left. split; [reflexivity | unfold bases; set_solver].
Defined.

(** X9. At a position where the mates hold different symbols that no branch
    handles, the merged bit vector keeps the first mate's symbol and the log
    holds the warning for that pair. *)
Theorem paired_merge_unhandled_keeps_first (bit_vector_1 bit_vector_2 bv : gmap Z ascii)
    (log : list log_entry) (p : Z) (b1 b2 : ascii) :
  __merge_paired_bit_vectors bit_vector_1 bit_vector_2 = inr (bv, log) →
  bit_vector_1 !! p = Some b1 → bit_vector_2 !! p = Some b2 →
  b1 ≠ b2 → select_rule b1 b2 = unhandled →
  bv !! p = Some b1 ∧ unable_to_merge_warning b1 b2 ∈ log.
Proof.
  intros Hm H1 H2 Hne Hu.
  destruct (merge_paired_spec bit_vector_1 bit_vector_2) as (bv' & log' & Hm' & -> & Hlog).
  rewrite Hm in Hm'. injection Hm' as -> ->.
  split.
  - rewrite lookup_union_with, H1, H2. simpl. unfold merged_symbol.
    rewrite decide_False by congruence. rewrite Hu. reflexivity.
  - apply Hlog. exists p, b1, b2. split; [| reflexivity]. repeat split; assumption.
Qed.

Lemma paired_merge_unhandled_keeps_first_witness :
  ({[ 1 := "A"; 2 := "0" ]}%char : gmap Z ascii) !! 1 = Some "A"%char
  ∧ unable_to_merge_warning "A" "N" ∈ [unable_to_merge_warning "A" "N"].
Proof.
  apply (paired_merge_unhandled_keeps_first ({[ 1 := "A"; 2 := "0" ]}%char)
           ({[ 1 := "N" ]}%char) _ _ 1 "A"%char "N"%char).
  - vm_compute. reflexivity.
  - vm_compute. reflexivity.
  - vm_compute. reflexivity.
  - discriminate.
  - vm_compute. reflexivity.
Defined.

(** X10. On bit vectors that hold only valid symbols the merge is
    commutative: the result does not depend on which mate comes first. *)
Theorem paired_merge_commutes (bit_vector_1 bit_vector_2 : gmap Z ascii) :
  map_Forall (λ _ b, valid_symbol b) bit_vector_1 →
  map_Forall (λ _ b, valid_symbol b) bit_vector_2 →
  __merge_paired_bit_vectors bit_vector_1 bit_vector_2
  = __merge_paired_bit_vectors bit_vector_2 bit_vector_1.
Proof.
  intros Hv1 Hv2.
  destruct (merge_paired_spec bit_vector_1 bit_vector_2) as (bv & log & Hm & -> & Hlog).
  destruct (merge_paired_spec bit_vector_2 bit_vector_1) as (bv' & log' & Hm' & -> & Hlog').
  rewrite Hm, Hm'.
  assert (Hno : ∀ m1 m2 : gmap Z ascii,
            map_Forall (λ _ b, valid_symbol b) m1 →
            map_Forall (λ _ b, valid_symbol b) m2 →
            ∀ p b1 b2, ¬ unhandled_pair m1 m2 p b1 b2).
  { intros m1 m2 Hm1 Hm2 p b1 b2 (H1 & H2 & Hne & Hu).
    destruct (valid_pair_resolved b1 b2 (Hm1 _ _ H1) (Hm2 _ _ H2)) as [Hr _]; congruence. }
  replace log with (@nil log_entry); [replace log' with (@nil log_entry) |].
  - f_equal. f_equal. apply map_eq. intros p. rewrite !lookup_union_with.
    destruct (bit_vector_1 !! p) as [b1|] eqn:H1, (bit_vector_2 !! p) as [b2|] eqn:H2;
      simpl; try reflexivity.
    rewrite (merged_symbol_comm b1 b2) by eauto. reflexivity.
  - symmetry. apply empty_log. intros w Hw. apply Hlog' in Hw as (p & b1 & b2 & Hu & _).
    exact (Hno _ _ Hv2 Hv1 _ _ _ Hu).
  - symmetry. apply empty_log. intros w Hw. apply Hlog in Hw as (p & b1 & b2 & Hu & _).
    exact (Hno _ _ Hv1 Hv2 _ _ _ Hu).
Qed.

Lemma paired_merge_commutes_witness :
  __merge_paired_bit_vectors ({[ 1 := "A"; 2 := "0"; 3 := "*"; 4 := "1" ]}%char)
    ({[ 1 := "C"; 2 := "?"; 3 := "T"; 4 := "T" ]}%char)
  = __merge_paired_bit_vectors ({[ 1 := "C"; 2 := "?"; 3 := "T"; 4 := "T" ]}%char)
      ({[ 1 := "A"; 2 := "0"; 3 := "*"; 4 := "1" ]}%char).
Proof.
  apply (paired_merge_commutes ({[ 1 := "A"; 2 := "0"; 3 := "*"; 4 := "1" ]}%char)
           ({[ 1 := "C"; 2 := "?"; 3 := "T"; 4 := "T" ]}%char)).
  - repeat apply map_Forall_insert_2;
      first [apply map_Forall_empty | solve_valid_symbol].
  - repeat apply map_Forall_insert_2;
      first [apply map_Forall_empty | solve_valid_symbol].
Defined.

(** X11. When the CIGARs of both mates hold only the operations [M], [D],
    [I] and [S] and the paired conversion returns, the merged bit vector has
    a symbol exactly at the reference positions that one of the two read
    spans covers; both mates are classified against the reference of the
    first. *)
Theorem paired_bit_vector_covers_both_spans (self : BitVectorIterator)
    (read_1 read_2 : AlignedRead) (bv : gmap Z ascii) (log : list log_entry) :
  Forall known_op (_parse_cigar (cigar read_1)) →
  Forall known_op (_parse_cigar (cigar read_2)) →
  __get_bit_vector_paired self read_1 read_2 = inr (bv, log) →
  ∀ p, is_Some (bv !! p)
       ↔ pos read_1 ≤ p < pos read_1 + ref_span (_parse_cigar (cigar read_1))
         ∨ pos read_2 ≤ p < pos read_2 + ref_span (_parse_cigar (cigar read_2)).
Proof.
  intros Hk1 Hk2 Hpair p. unfold __get_bit_vector_paired in Hpair.
  apply bind_inr in Hpair as (ref_seq & _ & Hpair).
  apply bind_inr in Hpair as ([bv1 log1] & Hc1 & Hpair).
  apply bind_inr in Hpair as ([bv2 log2] & Hc2 & Hpair).
  apply bind_inr in Hpair as ([bv3 log3] & Hm & Hpair).
  injection Hpair as <- _.
  assert (Hspan : ∀ read b l,
            Forall known_op (_parse_cigar (cigar read)) →
            __convert_read_to_bit_vector self read ref_seq = inr (b, l) →
            ∀ q, is_Some (b !! q)
                 ↔ pos read ≤ q < pos read + ref_span (_parse_cigar (cigar read))).
  { intros read b l Hk Hconv. unfold __convert_read_to_bit_vector in Hconv.
    destruct (findall_from_sound (cigar read) 0) as [Hwf _].
    refine (proj2 (run_ops_exact self _ _ _ (pos read) _ Hwf Hk _ b l _ Hconv)).
    split; simpl; [lia |]. intros q. rewrite lookup_empty. split.
    - intros []. discriminate.
    - lia. }
  rewrite <- (Hspan read_1 bv1 log1 Hk1 Hc1), <- (Hspan read_2 bv2 log2 Hk2 Hc2).
  destruct (merge_paired_spec bv1 bv2) as (bv' & log' & Hm' & -> & _).
  rewrite Hm in Hm'. injection Hm' as -> _.
  rewrite lookup_union_with.
  destruct (bv1 !! p), (bv2 !! p); simpl; rewrite ?is_Some_alt; split; try tauto; eauto.
Qed.

Lemma paired_bit_vector_covers_both_spans_witness :
  is_Some ((list_to_map ((λ k, (Z.of_nat k, nomut_bit)) <$> List.seq 1 6)
            : gmap Z ascii) !! 6)
  ↔ pos (example_read "ref" 1 "4M" "ACGT" "IIII") ≤ 6
    < pos (example_read "ref" 1 "4M" "ACGT" "IIII")
      + ref_span (_parse_cigar (cigar (example_read "ref" 1 "4M" "ACGT" "IIII")))
    ∨ pos (example_read "ref" 3 "4M" "GTAC" "IIII") ≤ 6
      < pos (example_read "ref" 3 "4M" "GTAC" "IIII")
        + ref_span (_parse_cigar (cigar (example_read "ref" 3 "4M" "GTAC" "IIII"))).
Proof.
  apply (paired_bit_vector_covers_both_spans
           (default_iterator {[ "ref"%string := str "ACGTACGT" ]} true)
           (example_read "ref" 1 "4M" "ACGT" "IIII")
           (example_read "ref" 3 "4M" "GTAC" "IIII") _ [] ltac:(solve_known_ops)
           ltac:(solve_known_ops) ltac:(vm_compute; reflexivity) 6).
Defined.

(** ** The iterator *)

(** X12. [__next__] returns no bit vector: whatever group of reads the SAM
    iterator hands over, the call raises after incrementing [count], and the
    loop that consumes the iterator stops there without recording
    anything. *)
Theorem next_never_returns {histos : Type}
    (record : BitVector → histos → histos * option exn)
    (self : BitVectorIterator) (st : Z * histos) (group : list AlignedRead)
    (rest : list (list AlignedRead)) :
  ∃ e,
    __next__ self st.1 group = (st.1 + 1, inl e)
    ∧ pipeline_run record self st (group :: rest) = ((st.1 + 1, st.2), Some e).
Proof.
  destruct group as [|first others].
  - exists IndexError. unfold pipeline_run, pipeline_step, __next__. simpl.
    destruct (paired self); simpl; auto.
  - exists (ValueError (unknown_reference_message first)). auto.
Qed.

(** ** The bit vector file *)

Lemma write_fold bit_vector (l : list Z) :
  ∀ n bs,
    foldl (write_position bit_vector) (n, bs) l
    = (n + count_where (hits bit_vector isalpha) l,
       bs ++ ((λ pos, default "."%char (bit_vector !! pos)) <$> l)).
Proof.
  unfold count_where.
  induction l as [|pos l IH]; intros n bs.
  - simpl. rewrite Z.add_0_r, app_nil_r. reflexivity.
  - change (foldl (write_position bit_vector) (n, bs) (pos :: l))
      with (foldl (write_position bit_vector)
              (write_position bit_vector (n, bs) pos) l).
    assert (Hstep : write_position bit_vector (n, bs) pos
                    = (n + (if hits bit_vector isalpha pos then 1 else 0),
                       bs ++ [default "."%char (bit_vector !! pos)])).
    { unfold write_position, hits.
      destruct (bit_vector !! pos) as [b|]; simpl.
      - destruct (isalpha b); [reflexivity | rewrite Z.add_0_r; reflexivity].
      - rewrite Z.add_0_r. reflexivity. }
    rewrite Hstep, IH. rewrite <- app_assoc. simpl.
    destruct (hits bit_vector isalpha pos); simpl; f_equal; lia.
Qed.

Lemma valid_symbol_alpha b : valid_symbol b → isalpha b = bool_decide (b ∈ bases).
Proof.
  intros H%valid_symbol_cases. rewrite !elem_of_cons, elem_of_nil in H.
  destruct H as [->|[->|[->|[->|[->|[->|[->|[->|[]]]]]]]]]; vm_compute; reflexivity.
Qed.

Lemma count_where_agree (f g : Z → bool) (l : list Z) :
  (∀ x, f x = g x) → count_where f l = count_where g l.
Proof.
  intros H. unfold count_where. f_equal. f_equal.
  induction l as [|x l IH]; simpl; [reflexivity |]. rewrite H, IH. reflexivity.
Qed.

(** X13. [write_bit_vector] appends exactly one line to the file. Its bit
    string has one character for every position of [start .. end]: the
    symbol of the bit vector there, or a dot where the bit vector has none;
    its count is the number of these positions that hold an alphabetic
    symbol. *)
Theorem write_bit_vector_appends_one_line (self : BitVectorFileWriter) (q_name : string)
    (bit_vector : gmap Z ascii) :
  ∃ (n_mutations : Z) (bit_string : list ascii),
    w_file (write_bit_vector self q_name bit_vector)
    = w_file self ++ [ q_name +:+ tab +:+ string_of_list_ascii bit_string +:+ tab
                         +:+ pretty n_mutations +:+ newline ]
    ∧ length bit_string = Z.to_nat (w_end self + 1 - w_start self)
    ∧ (∀ k : nat, (k < length bit_string)%nat →
         bit_string !! k
         = Some (default "."%char (bit_vector !! (w_start self + Z.of_nat k))))
    ∧ n_mutations
      = count_where (hits bit_vector isalpha) (py_range (w_start self) (w_end self + 1)).
Proof.
  unfold write_bit_vector, bit_vector_line. rewrite write_fold. simpl.
  eexists _, _. split; [reflexivity |]. unfold py_range.
  rewrite length_fmap, length_seqZ. split; [reflexivity |]. split; [| reflexivity].
  intros k Hk. rewrite list_lookup_fmap, lookup_seqZ_lt by lia. reflexivity.
Qed.

(** X14. For a bit vector that holds only valid symbols, the count that
    [write_bit_vector] writes is the number of positions of [start .. end]
    that hold a base: the quantity that [record_bit_vector] calls
    [total_muts]. *)
Theorem written_mutations_are_bases (self : BitVectorFileWriter)
    (bit_vector : gmap Z ascii) :
  map_Forall (λ _ b, valid_symbol b) bit_vector →
  (bit_vector_line self bit_vector).1
  = count_where (hits bit_vector is_base) (py_range (w_start self) (w_end self + 1)).
Proof.
  intros Hv. unfold bit_vector_line. rewrite write_fold. simpl.
  apply count_where_agree. intros pos. unfold hits, is_base.
  destruct (bit_vector !! pos) as [b|] eqn:Hb; simpl; [| reflexivity].
  apply valid_symbol_alpha. exact (Hv _ _ Hb).
Qed.

Lemma written_mutations_are_bases_witness :
  (bit_vector_line (writer_init "ref" (str "ACGTA") "DMS" 1 5) four_mutations_bv).1
  = count_where (hits four_mutations_bv is_base)
      (py_range (w_start (writer_init "ref" (str "ACGTA") "DMS" 1 5))
         (w_end (writer_init "ref" (str "ACGTA") "DMS" 1 5) + 1)).
Proof.
  apply (written_mutations_are_bases (writer_init "ref" (str "ACGTA") "DMS" 1 5)
           four_mutations_bv).
  unfold four_mutations_bv.
  repeat apply map_Forall_insert_2;
    first [apply map_Forall_empty | solve_valid_symbol].
Defined.

(** ** MutationHistogram: shape *)

Lemma well_formed_b_sound h : well_formed_b h = true → well_formed h.
Proof.
  unfold well_formed_b, well_formed, counters_sized. rewrite !andb_true_iff.
  rewrite !bool_decide_eq_true.
  intros ((((((((((H1 & H2) & H3) & H4) & H5) & H6) & H7) & H8) & H9) & Hs) & He).
  split; [| split; assumption].
  repeat (split; [assumption |]). split; [| split].
  - intros b. rewrite <- elem_of_dom, H7, elem_of_list_to_set. reflexivity.
  - intros b arr Hb. rewrite forallb_forall in H8.
    specialize (H8 (b, arr)). rewrite bool_decide_eq_true in H8. apply H8.
    apply list_elem_of_In, elem_of_map_to_list. exact Hb.
  - intros t. rewrite <- elem_of_dom, H9, elem_of_list_to_set. reflexivity.
Qed.

Lemma length_zeros n : length (zeros n) = Z.to_nat n.
Proof. apply length_replicate. Qed.

Lemma sum_list_zeros n : sum_list (zeros n) = 0.
Proof.
  unfold zeros, sum_list. induction (Z.to_nat n) as [|k IH]; simpl; [reflexivity | lia].
Qed.

Lemma lookup_zeros n (k : nat) x : zeros n !! k = Some x → x = 0.
Proof. unfold zeros. intros [-> _]%lookup_replicate. reflexivity. Qed.

Lemma init_counters_sized nm sq dt st en : counters_sized (__init__ nm sq dt st en).
Proof.
  assert (Z.to_nat (len sq + 1) = S (length sq)) as Hn by (unfold len; lia).
  unfold counters_sized. simpl. rewrite !length_zeros, Hn.
  repeat (split; [reflexivity |]). split; [| split].
  - intros b. rewrite !lookup_insert_is_Some, lookup_singleton_is_Some.
    unfold bases. rewrite !elem_of_cons, elem_of_nil. intuition congruence.
  - repeat apply map_Forall_insert_2;
      lazymatch goal with
      | |- map_Forall _ _ => apply map_Forall_empty
      | |- _ => idtac
      end; rewrite length_zeros; exact Hn.
  - intros t. rewrite !lookup_insert_is_Some, lookup_singleton_is_Some.
    unfold skip_reasons. rewrite !elem_of_cons, elem_of_nil. intuition congruence.
Qed.

Lemma init_balanced nm sq dt st en : balanced (__init__ nm sq dt st en).
Proof. split; simpl; [reflexivity |]. apply sum_list_zeros. Qed.

Lemma init_rates_bounded nm sq dt st en : rates_bounded (__init__ nm sq dt st en).
Proof.
  intros k x c m d Hx Hc Hm Hd. simpl in *.
  apply lookup_zeros in Hx, Hc, Hm, Hd. lia.
Qed.

(** X15. A histogram made by [__init__] whose window [start .. end] lies in
    [1 .. len(sequence)] has all its counters of length [len(sequence) + 1],
    the four bases as keys of [mod_bases], the three skip reasons as keys of
    [skips]; its read counts balance and its rates are bounded. *)
Theorem fresh_histogram_invariants (nm : string) (sq : list ascii) (dt : string)
    (st en : option Z) :
  1 ≤ default 1 st → default (len sq) en ≤ len sq →
  well_formed (__init__ nm sq dt st en)
  ∧ balanced (__init__ nm sq dt st en)
  ∧ rates_bounded (__init__ nm sq dt st en).
Proof.
  intros Hs He. split; [| split].
  - split; [apply init_counters_sized | simpl; auto].
  - apply init_balanced.
  - apply init_rates_bounded.
Qed.

Lemma fresh_histogram_invariants_witness :
  well_formed (__init__ "ref" (str "ACGTA") "DMS" (Some 1) (Some 5))
  ∧ balanced (__init__ "ref" (str "ACGTA") "DMS" (Some 1) (Some 5))
  ∧ rates_bounded (__init__ "ref" (str "ACGTA") "DMS" (Some 1) (Some 5)).
Proof.
  apply (fresh_histogram_invariants "ref" (str "ACGTA") "DMS" (Some 1) (Some 5)).
  - simpl. lia.
  - vm_compute. discriminate.
Defined.

(** ** MutationHistogram: recording a bit vector *)

Lemma py_incr_in_range (a : list Z) (pos : Z) :
  0 ≤ pos < len a → py_incr a pos = inr (incr pos a).
Proof.
  intros Hpos. unfold py_incr, incr, len in *.
  destruct (lookup_lt_is_Some_2 a (Z.to_nat pos)) as [x Hx]; [lia |].
  rewrite (py_index_nonneg a pos x) by (lia || assumption). simpl.
  destruct (pos <? 0) eqn:E; [apply Z.ltb_lt in E; lia |].
  f_equal. apply list_eq. intros k.
  destruct (decide (k = Z.to_nat pos)) as [->|Hne].
  - rewrite list_lookup_insert_eq by lia. rewrite list_lookup_alter_eq, Hx. reflexivity.
  - rewrite list_lookup_insert_ne, list_lookup_alter_ne by congruence. reflexivity.
Qed.

Lemma length_incr pos a : length (incr pos a) = length a.
Proof. apply length_alter. Qed.

Lemma record_position_in_range p bit_vector h t pos :
  counters_sized h → 0 ≤ pos ≤ len (sequence h) →
  record_position p bit_vector (h, t) pos = inr (record_at p bit_vector (h, t) pos).
Proof.
  intros (Hnom & Hmut & Hinfo & Hdel & Hins & Hcov & Hkeys & Hmods & _) Hpos.
  unfold record_position, record_at, len in *. simpl.
  destruct (bit_vector !! pos) as [b|]; [| reflexivity].
  assert (Hin : ∀ a, length a = S (length (sequence h)) → py_incr a pos = inr (incr pos a)).
  { intros a Ha. apply py_incr_in_range. unfold len. lia. }
  rewrite (Hin _ Hinfo).
  assert (Hc : (if decide (b ≠ p_ambig_info p) then py_incr (cov_bases h) pos
                else mret (cov_bases h))
               = inr (if decide (b ≠ p_ambig_info p) then incr pos (cov_bases h)
                      else cov_bases h)).
  { destruct (decide (b ≠ p_ambig_info p)); [apply Hin; exact Hcov | reflexivity]. }
  rewrite Hc. simpl.
  destruct (decide (b ∈ bases)) as [Hb|Hb].
  - destruct (proj2 (Hkeys b) Hb) as [arr Harr].
    unfold dict_get. rewrite Harr. simpl.
    rewrite (Hin arr (Hmods _ _ Harr)). simpl. rewrite (Hin _ Hmut). simpl.
    do 3 f_equal. apply map_eq. intros c.
    destruct (decide (c = b)) as [->|Hne].
    + rewrite lookup_insert_eq, lookup_alter_eq, Harr. reflexivity.
    + rewrite lookup_insert_ne, lookup_alter_ne by congruence. reflexivity.
  - destruct (decide (b = p_del_bit p)); simpl; [rewrite (Hin _ Hdel) |]; reflexivity.
Qed.

Lemma record_at_keeps p bit_vector st pos :
  let st' := record_at p bit_vector st pos in
  name st'.1 = name st.1 ∧ sequence st'.1 = sequence st.1
  ∧ structure st'.1 = structure st.1 ∧ data_type st'.1 = data_type st.1
  ∧ num_reads st'.1 = num_reads st.1 ∧ num_aligned st'.1 = num_aligned st.1
  ∧ skips st'.1 = skips st.1 ∧ num_of_mutations st'.1 = num_of_mutations st.1
  ∧ ins_bases st'.1 = ins_bases st.1
  ∧ start st'.1 = start st.1 ∧ end_ st'.1 = end_ st.1
  ∧ st.2 ≤ st'.2 ≤ st.2 + 1.
Proof.
  unfold record_at. destruct (bit_vector !! pos) as [b|]; simpl.
  - repeat split; try reflexivity; destruct (decide (b ∈ bases)); lia.
  - repeat split; try reflexivity; lia.
Qed.

Lemma record_at_sized p bit_vector st pos :
  counters_sized st.1 → counters_sized (record_at p bit_vector st pos).1.
Proof.
  intros (Hnom & Hmut & Hinfo & Hdel & Hins & Hcov & Hkeys & Hmods & Hskips).
  unfold record_at. destruct (bit_vector !! pos) as [b|];
    [| repeat split; assumption || apply Hkeys || apply Hskips].
  unfold counters_sized. simpl.
  split; [exact Hnom |].
  split; [destruct (decide (b ∈ bases)); rewrite ?length_incr; exact Hmut |].
  split; [rewrite length_incr; exact Hinfo |].
  split; [destruct (decide (b ∈ bases)); [| destruct (decide (b = p_del_bit p))];
          rewrite ?length_incr; exact Hdel |].
  split; [exact Hins |].
  split; [destruct (decide (b ≠ p_ambig_info p)); rewrite ?length_incr; exact Hcov |].
  split; [| split; [| exact Hskips]].
  - intros c. destruct (decide (b ∈ bases)); [| apply Hkeys].
    rewrite lookup_alter_is_Some. apply Hkeys.
  - destruct (decide (b ∈ bases)); [| exact Hmods].
    intros c arr. destruct (decide (c = b)) as [->|Hne].
    + rewrite lookup_alter_eq. intros Harr.
      apply fmap_Some in Harr as (arr0 & Harr0 & ->). rewrite length_incr.
      exact (Hmods _ _ Harr0).
    + rewrite lookup_alter_ne by congruence. apply Hmods.
Qed.

Lemma record_fold_in_range p bit_vector (l : list Z) :
  ∀ st,
    counters_sized st.1 →
    Forall (λ pos, 0 ≤ pos ≤ len (sequence st.1)) l →
    fold_m (record_position p bit_vector) st l
    = inr (foldl (record_at p bit_vector) st l).
Proof.
  induction l as [|pos l IH]; intros [h t] Hh Hl; [reflexivity |].
  apply Forall_cons in Hl as [Hpos Hl].
  simpl in Hh, Hpos, Hl.
  rewrite fold_m_cons, (record_position_in_range p bit_vector h t pos Hh Hpos).
  change (inr ?x ≫= ?f) with (f x). cbv beta. apply IH.
  - apply (record_at_sized p bit_vector (h, t) pos). exact Hh.
  - destruct (record_at_keeps p bit_vector (h, t) pos) as (_ & Hseq & _).
    simpl in Hseq. rewrite Hseq. exact Hl.
Qed.

Lemma record_foldl_keeps p bit_vector (l : list Z) :
  ∀ st,
    let st' := foldl (record_at p bit_vector) st l in
    name st'.1 = name st.1 ∧ sequence st'.1 = sequence st.1
    ∧ structure st'.1 = structure st.1 ∧ data_type st'.1 = data_type st.1
    ∧ num_reads st'.1 = num_reads st.1 ∧ num_aligned st'.1 = num_aligned st.1
    ∧ skips st'.1 = skips st.1 ∧ num_of_mutations st'.1 = num_of_mutations st.1
    ∧ ins_bases st'.1 = ins_bases st.1
    ∧ start st'.1 = start st.1 ∧ end_ st'.1 = end_ st.1
    ∧ st.2 ≤ st'.2 ≤ st.2 + Z.of_nat (length l)
    ∧ (counters_sized st.1 → counters_sized st'.1).
Proof.
  induction l as [|pos l IH]; intros st; simpl.
  - repeat (split; [first [reflexivity | simpl; lia] |]). auto.
  - specialize (IH (record_at p bit_vector st pos)). simpl in IH.
    destruct IH as (H1 & H2 & H3 & H4 & H5 & H6 & H7 & H8 & H9 & H10 & H11 & H12 & H13).
    destruct (record_at_keeps p bit_vector st pos)
      as (K1 & K2 & K3 & K4 & K5 & K6 & K7 & K8 & K9 & K10 & K11 & K12).
    repeat (split; [first [congruence | simpl; lia] |]).
    intros Hs. apply H13. apply record_at_sized. exact Hs.
Qed.

Lemma tally_lookup (c : Z → bool) (l : list Z) :
  NoDup l → Forall (λ q, 0 ≤ q) l →
  ∀ (a : list Z) (pos : Z), 0 ≤ pos →
    foldl (λ a q, bump (c q) q a) a l !! Z.to_nat pos
    = (λ x, x + tick (bool_decide (pos ∈ l) && c pos)) <$> a !! Z.to_nat pos.
Proof.
  induction 1 as [|q l Hq Hnd IH]; intros Hl a pos Hpos.
  - cbn [foldl]. rewrite (bool_decide_eq_false_2 (pos ∈ [])) by apply not_elem_of_nil.
    destruct (a !! Z.to_nat pos); simpl; [rewrite Z.add_0_r |]; reflexivity.
  - apply Forall_cons in Hl as [Hq0 Hl]. cbn [foldl]. rewrite IH by assumption.
    destruct (decide (pos = q)) as [->|Hne].
    + rewrite (bool_decide_eq_false_2 (q ∈ l)) by exact Hq.
      rewrite (bool_decide_eq_true_2 (q ∈ q :: l)) by left. simpl.
      unfold bump, incr. destruct (c q); simpl.
      * rewrite list_lookup_alter_eq. destruct (a !! Z.to_nat q); simpl; [| reflexivity].
        f_equal. lia.
      * reflexivity.
    + assert (Hb : bool_decide (pos ∈ q :: l) = bool_decide (pos ∈ l)).
      { apply bool_decide_ext. rewrite elem_of_cons. tauto. }
      rewrite Hb. unfold bump, incr. destruct (c q); [| reflexivity].
      rewrite list_lookup_alter_ne by lia. reflexivity.
Qed.

Lemma record_at_fields p bit_vector st pos :
  let st' := record_at p bit_vector st pos in
  info_bases st'.1 = bump (hits bit_vector (λ _, true) pos) pos (info_bases st.1)
  ∧ cov_bases st'.1 = bump (hits bit_vector (is_covering p) pos) pos (cov_bases st.1)
  ∧ mut_bases st'.1 = bump (hits bit_vector is_base pos) pos (mut_bases st.1)
  ∧ del_bases st'.1 = bump (hits bit_vector (is_deletion p) pos) pos (del_bases st.1)
  ∧ st'.2 = st.2 + tick (hits bit_vector is_base pos)
  ∧ ∀ c, mod_bases st'.1 !! c
         = bump (hits bit_vector (λ b, is_base b && bool_decide (b = c)) pos) pos
             <$> mod_bases st.1 !! c.
Proof.
  unfold record_at, hits, is_base, is_covering, is_deletion.
  destruct (bit_vector !! pos) as [b|]; simpl.
  - split; [reflexivity |].
    split; [destruct (decide (b ≠ p_ambig_info p));
            [rewrite bool_decide_eq_true_2 | rewrite bool_decide_eq_false_2];
            auto |].
    destruct (decide (b ∈ bases)) as [Hb|Hb].
    + rewrite (bool_decide_eq_true_2 _ Hb).
      rewrite (bool_decide_eq_false_2 ((b ∉ bases) ∧ _)) by tauto.
      repeat split. intros c. simpl. destruct (decide (b = c)) as [->|Hne].
      * rewrite lookup_alter_eq, bool_decide_eq_true_2 by reflexivity. reflexivity.
      * rewrite lookup_alter_ne, bool_decide_eq_false_2 by congruence.
        simpl. destruct (mod_bases st.1 !! c); reflexivity.
    + rewrite (bool_decide_eq_false_2 _ Hb). simpl.
      split; [reflexivity |]. split.
      * destruct (decide (b = p_del_bit p));
          [rewrite bool_decide_eq_true_2 | rewrite bool_decide_eq_false_2]; tauto || auto.
      * split; [rewrite Z.add_0_r; reflexivity |].
        intros c. destruct (mod_bases st.1 !! c); reflexivity.
  - repeat split; try (rewrite Z.add_0_r; reflexivity).
    intros c. destruct (mod_bases st.1 !! c); reflexivity.
Qed.

Lemma record_foldl_fields p bit_vector (l : list Z) :
  ∀ st,
    let st' := foldl (record_at p bit_vector) st l in
    info_bases st'.1
    = foldl (λ a q, bump (hits bit_vector (λ _, true) q) q a) (info_bases st.1) l
    ∧ cov_bases st'.1
      = foldl (λ a q, bump (hits bit_vector (is_covering p) q) q a) (cov_bases st.1) l
    ∧ mut_bases st'.1
      = foldl (λ a q, bump (hits bit_vector is_base q) q a) (mut_bases st.1) l
    ∧ del_bases st'.1
      = foldl (λ a q, bump (hits bit_vector (is_deletion p) q) q a) (del_bases st.1) l
    ∧ st'.2 = st.2 + count_where (hits bit_vector is_base) l
    ∧ ∀ c, mod_bases st'.1 !! c
           = (λ arr, foldl (λ a q, bump (hits bit_vector
                                           (λ b, is_base b && bool_decide (b = c)) q) q a)
                       arr l) <$> mod_bases st.1 !! c.
Proof.
  induction l as [|pos l IH]; intros st.
  - simpl. repeat split; try (unfold count_where; simpl; lia).
    intros c. destruct (mod_bases st.1 !! c); reflexivity.
  - specialize (IH (record_at p bit_vector st pos)).
    destruct IH as (I1 & I2 & I3 & I4 & I5 & I6).
    destruct (record_at_fields p bit_vector st pos) as (F1 & F2 & F3 & F4 & F5 & F6).
    cbn [foldl]. rewrite I1, I2, I3, I4, I5, F1, F2, F3, F4, F5.
    repeat split.
    + unfold count_where. simpl. destruct (hits bit_vector is_base pos); simpl; lia.
    + intros c. rewrite I6, F6. destruct (mod_bases st.1 !! c); reflexivity.
Qed.

Lemma coords_in_range h :
  1 ≤ start h → end_ h ≤ len (sequence h) →
  Forall (λ pos, 0 ≤ pos ≤ len (sequence h)) (get_nuc_coords h)
  ∧ Forall (λ q, 0 ≤ q) (get_nuc_coords h)
  ∧ NoDup (get_nuc_coords h)
  ∧ Z.of_nat (length (get_nuc_coords h)) ≤ len (sequence h).
Proof.
  intros Hs He. unfold get_nuc_coords, py_range.
  split; [| split; [| split]].
  - apply Forall_forall. intros pos Hpos%elem_of_seqZ. lia.
  - apply Forall_forall. intros pos Hpos%elem_of_seqZ. lia.
  - apply NoDup_seqZ.
  - rewrite length_seqZ. unfold len in *. lia.
Qed.

Lemma count_where_bounds f l : 0 ≤ count_where f l ≤ Z.of_nat (length l).
Proof.
  unfold count_where. split; [lia |].
  apply inj_le. induction l as [|x l IH]; simpl; [lia |].
  destruct (f x); simpl; lia.
Qed.

Lemma record_bit_vector_eq p bit_vector h :
  well_formed h →
  ∃ st,
    st = foldl (record_at p bit_vector)
           (set_counts h (num_reads h + 1) (num_aligned h + 1) (num_of_mutations h), 0)
           (get_nuc_coords h)
    ∧ st.2 = count_where (hits bit_vector is_base) (get_nuc_coords h)
    ∧ record_bit_vector h bit_vector p
      = inr (set_counts st.1 (num_reads st.1) (num_aligned st.1)
               (incr st.2 (num_of_mutations st.1))).
Proof.
  intros (Hsized & Hs & He).
  destruct (coords_in_range h Hs He) as (Hrange & Hnonneg & Hnd & Hlen).
  eexists. split; [reflexivity |].
  set (h0 := set_counts h (num_reads h + 1) (num_aligned h + 1) (num_of_mutations h)).
  set (st := foldl (record_at p bit_vector) (h0, 0) (get_nuc_coords h)).
  destruct (record_foldl_fields p bit_vector (get_nuc_coords h) (h0, 0))
    as (_ & _ & _ & _ & Htot & _).
  destruct (record_foldl_keeps p bit_vector (get_nuc_coords h) (h0, 0))
    as (_ & _ & _ & _ & _ & _ & _ & Hnom & _ & _ & _ & _ & Hsz).
  fold st in Htot, Hnom, Hsz. simpl in Htot, Hnom.
  split; [exact Htot |].
  unfold record_bit_vector. fold h0.
  change (get_nuc_coords h0) with (get_nuc_coords h).
  rewrite (record_fold_in_range p bit_vector (get_nuc_coords h) (h0, 0))
    by (exact Hsized || exact Hrange).
  fold st. destruct st as [h1 t] eqn:Hst. simpl in *.
  rewrite py_incr_in_range; [reflexivity |].
  rewrite Hnom. destruct Hsized as (Hn & _). unfold len in *. rewrite Hn.
  pose proof (count_where_bounds (hits bit_vector is_base) (get_nuc_coords h)). lia.
Qed.

Lemma in_coords h pos :
  bool_decide (pos ∈ get_nuc_coords h) = bool_decide (start h ≤ pos ≤ end_ h).
Proof.
  apply bool_decide_ext. unfold get_nuc_coords, py_range. rewrite elem_of_seqZ. lia.
Qed.

Lemma incr_lookup (t : Z) (a : list Z) (k : nat) :
  0 ≤ t →
  incr t a !! k = (λ x, x + tick (bool_decide (Z.of_nat k = t))) <$> a !! k.
Proof.
  intros Ht. unfold incr.
  destruct (decide (Z.of_nat k = t)) as [Heq|Hne].
  - rewrite bool_decide_eq_true_2 by exact Heq. rewrite <- Heq, Nat2Z.id.
    rewrite list_lookup_alter_eq. reflexivity.
  - rewrite bool_decide_eq_false_2 by exact Hne.
    rewrite list_lookup_alter_ne by lia.
    destruct (a !! k); simpl; [rewrite Z.add_0_r |]; reflexivity.
Qed.

(** On a well-formed histogram [record_bit_vector] raises nothing; the
    histogram it leaves, field by field. *)
Lemma record_bit_vector_spec p bit_vector h :
  well_formed h →
  ∃ h',
    record_bit_vector h bit_vector p = inr h'
    ∧ well_formed h'
    ∧ (name h', sequence h', data_type h', start h', end_ h', structure h')
      = (name h, sequence h, data_type h, start h, end_ h, structure h)
    ∧ num_reads h' = num_reads h + 1
    ∧ num_aligned h' = num_aligned h + 1
    ∧ skips h' = skips h
    ∧ ins_bases h' = ins_bases h
    ∧ num_of_mutations h'
      = incr (count_where (hits bit_vector is_base) (get_nuc_coords h)) (num_of_mutations h)
    ∧ 0 ≤ count_where (hits bit_vector is_base) (get_nuc_coords h) ≤ len (sequence h)
    ∧ ∀ pos, 0 ≤ pos →
        info_bases h' !! Z.to_nat pos
        = (λ x, x + tick (counted h bit_vector (λ _, true) pos))
            <$> info_bases h !! Z.to_nat pos
        ∧ cov_bases h' !! Z.to_nat pos
          = (λ x, x + tick (counted h bit_vector (is_covering p) pos))
              <$> cov_bases h !! Z.to_nat pos
        ∧ mut_bases h' !! Z.to_nat pos
          = (λ x, x + tick (counted h bit_vector is_base pos))
              <$> mut_bases h !! Z.to_nat pos
        ∧ del_bases h' !! Z.to_nat pos
          = (λ x, x + tick (counted h bit_vector (is_deletion p) pos))
              <$> del_bases h !! Z.to_nat pos.
Proof.
  intros Hwf. destruct (record_bit_vector_eq p bit_vector h Hwf) as (st & Hst & Htot & Hrec).
  eexists. split; [exact Hrec |].
  destruct (record_foldl_keeps p bit_vector (get_nuc_coords h)
              (set_counts h (num_reads h + 1) (num_aligned h + 1) (num_of_mutations h), 0))
    as (K1 & K2 & K3 & K4 & K5 & K6 & K7 & K8 & K9 & K10 & K11 & _ & Ksz).
  destruct (record_foldl_fields p bit_vector (get_nuc_coords h)
              (set_counts h (num_reads h + 1) (num_aligned h + 1) (num_of_mutations h), 0))
    as (F1 & F2 & F3 & F4 & _).
  rewrite <- Hst in *. simpl in *.
  destruct Hwf as (Hsized & Hs & He).
  destruct (coords_in_range h Hs He) as (_ & Hnonneg & Hnd & Hlen).
  pose proof (count_where_bounds (hits bit_vector is_base) (get_nuc_coords h)) as Hb.
  split.
  { split; [| simpl; rewrite K2, K10, K11; auto].
    destruct (Ksz Hsized) as (S1 & S2 & S3 & S4 & S5 & S6 & S7 & S8 & S9).
    unfold counters_sized. simpl. rewrite length_incr. repeat split; try assumption;
      apply S7 || apply S9. }
  split; [congruence |].
  do 4 (split; [first [assumption | congruence] |]).
  split; [rewrite K8, Htot; reflexivity |].
  split; [lia |].
  intros pos Hpos. rewrite F1, F2, F3, F4. unfold counted. rewrite <- !in_coords.
  repeat split; apply tally_lookup; assumption.
Qed.

(** X16. On a well-formed histogram [record_bit_vector] raises nothing,
    whatever the bit vector holds. It adds one to [num_reads] and to
    [num_aligned], leaves the skips, the insertion counts and the identity of
    the histogram as they are, and the result is well formed again. *)
Theorem record_keeps_well_formed (p : bit_vector_params) (bit_vector : gmap Z ascii)
    (h : MutationHistogram) :
  well_formed h →
  ∃ h',
    record_bit_vector h bit_vector p = inr h'
    ∧ well_formed h'
    ∧ num_reads h' = num_reads h + 1
    ∧ num_aligned h' = num_aligned h + 1
    ∧ skips h' = skips h
    ∧ ins_bases h' = ins_bases h
    ∧ (name h', sequence h', data_type h', start h', end_ h', structure h')
      = (name h, sequence h, data_type h, start h, end_ h, structure h).
Proof.
  intros Hwf. destruct (record_bit_vector_spec p bit_vector h Hwf)
    as (h' & Hrec & Hwf' & Hid & Hr & Ha & Hsk & Hins & _).
  exists h'. repeat (split; [assumption |]). assumption.
Qed.

Lemma record_keeps_well_formed_witness :
  ∃ h',
    record_bit_vector fresh_histogram deletion_bv default_params = inr h'
    ∧ well_formed h'
    ∧ num_reads h' = num_reads fresh_histogram + 1
    ∧ num_aligned h' = num_aligned fresh_histogram + 1
    ∧ skips h' = skips fresh_histogram
    ∧ ins_bases h' = ins_bases fresh_histogram
    ∧ (name h', sequence h', data_type h', start h', end_ h', structure h')
      = (name fresh_histogram, sequence fresh_histogram, data_type fresh_histogram,
         start fresh_histogram, end_ fresh_histogram, structure fresh_histogram).
Proof.
  apply (record_keeps_well_formed default_params deletion_bv fresh_histogram).
  apply well_formed_b_sound. vm_compute. reflexivity.
Defined.



(** X18. Recording a bit vector adds one to exactly one entry of
    [num_of_mutations]: the one whose index is the number of positions of
    [start .. end] at which the bit vector holds a base. That number is at
    most [len(sequence)], so the index is valid. *)
Theorem record_fills_one_bucket (p : bit_vector_params) (bit_vector : gmap Z ascii)
    (h h' : MutationHistogram) :
  well_formed h →
  record_bit_vector h bit_vector p = inr h' →
  0 ≤ count_where (hits bit_vector is_base) (get_nuc_coords h) ≤ len (sequence h)
  ∧ ∀ k : nat,
      num_of_mutations h' !! k
      = (λ x, x + tick (bool_decide
                          (Z.of_nat k
                           = count_where (hits bit_vector is_base) (get_nuc_coords h))))
          <$> num_of_mutations h !! k.
Proof.
  intros Hwf Hrec.
  destruct (record_bit_vector_spec p bit_vector h Hwf)
    as (h0 & Hrec0 & _ & _ & _ & _ & _ & _ & Hnom & Hb & _).
  rewrite Hrec in Hrec0. injection Hrec0 as <-.
  split; [exact Hb |]. intros k. rewrite Hnom. apply incr_lookup. lia.
Qed.

Lemma record_fills_one_bucket_witness :
  0 ≤ count_where (hits four_mutations_bv is_base) (get_nuc_coords fresh_histogram)
    ≤ len (sequence fresh_histogram)
  ∧ ∀ k : nat,
      num_of_mutations (recorded four_mutations_bv) !! k
      = (λ x, x + tick (bool_decide
                          (Z.of_nat k
                           = count_where (hits four_mutations_bv is_base)
                               (get_nuc_coords fresh_histogram))))
          <$> num_of_mutations fresh_histogram !! k.
Proof.
  apply (record_fills_one_bucket default_params four_mutations_bv fresh_histogram
           (recorded four_mutations_bv)).
  - apply well_formed_b_sound. vm_compute. reflexivity.
  - vm_compute. reflexivity.
Defined.

Lemma fold_m_ext {S X} (f g : S → X → result S) (l : list X) :
  (∀ s x, x ∈ l → f s x = g s x) → ∀ s, fold_m f s l = fold_m g s l.
Proof.
  induction l as [|x l IH]; intros Hfg s; [reflexivity |].
  rewrite !fold_m_cons. rewrite (Hfg s x) by left.
  destruct (g s x) as [e|s']; [reflexivity |].
  apply IH. intros s0 x0 Hx0. apply Hfg. right. exact Hx0.
Qed.

Lemma record_position_ext p bv1 bv2 st pos :
  bv1 !! pos = bv2 !! pos → record_position p bv1 st pos = record_position p bv2 st pos.
Proof. intros H. unfold record_position. rewrite H. reflexivity. Qed.

(** X19. [record_bit_vector] reads the bit vector only at the positions of
    [start .. end]: two bit vectors that agree there give the same result,
    so what a read holds outside the window is never counted. *)
Theorem record_reads_only_the_window (p : bit_vector_params)
    (bit_vector_1 bit_vector_2 : gmap Z ascii) (h : MutationHistogram) :
  (∀ pos, start h ≤ pos ≤ end_ h → bit_vector_1 !! pos = bit_vector_2 !! pos) →
  record_bit_vector h bit_vector_1 p = record_bit_vector h bit_vector_2 p.
Proof.
  intros Hagree. unfold record_bit_vector.
  rewrite (fold_m_ext (record_position p bit_vector_1) (record_position p bit_vector_2));
    [reflexivity |].
  intros s pos Hpos. apply record_position_ext, Hagree.
  unfold get_nuc_coords, py_range in Hpos. simpl in Hpos.
  apply elem_of_seqZ in Hpos. lia.
Qed.

Lemma record_reads_only_the_window_witness :
  record_bit_vector fresh_histogram deletion_bv default_params
  = record_bit_vector fresh_histogram (<[9 := "A"%char]> deletion_bv) default_params.
Proof.
  apply (record_reads_only_the_window default_params deletion_bv
           (<[9 := "A"%char]> deletion_bv) fresh_histogram).
  intros pos Hpos. simpl in Hpos. rewrite lookup_insert_ne by lia. reflexivity.
Defined.

(** ** MutationHistogram: accounting *)

Lemma sum_list_alter (a : list Z) (k : nat) :
  (k < length a)%nat → sum_list (alter (λ x, x + 1) k a) = sum_list a + 1.
Proof.
  unfold sum_list. revert k. induction a as [|x a IH]; intros k Hk; simpl in Hk; [lia |].
  destruct k as [|k].
  - simpl. lia.
  - change (alter (λ x, x + 1) (S k) (x :: a)) with (x :: alter (λ x, x + 1) k a).
    cbn [foldr]. rewrite IH by lia. lia.
Qed.

Lemma map_total_insert (m : gmap string Z) t n :
  m !! t = Some n →
  map_fold (λ _ v acc, v + acc) 0 (<[t := n + 1]> m)
  = map_fold (λ _ v acc, v + acc) 0 m + 1.
Proof.
  intros Ht.
  rewrite (map_fold_delete_L _ _ t n m) by (intros; lia || assumption).
  rewrite <- (insert_delete_eq m).
  rewrite map_fold_insert_L by (intros; lia || apply lookup_delete_eq).
  lia.
Qed.

(** X20. Recording a bit vector keeps the read counts balanced: [num_reads]
    is [num_aligned] plus the skips, and the entries of [num_of_mutations]
    add up to [num_aligned]. *)
Theorem record_keeps_balance (p : bit_vector_params) (bit_vector : gmap Z ascii)
    (h h' : MutationHistogram) :
  well_formed h → balanced h →
  record_bit_vector h bit_vector p = inr h' →
  balanced h'.
Proof.
  intros Hwf (Hr & Ha) Hrec.
  destruct (record_bit_vector_spec p bit_vector h Hwf)
    as (h0 & Hrec0 & _ & _ & Hreads & Haligned & Hskips & _ & Hnom & Hb & _).
  rewrite Hrec in Hrec0. injection Hrec0 as <-.
  split.
  - unfold total_skips. rewrite Hreads, Haligned, Hskips. unfold total_skips in Hr. lia.
  - rewrite Haligned, <- Ha, Hnom. apply sum_list_alter.
    destruct Hwf as ((Hn & _) & _). rewrite Hn. unfold len in Hb. lia.
Qed.

Lemma record_keeps_balance_witness : balanced (recorded deletion_bv).
Proof.
  apply (record_keeps_balance default_params deletion_bv fresh_histogram).
  - apply well_formed_b_sound. vm_compute. reflexivity.
  - split; vm_compute; reflexivity.
  - vm_compute. reflexivity.
Defined.



(** X22. On a well-formed histogram [record_skip] raises [KeyError] for a
    reason other than the three that [__init__] sets up; for one of the three
    it adds one to [num_reads] and to the count of that reason, leaves
    [num_aligned] as it is, and keeps the histogram well formed, balanced and
    its rates bounded. *)
Theorem record_skip_counts (h : MutationHistogram) (t : string) :
  well_formed h →
  (t ∉ skip_reasons → record_skip h t = inl KeyError)
  ∧ (t ∈ skip_reasons →
     ∃ h' n,
       record_skip h t = inr h'
       ∧ skips h !! t = Some n
       ∧ skips h' = <[t := n + 1]> (skips h)
       ∧ num_reads h' = num_reads h + 1
       ∧ num_aligned h' = num_aligned h
       ∧ well_formed h'
       ∧ (balanced h → balanced h')
       ∧ (rates_bounded h → rates_bounded h')).
Proof.
  intros (Hsized & Hs & He).
  pose proof Hsized as (S1 & S2 & S3 & S4 & S5 & S6 & S7 & S8 & S9).
  split; intros Ht.
  - unfold record_skip, dict_get.
    destruct (skips h !! t) as [n|] eqn:E; [| reflexivity].
    destruct Ht. apply S9. rewrite E. eauto.
  - destruct (proj2 (S9 t) Ht) as [n Hn].
    unfold record_skip, dict_get. rewrite Hn. simpl.
    eexists _, n. split; [reflexivity |]. simpl.
    repeat (split; [reflexivity |]). split; [| split].
    + split; [| simpl; auto]. unfold counters_sized. simpl.
      repeat (split; [assumption |]).
      intros t'. rewrite lookup_insert_is_Some. rewrite S9.
      split; [intros [<-|[_ H]]; assumption |].
      intros H. destruct (decide (t = t')); auto.
    + intros (Hr & Ha). split; simpl; [| exact Ha].
      unfold total_skips in *. simpl. rewrite (map_total_insert _ _ _ Hn). lia.
    + intros H. exact H.
Qed.

Lemma record_skip_counts_witness :
  ("low_mapq"%string ∉ skip_reasons → record_skip (recorded deletion_bv) "low_mapq" = inl KeyError)
  ∧ ("low_mapq"%string ∈ skip_reasons →
     ∃ h' n,
       record_skip (recorded deletion_bv) "low_mapq" = inr h'
       ∧ skips (recorded deletion_bv) !! "low_mapq"%string = Some n
       ∧ skips h' = <["low_mapq"%string := n + 1]> (skips (recorded deletion_bv))
       ∧ num_reads h' = num_reads (recorded deletion_bv) + 1
       ∧ num_aligned h' = num_aligned (recorded deletion_bv)
       ∧ well_formed h'
       ∧ (balanced (recorded deletion_bv) → balanced h')
       ∧ (rates_bounded (recorded deletion_bv) → rates_bounded h')).
Proof.
  apply (record_skip_counts (recorded deletion_bv) "low_mapq").
  apply well_formed_b_sound. vm_compute. reflexivity.
Defined.

(** ** MutationHistogram: merge *)

Lemma dict_fold_spec `{Countable K} {V} (add : V → V → result V) (f : V → V → V)
    (b : gmap K V) (items : list (K * V)) :
  NoDup items.*1 →
  (∀ k v, (k, v) ∈ items → ∃ w, b !! k = Some w ∧ add v w = inr (f v w)) →
  ∀ acc : gmap K V,
  ∃ r,
    fold_m (fun acc '(key, v) =>
              w ← dict_get b key;
              s ← add v w;
              mret (<[key := s]> acc)) acc items = inr r
    ∧ ∀ k, r !! k = match (list_to_map items : gmap K V) !! k with
                    | Some v => f v <$> b !! k
                    | None => acc !! k
                    end.
Proof.
  induction items as [|[k0 v0] items IH]; intros Hnd Hb acc.
  - exists acc. split; [reflexivity |]. intros k. simpl. rewrite lookup_empty. reflexivity.
  - simpl in Hnd. apply NoDup_cons in Hnd as [Hk0 Hnd].
    destruct (Hb k0 v0) as (w0 & Hw0 & Hadd); [left |].
    rewrite fold_m_cons. unfold dict_get. rewrite Hw0. simpl. rewrite Hadd. simpl.
    destruct (IH Hnd (λ k v Hkv, Hb k v (list_elem_of_further _ _ _ Hkv))
                (<[k0 := f v0 w0]> acc)) as (r & Hr & Hlook).
    exists r. split; [exact Hr |]. intros k. rewrite Hlook.
    destruct (decide (k = k0)) as [->|Hne].
    + rewrite lookup_insert_eq. rewrite (not_elem_of_list_to_map_1 _ _ Hk0).
      rewrite lookup_insert_eq, Hw0. reflexivity.
    + rewrite !(lookup_insert_ne _ k0 k) by congruence. reflexivity.
Qed.

Lemma dict_iadd_spec `{Countable K} {V} (add : V → V → result V) (f : V → V → V)
    (a b : gmap K V) :
  (∀ k v, a !! k = Some v → ∃ w, b !! k = Some w ∧ add v w = inr (f v w)) →
  ∃ r, dict_iadd add a b = inr r
       ∧ ∀ k, r !! k = (v ← a !! k; w ← b !! k; Some (f v w)).
Proof.
  intros Hb. unfold dict_iadd.
  destruct (dict_fold_spec add f b (map_to_list a)) with (acc := a) as (r & Hr & Hlook).
  - apply NoDup_fst_map_to_list.
  - intros k v Hkv. apply Hb. apply elem_of_map_to_list. exact Hkv.
  - exists r. split; [exact Hr |]. intros k. rewrite Hlook, list_to_map_to_list.
    destruct (a !! k) as [v|]; simpl; [| reflexivity].
    destruct (b !! k); reflexivity.
Qed.

Lemma list_iadd_same_length a b :
  length b = length a → list_iadd a b = inr (zip_with Z.add a b).
Proof.
  intros Hl. unfold list_iadd. rewrite decide_True by lia.
  rewrite take_ge, drop_ge, app_nil_r by lia. reflexivity.
Qed.

Lemma merge_of_same_identity self other :
  well_formed self → well_formed other → same_identity self other →
  ∃ sk mods,
    merge self other
    = inr {| name := name self;
             sequence := sequence self;
             structure := structure self;
             data_type := data_type self;
             num_reads := num_reads self + num_reads other;
             num_aligned := num_aligned self + num_aligned other;
             skips := sk;
             num_of_mutations := zip_with Z.add (num_of_mutations self)
                                   (num_of_mutations other);
             mut_bases := zip_with Z.add (mut_bases self) (mut_bases other);
             info_bases := zip_with Z.add (info_bases self) (info_bases other);
             del_bases := del_bases self;
             ins_bases := zip_with Z.add (ins_bases self) (ins_bases other);
             cov_bases := zip_with Z.add (cov_bases self) (cov_bases other);
             mod_bases := mods;
             start := start self;
             end_ := end_ self |}
    ∧ (∀ t, sk !! t = (x ← skips self !! t; y ← skips other !! t; Some (x + y)))
    ∧ (∀ b, mods !! b
            = (x ← mod_bases self !! b; y ← mod_bases other !! b;
               Some (zip_with Z.add x y))).
Proof.
  intros (Hs1 & _) (Hs2 & _) (I1 & I2 & I3 & I4 & I5 & I6).
  destruct Hs1 as (A1 & A2 & A3 & A4 & A5 & A6 & A7 & A8 & A9).
  destruct Hs2 as (B1 & B2 & B3 & B4 & B5 & B6 & B7 & B8 & B9).
  rewrite <- I2 in *.
  destruct (dict_iadd_spec (fun x y => mret (x + y)) Z.add (skips self) (skips other))
    as (sk & Hsk & Hsk_look).
  { intros t v Hv. destruct (proj2 (B9 t)) as [w Hw]; [apply A9; eauto |].
    exists w. split; [exact Hw | reflexivity]. }
  destruct (dict_iadd_spec np_iadd (zip_with Z.add) (mod_bases self) (mod_bases other))
    as (mods & Hmods & Hmods_look).
  { intros b v Hv. destruct (proj2 (B7 b)) as [w Hw]; [apply A7; eauto |].
    exists w. split; [exact Hw |]. apply np_iadd_same_length.
    rewrite (A8 b v Hv), (B8 b w Hw). reflexivity. }
  exists sk, mods. split; [| split; assumption].
  unfold merge.
  rewrite !decide_False by (intros Hne; apply Hne; assumption).
  rewrite Hsk. simpl.
  rewrite list_iadd_same_length by congruence. simpl.
  rewrite !np_iadd_same_length by congruence. simpl.
  rewrite Hmods. reflexivity.
Qed.



Lemma merge_sized self other (sk : gmap string Z) (mods : gmap ascii (list Z)) :
  counters_sized self → counters_sized other →
  sequence self = sequence other →
  (∀ t, sk !! t = (x ← skips self !! t; y ← skips other !! t; Some (x + y))) →
  (∀ b, mods !! b
        = (x ← mod_bases self !! b; y ← mod_bases other !! b;
           Some (zip_with Z.add x y))) →
  (∀ t, is_Some (sk !! t) ↔ t ∈ skip_reasons)
  ∧ (∀ b, is_Some (mods !! b) ↔ b ∈ bases)
  ∧ map_Forall (λ _ a, length a = S (length (sequence self))) mods.
Proof.
  intros (A1 & A2 & A3 & A4 & A5 & A6 & A7 & A8 & A9)
         (B1 & B2 & B3 & B4 & B5 & B6 & B7 & B8 & B9) Hseq Hsk Hmods.
  rewrite <- Hseq in *. split; [| split].
  - intros t. rewrite Hsk, <- A9. specialize (B9 t). rewrite <- A9 in B9.
    destruct (skips self !! t) as [x|]; simpl.
    + destruct (proj2 B9) as [y ->]; [eauto |]. simpl. split; eauto.
    + split; intros []; discriminate.
  - intros b. rewrite Hmods, <- A7. specialize (B7 b). rewrite <- A7 in B7.
    destruct (mod_bases self !! b) as [x|]; simpl.
    + destruct (proj2 B7) as [y ->]; [eauto |]. simpl. split; eauto.
    + split; intros []; discriminate.
  - intros b arr. rewrite Hmods. intros Harr.
    destruct (mod_bases self !! b) as [x|] eqn:Ex; [| discriminate]. simpl in Harr.
    destruct (mod_bases other !! b) as [y|] eqn:Ey; [| discriminate].
    injection Harr as <-. rewrite length_zip_with.
    rewrite (A8 b x Ex), (B8 b y Ey). lia.
Qed.

Lemma same_identity_refl a : same_identity a a.
Proof. repeat split. Qed.

Lemma same_identity_trans a b c : same_identity a b → same_identity b c → same_identity a c.
Proof. unfold same_identity. intuition congruence. Qed.

Lemma merge_mergeable a b :
  mergeable a b →
  ∃ h, merge a b = inr h ∧ well_formed h ∧ same_identity h a
       ∧ num_reads h = num_reads a + num_reads b
       ∧ num_aligned h = num_aligned a + num_aligned b.
Proof.
  intros (Hwf1 & Hwf2 & Hid).
  destruct (merge_of_same_identity a b Hwf1 Hwf2 Hid) as (sk & mods & Hm & Hsk & Hmods).
  eexists. split; [exact Hm |].
  destruct Hwf1 as (Hs1 & Hstart & Hend). destruct Hwf2 as (Hs2 & _).
  destruct Hid as (_ & Hseq & _).
  destruct (merge_sized a b sk mods Hs1 Hs2 Hseq Hsk Hmods) as (M1 & M2 & M3).
  destruct Hs1 as (A1 & A2 & A3 & A4 & A5 & A6 & _).
  destruct Hs2 as (B1 & B2 & B3 & B4 & B5 & B6 & _).
  rewrite <- Hseq in *.
  split; [| repeat split].
  split; [| simpl; auto].
  unfold counters_sized. simpl. rewrite !length_zip_with.
  repeat (split; [first [assumption | lia] |]). assumption.
Qed.

(** X23. For two well-formed histograms [merge] succeeds exactly when the six
    identity attributes agree: then it returns a well-formed histogram with
    the receiver's identity, and otherwise it raises a [ValueError]. The
    shapes of the arrays never make it fail. *)
Theorem merge_succeeds_on_same_identity (self other : MutationHistogram) :
  well_formed self → well_formed other →
  (same_identity self other →
   ∃ h, merge self other = inr h ∧ well_formed h ∧ same_identity h self)
  ∧ (¬ same_identity self other → ∃ msg, merge self other = inl (ValueError msg)).
Proof.
  intros Hwf1 Hwf2. split.
  - intros Hid.
    destruct (merge_mergeable self other (conj Hwf1 (conj Hwf2 Hid)))
      as (h & Hm & Hwf & Hidh & _).
    exists h. auto.
  - intros Hid. unfold merge, same_identity in *.
    repeat (match goal with
            | |- context [decide (?x ≠ ?y)] =>
                destruct (decide (x ≠ y)); [eexists; reflexivity |]
            end).
    destruct Hid. repeat split; apply dec_stable; assumption.
Qed.

Lemma merge_succeeds_on_same_identity_witness :
  (same_identity (recorded deletion_bv) (recorded four_mutations_bv) →
   ∃ h, merge (recorded deletion_bv) (recorded four_mutations_bv) = inr h
        ∧ well_formed h ∧ same_identity h (recorded deletion_bv))
  ∧ (¬ same_identity (recorded deletion_bv) (recorded four_mutations_bv) →
     ∃ msg, merge (recorded deletion_bv) (recorded four_mutations_bv)
            = inl (ValueError msg)).
Proof.
  apply (merge_succeeds_on_same_identity (recorded deletion_bv)
           (recorded four_mutations_bv)).
  - apply well_formed_b_sound. vm_compute. reflexivity.
  - apply well_formed_b_sound. vm_compute. reflexivity.
Defined.





(** ** MutationHistogram: derived statistics at the edges *)

Lemma map_m_total {X Y} (f : X → result Y) (g : X → Y) (xs : list X) :
  Forall (λ x, f x = inr (g x)) xs → map_m f xs = inr (g <$> xs).
Proof.
  induction 1 as [|x xs Hx _ IH]; simpl; [reflexivity |].
  rewrite Hx. simpl. rewrite IH. reflexivity.
Qed.

(** X26. On a well-formed histogram [get_read_coverage] raises nothing and
    returns one value for every position of [start .. end]. When no read
    has been counted, every value is [nan]: the quotient [0 / 0] of the
    arrays raises nothing, and the value [0.0] of the [except] branch is
    never produced. *)
Theorem read_coverage_without_reads (h : MutationHistogram) :
  well_formed h →
  ∃ l, get_read_coverage h = inr l
       ∧ length l = Z.to_nat (end_ h + 1 - start h)
       ∧ (num_reads h = 0 → (∀ (k : nat) x, cov_bases h !! k = Some x → x = 0) →
          ∀ k : nat, (k < length l)%nat → l !! k = Some nan).
Proof.
  intros ((S1 & S2 & S3 & S4 & S5 & S6 & _) & Hs & He).
  set (g := λ pos, PrimFloat.div (float_of_count (default 0 (cov_bases h !! Z.to_nat pos)))
                     (float_of_count (num_reads h))).
  exists (g <$> get_nuc_coords h). split; [| split].
  - apply map_m_total. apply Forall_forall. intros pos Hpos.
    unfold get_nuc_coords, py_range in Hpos. apply elem_of_seqZ in Hpos.
    destruct (lookup_lt_is_Some_2 (cov_bases h) (Z.to_nat pos)) as [c Hc].
    { rewrite S6. unfold len in He. lia. }
    rewrite (py_index_nonneg _ pos c) by (lia || assumption).
    unfold g. rewrite Hc. reflexivity.
  - rewrite length_fmap. unfold get_nuc_coords, py_range. rewrite length_seqZ. lia.
  - intros Hreads Hcov k Hk. rewrite length_fmap in Hk.
    destruct (lookup_lt_is_Some_2 (get_nuc_coords h) k Hk) as [pos Hpos].
    rewrite list_lookup_fmap, Hpos. simpl. f_equal. unfold g. rewrite Hreads.
    destruct (cov_bases h !! Z.to_nat pos) as [c|] eqn:Ec; simpl.
    + rewrite (Hcov _ _ Ec). vm_compute. reflexivity.
    + vm_compute. reflexivity.
Qed.

Lemma read_coverage_without_reads_witness :
  ∃ l, get_read_coverage fresh_histogram = inr l
       ∧ length l = Z.to_nat (end_ fresh_histogram + 1 - start fresh_histogram)
       ∧ (num_reads fresh_histogram = 0 →
          (∀ (k : nat) x, cov_bases fresh_histogram !! k = Some x → x = 0) →
          ∀ k : nat, (k < length l)%nat → l !! k = Some nan).
Proof.
  apply (read_coverage_without_reads fresh_histogram).
  apply well_formed_b_sound. vm_compute. reflexivity.
Defined.

(** X27. Where the window of a histogram reaches past its arrays, that is
    at a position greater than [len(sequence)], [get_pop_avg] gives [0.0]:
    the lookup raises [IndexError] and the bare [except] takes over. *)
Theorem pop_avg_past_the_arrays (h : MutationHistogram) (inc_del : bool) (k : nat)
    (pos : Z) :
  counters_sized h →
  get_nuc_coords h !! k = Some pos →
  len (sequence h) < pos →
  get_pop_avg h inc_del !! k = Some 0%float.
Proof.
  intros (S1 & S2 & S3 & S4 & _) Hk Hpos. unfold get_pop_avg.
  rewrite list_lookup_fmap, Hk. simpl. f_equal.
  assert (∀ a : list Z, length a = S (length (sequence h)) → py_index a pos = inl IndexError)
    as Hidx.
  { intros a Ha. unfold py_index, len in *.
    destruct (pos <? 0) eqn:E; [apply Z.ltb_lt in E; lia |]. rewrite E.
    rewrite lookup_ge_None_2 by lia. reflexivity. }
  unfold mut_frac. destruct inc_del.
  - rewrite (Hidx _ S4). simpl. vm_compute. reflexivity.
  - rewrite (Hidx _ S2). simpl. vm_compute. reflexivity.
Qed.

Lemma pop_avg_past_the_arrays_witness :
  get_pop_avg (__init__ "ref" (str "ACGTA") "DMS" (Some 1) (Some 7)) false !! 5%nat
  = Some 0%float.
Proof.
  apply (pop_avg_past_the_arrays (__init__ "ref" (str "ACGTA") "DMS" (Some 1) (Some 7))
           false 5 6).
  - apply init_counters_sized.
  - vm_compute. reflexivity.
  - vm_compute. reflexivity.
Defined.
(** ** Floats of whole numbers *)

Lemma shr_1_lower (r : shr_record) (k : Z) :
  0 ≤ k → 2 ^ (1 + k) ≤ shr_m r → 2 ^ k ≤ shr_m (shr_1 r).
Proof.
  intros Hk. destruct r as [m r s]. simpl.
  assert (H2 : 2 ^ (1 + k) = 2 * 2 ^ k) by (rewrite Z.pow_add_r by lia; reflexivity).
  assert (Hp : 0 < 2 ^ k) by (apply Z.pow_pos_nonneg; lia).
  rewrite H2. intros Hm.
  destruct m as [|[p|p|]|p]; simpl; lia.
Qed.

Lemma iter_shr_1_lower (q : positive) :
  ∀ (r : shr_record) (k : Z),
    0 ≤ k → 2 ^ (Z.pos q + k) ≤ shr_m r → 2 ^ k ≤ shr_m (SpecFloat.iter_pos shr_1 q r).
Proof.
  induction q as [q IH|q IH|]; intros r k Hk Hm; simpl.
  - apply IH; [lia |]. apply IH; [lia |]. apply shr_1_lower; [lia |].
    replace (1 + (Z.pos q + (Z.pos q + k))) with (Z.pos q~1 + k) by lia. exact Hm.
  - apply IH; [lia |]. apply IH; [lia |].
    replace (Z.pos q + (Z.pos q + k)) with (Z.pos q~0 + k) by lia. exact Hm.
  - apply shr_1_lower; assumption.
Qed.

Lemma digits2_lower (p : positive) : 2 ^ (Z.pos (digits2_pos p) - 1) ≤ Z.pos p.
Proof.
  induction p as [p IH|p IH|]; simpl digits2_pos.
  - rewrite Pos2Z.inj_succ.
    replace (Z.succ (Z.pos (digits2_pos p)) - 1) with (1 + (Z.pos (digits2_pos p) - 1)) by lia.
    rewrite Z.pow_add_r by lia. change (2 ^ 1) with 2. lia.
  - rewrite Pos2Z.inj_succ.
    replace (Z.succ (Z.pos (digits2_pos p)) - 1) with (1 + (Z.pos (digits2_pos p) - 1)) by lia.
    rewrite Z.pow_add_r by lia. change (2 ^ 1) with 2. lia.
  - simpl. lia.
Qed.

(** Rounding a positive mantissa at an exponent that is not below [emin]
    leaves a positive mantissa and does not lower the exponent. *)
Lemma shr_fexp_positive (m : positive) (e : Z) (l : location) :
  SpecFloat.emin prec emax ≤ e →
  1 ≤ shr_m (shr_fexp prec emax (Z.pos m) e l).1
  ∧ e ≤ (shr_fexp prec emax (Z.pos m) e l).2.
Proof.
  intros He. unfold shr_fexp, shr, fexp, SpecFloat.emin, prec, emax in *. simpl Zdigits2.
  pose proof (digits2_lower m) as Hd.
  set (d := Z.pos (digits2_pos m)) in *.
  destruct (Z.max (d + e - 53) (3 - 1024 - 53) - e) as [|n|n] eqn:En; simpl.
  - split; [| lia]. destruct l as [|[]]; simpl; lia.
  - split; [| lia]. change 1 with (2 ^ 0). apply iter_shr_1_lower; [lia |].
    assert (Z.pos n + 0 ≤ d - 1) by lia.
    eapply Z.le_trans; [apply Z.pow_le_mono_r; [lia | eassumption] |].
    destruct l as [|[]]; simpl; lia.
  - split; [| lia]. destruct l as [|[]]; simpl; lia.
Qed.

Lemma binary_round_aux_positive (sx : bool) (m : positive) (e : Z) (l : location) :
  SpecFloat.emin prec emax ≤ e →
  (∃ m' e', binary_round_aux prec emax sx (Z.pos m) e l = S754_finite sx m' e')
  ∨ binary_round_aux prec emax sx (Z.pos m) e l = S754_infinity sx.
Proof.
  intros He. unfold binary_round_aux.
  destruct (shr_fexp_positive m e l He) as [Hm1 He1].
  destruct (shr_fexp prec emax (Z.pos m) e l) as [mrs' e'] eqn:E1. simpl in Hm1, He1.
  set (m2 := round_nearest_even (shr_m mrs') (loc_of_shr_record mrs')).
  assert (Hm2 : 1 ≤ m2).
  { unfold m2, round_nearest_even.
    destruct (loc_of_shr_record mrs') as [|[]]; try lia.
    destruct (Z.even (shr_m mrs')); lia. }
  destruct m2 as [|p2|p2] eqn:Ep2; try lia.
  destruct (shr_fexp_positive p2 e' loc_Exact) as [Hm3 _]; [lia |].
  destruct (shr_fexp prec emax (Z.pos p2) e' loc_Exact) as [mrs'' e''] eqn:E2.
  simpl in Hm3. destruct (shr_m mrs'') as [|p3|p3]; try lia.
  destruct (e'' <=? emax - prec); [left; eauto | right; reflexivity].
Qed.

Lemma binary_round_positive (p : positive) :
  (∃ m' e', binary_round prec emax false p 0 = S754_finite false m' e')
  ∨ binary_round prec emax false p 0 = S754_infinity false.
Proof.
  unfold binary_round.
  destruct (shl_align p 0 (fexp prec emax (Z.pos (digits2_pos p) + 0))) as [mz ez] eqn:E.
  apply binary_round_aux_positive.
  unfold shl_align, fexp, SpecFloat.emin, prec, emax in *.
  destruct (Z.max (Z.pos (digits2_pos p) + 0 - 53) (3 - 1024 - 53) - 0) eqn:En;
    injection E as <- <-; lia.
Qed.

(** The float of a whole number is zero exactly when the number is, and
    zero divided by the float of a positive number is zero. *)
Lemma float_of_count_zero (n : Z) :
  0 ≤ n < 2 ^ 63 →
  PrimFloat.eqb (float_of_count n) 0%float = bool_decide (n = 0)
  ∧ (0 < n →
     PrimFloat.eqb (PrimFloat.div (float_of_count 0) (float_of_count n)) 0%float = true).
Proof.
  intros Hn. unfold float_of_count.
  destruct (n <? 0) eqn:E; [apply Z.ltb_lt in E; lia |]. clear E.
  destruct (decide (n = 0)) as [->|Hne].
  - split; [vm_compute; reflexivity | lia].
  - rewrite bool_decide_eq_false_2 by exact Hne.
    assert (Hspec := of_uint63_spec (Uint63.of_Z n)).
    rewrite Uint63.of_Z_spec in Hspec.
    assert (Hw : Uint63.wB = 2 ^ 63) by reflexivity.
    rewrite Z.mod_small in Hspec by (rewrite Hw; lia).
    destruct n as [|p|p]; try lia.
    change (binary_normalize prec emax (Z.pos p) 0 false)
      with (binary_round prec emax false p 0) in Hspec.
    split.
    + rewrite FloatAxioms.eqb_spec, Hspec.
      destruct (binary_round_positive p) as [(m' & e' & ->)| ->]; reflexivity.
    + intros _. rewrite FloatAxioms.eqb_spec, div_spec, Hspec.
      change (Prim2SF (of_uint63 (Uint63.of_Z 0))) with (S754_zero false).
      destruct (binary_round_positive p) as [(m' & e' & ->)| ->]; reflexivity.
Qed.

(** ** MutationHistogram: signal to noise *)

Lemma signal_position_eq self AC GU pos e m :
  1 ≤ pos →
  sequence self !! Z.to_nat (pos - 1) = Some e →
  mut_bases self !! Z.to_nat pos = Some m →
  signal_position self (AC, GU) pos
  = inr (if bool_decide (e = "A"%char ∨ e = "C"%char)
         then (add_element AC m, GU) else (AC, add_element GU m)).
Proof.
  intros Hpos He Hm. unfold signal_position.
  rewrite (py_index_nonneg _ (pos - 1) e) by (lia || assumption). simpl.
  rewrite (py_index_nonneg _ pos m) by (lia || assumption).
  destruct (bool_decide (e = "A"%char ∨ e = "C"%char)); reflexivity.
Qed.

Lemma signal_fold_spec (self : MutationHistogram) (l : list Z) :
  length (mut_bases self) = S (length (sequence self)) →
  Forall (λ pos, 1 ≤ pos ≤ len (sequence self)) l →
  ∀ AC GU,
    ∃ AC' GU',
      fold_m (signal_position self) (AC, GU) l = inr (AC', GU')
      ∧ (if existsb (is_ac self) l then is_np AC' = true else AC' = AC)
      ∧ (if existsb (λ pos, negb (is_ac self pos)) l then is_np GU' = true else GU' = GU).
Proof.
  intros Hmut. induction 1 as [|pos l Hpos _ IH]; intros AC GU.
  - exists AC, GU. repeat split.
  - unfold len in Hpos.
    destruct (lookup_lt_is_Some_2 (sequence self) (Z.to_nat (pos - 1))) as [e He]; [lia |].
    destruct (lookup_lt_is_Some_2 (mut_bases self) (Z.to_nat pos)) as [m Hm]; [lia |].
    rewrite fold_m_cons, (signal_position_eq self AC GU pos e m) by (lia || assumption).
    change (inr ?x ≫= ?f) with (f x). cbv beta.
    cbn [existsb]. unfold is_ac at 1 3. rewrite He.
    destruct (bool_decide (e = "A"%char ∨ e = "C"%char)); simpl.
    + destruct (IH (add_element AC m) GU) as (AC' & GU' & Hfold & HA & HG).
      exists AC', GU'. split; [exact Hfold |]. split; [| exact HG].
      destruct (existsb (is_ac self) l); [exact HA | rewrite HA; reflexivity].
    + destruct (IH AC (add_element GU m)) as (AC' & GU' & Hfold & HA & HG).
      exists AC', GU'. split; [exact Hfold |]. split; [exact HA |].
      destruct (existsb (λ pos, negb (is_ac self pos)) l); [exact HG | rewrite HG; reflexivity].
Qed.

Lemma count_char_nonneg c s : 0 ≤ count_char c s.
Proof. unfold count_char. lia. Qed.

Lemma count_char_pos c s : c ∈ s → 0 < count_char c s.
Proof.
  unfold count_char. induction 1 as [c s|c d s _ IH]; simpl.
  - rewrite bool_decide_eq_true_2 by reflexivity. simpl. lia.
  - destruct (bool_decide (d = c)); simpl; lia.
Qed.

Lemma counts_le (s : list ascii) :
  count_char "A" s + count_char "C" s ≤ len s
  ∧ count_char "G" s + count_char "U" s + count_char "T" s ≤ len s.
Proof.
  unfold count_char, len. induction s as [|a s IH]; simpl; [lia |].
  destruct (decide (a = "A"%char)) as [->|HA]; [simpl; lia |].
  destruct (decide (a = "C"%char)) as [->|HC]; [simpl; lia |].
  destruct (decide (a = "G"%char)) as [->|HG]; [simpl; lia |].
  destruct (decide (a = "U"%char)) as [->|HU]; [simpl; lia |].
  destruct (decide (a = "T"%char)) as [->|HT]; [simpl; lia |].
  rewrite !bool_decide_eq_false_2 by assumption. simpl. lia.
Qed.

Lemma existsb_false_Forall {X} (f : X → bool) (l : list X) :
  existsb f l = false → Forall (λ x, f x = false) l.
Proof.
  induction l as [|x l IH]; simpl; [constructor |].
  intros [Hx Hl]%orb_false_iff. constructor; auto.
Qed.

Lemma existsb_true_Exists {X} (f : X → bool) (l : list X) :
  existsb f l = true → ∃ x, x ∈ l ∧ f x = true.
Proof.
  induction l as [|x l IH]; simpl; [discriminate |].
  intros [Hx|Hl]%orb_true_iff.
  - exists x. split; [left | exact Hx].
  - destruct (IH Hl) as (y & Hy & Hfy). exists y. split; [right |]; assumption.
Qed.

Lemma is_ac_counted (self : MutationHistogram) (pos : Z) :
  is_ac self pos = true →
  0 < count_char "A" (sequence self) + count_char "C" (sequence self).
Proof.
  unfold is_ac. destruct (sequence self !! Z.to_nat (pos - 1)) as [e|] eqn:He; [| discriminate].
  intros [-> | ->]%bool_decide_eq_true; apply list_elem_of_lookup_2 in He.
  - pose proof (count_char_pos _ _ He). pose proof (count_char_nonneg "C" (sequence self)). lia.
  - pose proof (count_char_pos _ _ He). pose proof (count_char_nonneg "A" (sequence self)). lia.
Qed.

Lemma truediv_np x b : truediv (NpFloat x) b = inr (NpFloat (PrimFloat.div x (as_float b))).
Proof. reflexivity. Qed.

Lemma truediv_zero_count (n : Z) :
  0 ≤ n < 2 ^ 63 →
  truediv (PyInt 0) (PyFloat (float_of_count n))
  = if bool_decide (n = 0) then inl ZeroDivisionError
    else inr (PyFloat (PrimFloat.div (float_of_count 0) (float_of_count n))).
Proof.
  intros Hn. unfold truediv. simpl as_float.
  rewrite (proj1 (float_of_count_zero n Hn)). reflexivity.
Qed.

(** X28. On a well-formed histogram [get_signal_to_noise] raises
    [ZeroDivisionError] in exactly three cases: the sequence has no [A] and
    no [C]; the sequence has no [G], [U] and [T] and the window holds only
    [A] and [C]; the window is empty. In every other case it returns a
    value, also when a quotient of the numpy scalars is infinite or not a
    number. *)
Theorem signal_to_noise_division_by_zero (py_round : float → float)
    (h : MutationHistogram) :
  well_formed h → len (sequence h) < 2 ^ 63 →
  (divides_by_zero h → get_signal_to_noise py_round h = inl ZeroDivisionError)
  ∧ (¬ divides_by_zero h → ∃ q, get_signal_to_noise py_round h = inr (py_round q)).
Proof.
  intros ((S1 & S2 & _) & Hs & He) Hlen.
  destruct (counts_le (sequence h)) as [Hac Hgu].
  pose proof (count_char_nonneg "A" (sequence h)). pose proof (count_char_nonneg "C" (sequence h)).
  pose proof (count_char_nonneg "G" (sequence h)). pose proof (count_char_nonneg "U" (sequence h)).
  pose proof (count_char_nonneg "T" (sequence h)).
  set (AC_count := count_char "A" (sequence h) + count_char "C" (sequence h)) in *.
  set (GU_count := count_char "G" (sequence h) + count_char "U" (sequence h)
                   + count_char "T" (sequence h)) in *.
  assert (Hcoords : Forall (λ pos, 1 ≤ pos ≤ len (sequence h)) (get_nuc_coords h)).
  { apply Forall_forall. intros pos Hpos%elem_of_seqZ. lia. }
  destruct (signal_fold_spec h (get_nuc_coords h) S2 Hcoords (PyInt 0) (PyInt 0))
    as (AC & GU & Hfold & HA & HG).
  assert (Hrun : get_signal_to_noise py_round h
                 = match truediv AC (PyFloat (float_of_count AC_count)) with
                   | inl e => inl e
                   | inr AC =>
                       match truediv GU (PyFloat (float_of_count GU_count)) with
                       | inl e => inl e
                       | inr GU =>
                           match truediv AC GU with
                           | inl e => inl e
                           | inr q => inr (py_round (as_float q))
                           end
                       end
                   end).
  { unfold get_signal_to_noise. rewrite Hfold. reflexivity. }
  rewrite Hrun. clear Hrun Hfold.
  assert (Hwin : existsb (is_ac h) (get_nuc_coords h) = false →
                 existsb (λ pos, negb (is_ac h pos)) (get_nuc_coords h) = false →
                 end_ h < start h).
  { intros Ha Hg. unfold get_nuc_coords, py_range in *.
    destruct (Z.le_gt_cases (end_ h + 1 - start h) 0) as [Hle|Hgt]; [lia |].
    exfalso. replace (end_ h + 1 - start h) with (Z.succ (end_ h - start h)) in Ha, Hg by lia.
    rewrite seqZ_cons in Ha, Hg by lia. simpl in Ha, Hg.
    apply orb_false_iff in Ha as [Ha _]. apply orb_false_iff in Hg as [Hg _].
    rewrite Ha in Hg. discriminate. }
  destruct (existsb (is_ac h) (get_nuc_coords h)) eqn:Ea.
  - destruct AC as [?|?|x]; try discriminate.
    destruct (existsb_true_Exists _ _ Ea) as (pa & Hpa & Hac1).
    pose proof (is_ac_counted h pa Hac1) as HACpos. fold AC_count in HACpos.
    assert (Hne : ¬ end_ h < start h).
    { unfold get_nuc_coords, py_range in Hpa. apply elem_of_seqZ in Hpa. lia. }
    rewrite truediv_np.
    destruct (existsb (λ pos, negb (is_ac h pos)) (get_nuc_coords h)) eqn:Eg.
    + destruct GU as [?|?|y]; try discriminate. rewrite !truediv_np.
      destruct (existsb_true_Exists _ _ Eg) as (pg & Hpg & Hg1).
      split; [| eauto].
      intros [HAC0|[[_ Hall]|Hempty]]; [lia | | lia].
      rewrite Forall_forall in Hall. rewrite (Hall pg Hpg) in Hg1. discriminate.
    + subst GU. rewrite truediv_zero_count by lia.
      destruct (decide (GU_count = 0)) as [Hz|Hnz].
      * rewrite bool_decide_eq_true_2 by exact Hz. split; [reflexivity |].
        intros Hnd. destruct Hnd. right. left. split; [exact Hz |].
        apply existsb_false_Forall in Eg. eapply Forall_impl; [exact Eg |].
        intros pos Hpos. simpl in Hpos. destruct (is_ac h pos); [reflexivity | discriminate].
      * rewrite bool_decide_eq_false_2 by exact Hnz. rewrite truediv_np.
        split; [| eauto]. intros [HAC0|[[Hz _]|Hempty]]; lia.
  - subst AC. rewrite truediv_zero_count by lia.
    destruct (decide (AC_count = 0)) as [Hz|Hnz].
    + rewrite bool_decide_eq_true_2 by exact Hz. split; [reflexivity |].
      intros Hnd. destruct Hnd. left. exact Hz.
    + rewrite bool_decide_eq_false_2 by exact Hnz.
      destruct (existsb (λ pos, negb (is_ac h pos)) (get_nuc_coords h)) eqn:Eg.
      * destruct GU as [?|?|y]; try discriminate. rewrite truediv_np.
        destruct (existsb_true_Exists _ _ Eg) as (pg & Hpg & Hg1).
        assert (Hne : ¬ end_ h < start h).
        { unfold get_nuc_coords, py_range in Hpg. apply elem_of_seqZ in Hpg. lia. }
        simpl. split; [| eauto].
        intros [HAC0|[[_ Hall]|Hempty]]; [lia | | lia].
        rewrite Forall_forall in Hall. rewrite (Hall pg Hpg) in Hg1. discriminate.
      * subst GU. rewrite truediv_zero_count by lia.
        pose proof (Hwin eq_refl eq_refl) as Hempty.
        assert (Hdz : divides_by_zero h) by (right; right; exact Hempty).
        destruct (decide (GU_count = 0)) as [Hgz|Hgnz].
        -- rewrite bool_decide_eq_true_2 by exact Hgz. split; [reflexivity | tauto].
        -- rewrite bool_decide_eq_false_2 by exact Hgnz. unfold truediv. simpl as_float.
           rewrite (proj2 (float_of_count_zero GU_count ltac:(lia))) by lia.
           split; [reflexivity | tauto].
Qed.

Lemma signal_to_noise_division_by_zero_witness :
  (divides_by_zero no_ac_histogram →
   get_signal_to_noise (λ x, np_round x 2) no_ac_histogram = inl ZeroDivisionError)
  ∧ (¬ divides_by_zero no_ac_histogram →
     ∃ q, get_signal_to_noise (λ x, np_round x 2) no_ac_histogram
          = inr (np_round q 2)).
Proof.
  apply (signal_to_noise_division_by_zero (λ x, np_round x 2) no_ac_histogram).
  - apply well_formed_b_sound. vm_compute. reflexivity.
  - vm_compute. reflexivity.
Defined.

(** ** Dictionaries of histograms *)

Lemma merge_key_present left right σ key l r h :
  dicts σ left !! key = Some l → dicts σ right !! key = Some r →
  merge (histograms σ l) (histograms σ r) = inr h →
  merge_key left right σ key
  = inr {| histograms := <[l := h]> (histograms σ); dicts := dicts σ |}.
Proof.
  intros Hl Hr Hm. unfold merge_key, dict_get. rewrite Hl, Hr. simpl. rewrite Hm.
  reflexivity.
Qed.

Lemma merge_key_absent left right σ key r :
  dicts σ left !! key = None → dicts σ right !! key = Some r →
  merge_key left right σ key
  = inr {| histograms := histograms σ;
           dicts := <[left := <[key := r]> (dicts σ left)]> (dicts σ) |}.
Proof.
  intros Hl Hr. unfold merge_key, dict_get. rewrite Hl, Hr. reflexivity.
Qed.

(** The loop of [merge_mut_histo_dicts] over the keys [K] of [right]. *)
Lemma merge_keys_spec (left right : ref) (R : gmap string ref) (K : list string) :
  left ≠ right →
  (∀ k1 k2 x, R !! k1 = Some x → R !! k2 = Some x → k1 = k2) →
  NoDup K →
  (∀ k, k ∈ K → is_Some (R !! k)) →
  ∀ σ,
    dicts σ right = R →
    holds_once σ left →
    (∀ k1 k2 x, k2 ∈ K → dicts σ left !! k1 = Some x → R !! k2 = Some x → False) →
    (∀ k l r, k ∈ K → dicts σ left !! k = Some l → R !! k = Some r →
              mergeable (histograms σ l) (histograms σ r)) →
    ∃ σ',
      fold_m (merge_key left right) σ K = inr σ'
      ∧ (∀ d, d ≠ left → dicts σ' d = dicts σ d)
      ∧ (∀ k, dicts σ' left !! k
              = match dicts σ left !! k with
                | Some l => Some l
                | None => if decide (k ∈ K) then R !! k else None
                end)
      ∧ (∀ k l r, k ∈ K → dicts σ left !! k = Some l → R !! k = Some r →
                  merge (histograms σ l) (histograms σ r) = inr (histograms σ' l))
      ∧ (∀ x, (∀ k, k ∈ K → dicts σ left !! k ≠ Some x) →
              histograms σ' x = histograms σ x).
Proof.
  intros Hlr Hrinj. induction K as [|k K IH]; intros Hnd HK σ HR Hlinj Hdisj Hok.
  - exists σ. split; [reflexivity |]. split; [reflexivity |]. split; [| split].
    + intros k. destruct (dicts σ left !! k); [reflexivity |].
      rewrite decide_False by apply not_elem_of_nil. reflexivity.
    + intros k l r Hk. apply elem_of_nil in Hk. destruct Hk.
    + reflexivity.
  - apply NoDup_cons in Hnd as [Hk Hnd].
    destruct (HK k) as [r Hr]; [left |].
    rewrite fold_m_cons.
    destruct (dicts σ left !! k) as [l|] eqn:Hl.
    + destruct (merge_mergeable _ _ (Hok k l r ltac:(left) Hl Hr))
        as (h & Hm & Hwf & Hid & _).
      rewrite (merge_key_present left right σ k l r h Hl) by (rewrite ?HR; assumption).
      change (inr ?x ≫= ?f) with (f x). cbv beta.
      set (σ1 := {| histograms := <[l := h]> (histograms σ); dicts := dicts σ |}).
      assert (Hother : ∀ k' l', k' ∈ K → dicts σ left !! k' = Some l' → l' ≠ l).
      { intros k' l' Hk' Hl' ->. apply Hk. rewrite (Hlinj k k' l Hl Hl'). exact Hk'. }
      assert (Hright : ∀ k' r', k' ∈ K ∨ k' = k → R !! k' = Some r' → r' ≠ l).
      { intros k' r' Hk' Hr' ->. apply (Hdisj k k' l); [| assumption..].
        destruct Hk' as [Hk'| ->]; [right; exact Hk' | left]. }
      destruct (IH Hnd (λ k' Hk', HK k' (list_elem_of_further _ _ _ Hk')) σ1)
        as (σ' & Hfold & Hd & Hlook & Hmerge & Hkeep).
      * exact HR.
      * exact Hlinj.
      * intros k1 k2 x Hk2. apply Hdisj. right. exact Hk2.
      * intros k' l' r' Hk' Hl' Hr'. simpl.
        pose proof (Hother k' l' Hk' Hl') as H1.
        pose proof (Hright k' r' (or_introl Hk') Hr') as H2.
        rewrite !fn_lookup_insert_ne by congruence.
        apply (Hok k'); [right |..]; assumption.
      * exists σ'. split; [exact Hfold |]. split; [exact Hd |]. split; [| split].
        -- intros k'. rewrite Hlook. simpl.
           destruct (dicts σ left !! k') as [l'|] eqn:Hl'; [reflexivity |].
           destruct (decide (k' ∈ K)) as [Hin|Hnin].
           ++ rewrite decide_True by (right; exact Hin). reflexivity.
           ++ rewrite decide_False; [reflexivity |].
              intros [->|Hin]%elem_of_cons; [congruence | contradiction].
        -- intros k' l' r' [->|Hk']%elem_of_cons Hl' Hr'.
           ++ rewrite Hl in Hl'. injection Hl' as <-. rewrite Hr in Hr'. injection Hr' as <-.
              rewrite Hkeep; [simpl; rewrite fn_lookup_insert; exact Hm |].
              intros k' Hk' Hl'. simpl in Hl'. exact (Hother k' l Hk' Hl' eq_refl).
           ++ specialize (Hmerge k' l' r' Hk' Hl' Hr'). simpl in Hmerge.
              pose proof (Hother k' l' Hk' Hl') as H1.
              pose proof (Hright k' r' (or_introl Hk') Hr') as H2.
              rewrite !fn_lookup_insert_ne in Hmerge by congruence.
              exact Hmerge.
        -- intros x Hx. rewrite Hkeep.
           ++ simpl. apply fn_lookup_insert_ne. intros <-. apply (Hx k); [left | exact Hl].
           ++ intros k' Hk'. simpl. apply Hx. right. exact Hk'.
    + rewrite (merge_key_absent left right σ k r Hl) by (rewrite HR; assumption).
      change (inr ?x ≫= ?f) with (f x). cbv beta.
      set (σ1 := {| histograms := histograms σ;
                    dicts := <[left := <[k := r]> (dicts σ left)]> (dicts σ) |}).
      assert (Hleft1 : dicts σ1 left = <[k := r]> (dicts σ left)).
      { simpl. apply fn_lookup_insert. }
      assert (Hne : ∀ k', k' ∈ K → k' ≠ k) by (intros k' Hk' ->; contradiction).
      destruct (IH Hnd (λ k' Hk', HK k' (list_elem_of_further _ _ _ Hk')) σ1)
        as (σ' & Hfold & Hd & Hlook & Hmerge & Hkeep).
      * simpl. rewrite fn_lookup_insert_ne by exact Hlr. exact HR.
      * intros k1 k2 x. rewrite Hleft1.
        destruct (decide (k1 = k)) as [->|H1], (decide (k2 = k)) as [->|H2];
          rewrite ?lookup_insert_eq, ?lookup_insert_ne by congruence.
        -- reflexivity.
        -- intros [= <-] H. destruct (Hdisj k2 k r ltac:(left) H Hr).
        -- intros H [= <-]. destruct (Hdisj k1 k r ltac:(left) H Hr).
        -- apply Hlinj.
      * intros k1 k2 x Hk2. rewrite Hleft1.
        destruct (decide (k1 = k)) as [->|H1];
          rewrite ?lookup_insert_eq, ?lookup_insert_ne by congruence.
        -- intros [= <-] Hx. apply (Hne k2 Hk2). exact (Hrinj _ _ _ Hx Hr).
        -- apply Hdisj. right. exact Hk2.
      * intros k' l' r' Hk'. rewrite Hleft1, lookup_insert_ne by (apply not_eq_sym; eauto).
        simpl. apply Hok. right. exact Hk'.
      * exists σ'. split; [exact Hfold |]. split; [| split; [| split]].
        -- intros d Hd'. rewrite Hd by exact Hd'. simpl.
           apply fn_lookup_insert_ne. congruence.
        -- intros k'. rewrite Hlook, Hleft1.
           destruct (decide (k' = k)) as [->|Hk'].
           ++ rewrite lookup_insert_eq, Hl. rewrite decide_True by left. symmetry. exact Hr.
           ++ rewrite lookup_insert_ne by congruence.
              destruct (dicts σ left !! k'); [reflexivity |].
              destruct (decide (k' ∈ K)) as [Hin|Hnin].
              ** rewrite decide_True by (right; exact Hin). reflexivity.
              ** rewrite decide_False; [reflexivity |].
                 intros [->|Hin]%elem_of_cons; [congruence | contradiction].
        -- intros k' l' r' [->|Hk']%elem_of_cons Hl' Hr'; [congruence |].
           apply (Hmerge k' l' r' Hk'); [| exact Hr'].
           rewrite Hleft1, lookup_insert_ne by (apply not_eq_sym; eauto). exact Hl'.
        -- intros x Hx. rewrite Hkeep; [reflexivity |].
           intros k' Hk'. rewrite Hleft1, lookup_insert_ne by (apply not_eq_sym; eauto).
           apply Hx. right. exact Hk'.
Qed.

Lemma elem_of_keys (m : gmap string ref) (k : string) :
  k ∈ (map_to_list m).*1 ↔ is_Some (m !! k).
Proof.
  rewrite list_elem_of_fmap. split.
  - intros ([k' x] & -> & Hkx). apply elem_of_map_to_list in Hkx. simpl. eauto.
  - intros [x Hx]. exists (k, x). split; [reflexivity |]. apply elem_of_map_to_list. exact Hx.
Qed.

Lemma merge_dicts_spec σ (left right : ref) :
  left ≠ right → holds_once σ left → holds_once σ right → apart σ left right →
  (∀ k l r, dicts σ left !! k = Some l → dicts σ right !! k = Some r →
            mergeable (histograms σ l) (histograms σ r)) →
  ∃ σ',
    merge_mut_histo_dicts left right σ = inr σ'
    ∧ (∀ d, d ≠ left → dicts σ' d = dicts σ d)
    ∧ (∀ k, dicts σ' left !! k
            = match dicts σ left !! k with
              | Some l => Some l
              | None => dicts σ right !! k
              end)
    ∧ (∀ k l r, dicts σ left !! k = Some l → dicts σ right !! k = Some r →
                merge (histograms σ l) (histograms σ r) = inr (histograms σ' l))
    ∧ (∀ x, (∀ k, dicts σ left !! k = Some x → dicts σ right !! k = None) →
            histograms σ' x = histograms σ x).
Proof.
  intros Hlr Hlinj Hrinj Hapart Hok.
  destruct (merge_keys_spec left right (dicts σ right) (map_to_list (dicts σ right)).*1
              Hlr Hrinj) with (σ := σ) as (σ' & Hfold & Hd & Hlook & Hmerge & Hkeep).
  - apply NoDup_fst_map_to_list.
  - intros k Hk. apply elem_of_keys. exact Hk.
  - reflexivity.
  - exact Hlinj.
  - intros k1 k2 x _. apply Hapart.
  - intros k l r _. apply Hok.
  - exists σ'. split; [exact Hfold |]. split; [exact Hd |]. split; [| split].
    + intros k. rewrite Hlook. destruct (dicts σ left !! k); [reflexivity |].
      destruct (decide (k ∈ (map_to_list (dicts σ right)).*1)) as [Hin|Hnin];
        [reflexivity |].
      rewrite elem_of_keys in Hnin. symmetry. apply eq_None_not_Some. exact Hnin.
    + intros k l r Hl Hr. apply (Hmerge k l r); [| assumption..].
      apply elem_of_keys. rewrite Hr. eauto.
    + intros x Hx. apply Hkeep. intros k Hk Hl.
      apply elem_of_keys in Hk as [r Hr]. rewrite (Hx k Hl) in Hr. discriminate.
Qed.

Lemma first_holder_Some σ ds key x :
  first_holder σ ds key = Some x → ∃ d, d ∈ ds ∧ dicts σ d !! key = Some x.
Proof.
  induction ds as [|d ds IH]; simpl; [discriminate |].
  destruct (dicts σ d !! key) as [y|] eqn:E.
  - intros [= <-]. exists d. split; [left | exact E].
  - intros H. destruct (IH H) as (d' & Hd' & Hx). exists d'. split; [right |]; assumption.
Qed.

Lemma first_holder_None σ ds key :
  first_holder σ ds key = None → ∀ d, d ∈ ds → dicts σ d !! key = None.
Proof.
  induction ds as [|d ds IH]; simpl; intros H d' Hd'.
  - apply elem_of_nil in Hd'. destruct Hd'.
  - destruct (dicts σ d !! key) as [y|] eqn:E; [discriminate |].
    apply elem_of_cons in Hd' as [->|Hd']; [exact E | apply IH; assumption].
Qed.

Lemma first_holder_snoc σ ds d key :
  first_holder σ (ds ++ [d]) key
  = match first_holder σ ds key with
    | Some x => Some x
    | None => dicts σ d !! key
    end.
Proof.
  induction ds as [|d' ds IH]; simpl.
  - destruct (dicts σ d !! key); reflexivity.
  - destruct (dicts σ d' !! key); [reflexivity | exact IH].
Qed.

Lemma total_reads_snoc σ ds d key :
  total_reads σ (ds ++ [d]) key
  = ((total_reads σ ds key).1 + (reads_of σ d key).1,
     (total_reads σ ds key).2 + (reads_of σ d key).2).
Proof.
  induction ds as [|d' ds IH]; simpl.
  - f_equal; lia.
  - rewrite IH. simpl. f_equal; lia.
Qed.

Lemma total_reads_none σ ds key :
  (∀ d, d ∈ ds → dicts σ d !! key = None) → total_reads σ ds key = (0, 0).
Proof.
  induction ds as [|d ds IH]; simpl; intros H; [reflexivity |].
  rewrite IH by (intros d' Hd'; apply H; right; exact Hd').
  unfold reads_of. rewrite (H d) by left. reflexivity.
Qed.

Lemma merge_all_step σ0 merged processed d σ (ds : list ref) :
  merged ∈ processed → d ∉ processed → d ∈ ds →
  (∀ d', d' ∈ processed → d' ∈ ds) →
  unshared σ0 ds → shards σ0 ds →
  merged_so_far σ0 processed merged σ →
  ∃ σ', merge_mut_histo_dicts merged d σ = inr σ'
        ∧ merged_so_far σ0 (processed ++ [d]) merged σ'.
Proof.
  intros Hmp Hdp Hd Hsub Hun (Hwf & Hcompat) (I1 & I2 & I3 & I4).
  assert (Hne : merged ≠ d) by (intros ->; contradiction).
  assert (Hdd : dicts σ d = dicts σ0 d) by (apply I1; congruence).
  assert (Hheld : ∀ k x, dicts σ merged !! k = Some x →
            ∃ d1, d1 ∈ processed ∧ dicts σ0 d1 !! k = Some x).
  { intros k x Hx. rewrite I2 in Hx. apply first_holder_Some. exact Hx. }
  assert (Hfresh : ∀ k r, dicts σ0 d !! k = Some r →
            (∀ d' key, d' ∈ processed → dicts σ0 d' !! key ≠ Some r)).
  { intros k r Hr d' key Hd' Hx.
    destruct (Hun d' d key k r (Hsub _ Hd') Hd Hx Hr) as [-> _]. contradiction. }
  assert (Hlinj : holds_once σ merged).
  { intros k1 k2 x H1 H2.
    destruct (Hheld _ _ H1) as (d1 & Hd1 & Hx1). destruct (Hheld _ _ H2) as (d2 & Hd2 & Hx2).
    exact (proj2 (Hun d1 d2 k1 k2 x (Hsub _ Hd1) (Hsub _ Hd2) Hx1 Hx2)). }
  assert (Hrinj : holds_once σ d).
  { intros k1 k2 x. rewrite Hdd. intros H1 H2. exact (proj2 (Hun d d k1 k2 x Hd Hd H1 H2)). }
  assert (Hapart : apart σ merged d).
  { intros k1 k2 x H1. rewrite Hdd. intros H2.
    destruct (Hheld _ _ H1) as (d1 & Hd1 & Hx1). exact (Hfresh k2 x H2 d1 k1 Hd1 Hx1). }
  assert (Hok : ∀ k l r, dicts σ merged !! k = Some l → dicts σ d !! k = Some r →
            mergeable (histograms σ l) (histograms σ r)).
  { intros k l r Hl Hr. rewrite Hdd in Hr.
    destruct (I3 k l Hl) as (Hwl & Hidl & _).
    destruct (Hheld _ _ Hl) as (d1 & Hd1 & Hx1).
    rewrite (I4 r (Hfresh k r Hr)).
    split; [exact Hwl |]. split; [exact (Hwf d k r Hd Hr) |].
    eapply same_identity_trans; [exact Hidl |].
    exact (Hcompat d1 d k l r (Hsub _ Hd1) Hd Hx1 Hr). }
  destruct (merge_dicts_spec σ merged d Hne Hlinj Hrinj Hapart Hok)
    as (σ' & Hcall & Hd' & Hlook & Hmerge & Hkeep).
  exists σ'. split; [exact Hcall |].
  split; [| split; [| split]].
  - intros d' Hd'm. rewrite Hd' by exact Hd'm. apply I1. exact Hd'm.
  - intros key. rewrite Hlook, first_holder_snoc, <- I2, Hdd. reflexivity.
  - intros key x. rewrite Hlook, total_reads_snoc.
    destruct (dicts σ merged !! key) as [l|] eqn:Hl.
    + intros [= <-]. destruct (I3 key l Hl) as (Hwl & Hidl & Hsum).
      rewrite <- Hsum. simpl. unfold reads_of.
      destruct (dicts σ0 d !! key) as [r|] eqn:Hr.
      * rewrite <- Hdd in Hr. specialize (Hmerge key l r Hl Hr).
        destruct (merge_mergeable _ _ (Hok key l r Hl Hr)) as (h & Hm & Hwh & Hidh & Hrh & Hah).
        rewrite Hm in Hmerge. injection Hmerge as <-.
        split; [exact Hwh |]. split; [eapply same_identity_trans; eassumption |].
        rewrite Hdd in Hr. rewrite (I4 r (Hfresh key r Hr)) in Hrh, Hah. simpl.
        f_equal; assumption.
      * rewrite Hkeep.
        -- split; [exact Hwl |]. split; [exact Hidl |]. simpl. f_equal; lia.
        -- intros k Hk. rewrite (Hlinj k key l Hk Hl), Hdd. exact Hr.
    + rewrite Hdd. intros Hx.
      assert (Hx0 : histograms σ' x = histograms σ0 x).
      { rewrite Hkeep.
        - apply I4. exact (Hfresh key x Hx).
        - intros k Hk. exfalso. rewrite <- Hdd in Hx. exact (Hapart k key x Hk Hx). }
      rewrite Hx0. split; [exact (Hwf d key x Hd Hx) |].
      split; [apply same_identity_refl |].
      rewrite total_reads_none.
      * unfold reads_of. rewrite Hx. simpl. reflexivity.
      * apply first_holder_None. rewrite <- I2. exact Hl.
  - intros x Hx. rewrite Hkeep.
    + apply I4. intros d' key Hd'p. apply Hx. apply elem_of_app. left. exact Hd'p.
    + intros k Hk. exfalso. destruct (Hheld _ _ Hk) as (d1 & Hd1 & Hx1).
      apply (Hx d1 k); [apply elem_of_app; left; exact Hd1 | exact Hx1].
Qed.

Lemma merge_all_fold σ0 merged (ds todo : list ref) :
  unshared σ0 ds → shards σ0 ds →
  ∀ processed σ,
    merged ∈ processed →
    NoDup (processed ++ todo) →
    (∀ d, d ∈ processed ++ todo → d ∈ ds) →
    merged_so_far σ0 processed merged σ →
    ∃ σ', fold_m (fun σ mh => merge_mut_histo_dicts merged mh σ) σ todo = inr σ'
          ∧ merged_so_far σ0 (processed ++ todo) merged σ'.
Proof.
  intros Hun Hsh. induction todo as [|d todo IH]; intros processed σ Hmp Hnd Hsub Hinv.
  - exists σ. split; [reflexivity |]. rewrite app_nil_r. exact Hinv.
  - rewrite fold_m_cons.
    assert (Hdp : d ∉ processed).
    { apply NoDup_app in Hnd as (_ & Hdisj & _). intros Hd. apply (Hdisj d Hd). left. }
    destruct (merge_all_step σ0 merged processed d σ ds Hmp Hdp) as (σ1 & Hcall & Hinv1);
      try assumption.
    { apply Hsub. apply elem_of_app. right. left. }
    { intros d' Hd'. apply Hsub. apply elem_of_app. left. exact Hd'. }
    rewrite Hcall. change (inr ?x ≫= ?f) with (f x). cbv beta.
    destruct (IH (processed ++ [d]) σ1) as (σ' & Hfold & Hinv').
    + apply elem_of_app. left. exact Hmp.
    + rewrite <- app_assoc. exact Hnd.
    + intros d'. rewrite <- app_assoc. apply Hsub.
    + exact Hinv1.
    + exists σ'. split; [exact Hfold |]. rewrite <- app_assoc in Hinv'. exact Hinv'.
Qed.

Ltac example_dicts :=
  change (dicts example_store 0%nat) with ({[ "ref"%string := 0%nat ]} : gmap string ref) in *;
  change (dicts example_store 1%nat)
    with ({[ "ref"%string := 1%nat; "ref2"%string := 2%nat ]} : gmap string ref) in *.

Ltac example_lookups :=
  repeat match goal with
         | H : _ !! _ = Some _ |- _ =>
             first [ apply lookup_singleton_Some in H as [? ?]
                   | apply lookup_insert_Some in H as [[? ?]|[? H]] ]
         end;
  subst.

Lemma example_mergeable x y :
  mergeable (histograms example_store x) (histograms example_store y).
Proof.
  assert (H : ∀ z, well_formed (histograms example_store z)).
  { intros z. simpl. destruct (decide (z = 1%nat));
      apply well_formed_b_sound; vm_compute; reflexivity. }
  split; [apply H |]. split; [apply H |].
  simpl. destruct (decide (x = 1%nat)), (decide (y = 1%nat)); vm_compute; repeat split.
Qed.

(** X29. [merge_mut_histo_dicts(left, right)] on two different dictionaries
    that share no histogram object, whose common keys hold well-formed
    histograms of one identity: it raises nothing; [right] and every other
    dictionary keep their entries; [left] keeps its own entries and, for
    every key that only [right] has, adopts the very object that [right]
    holds; the histogram of [left] under a common key becomes the [merge] of
    the two; no other histogram changes. *)
Theorem merge_dicts_adopts_and_merges (σ : store) (left right : ref) :
  left ≠ right → holds_once σ left → holds_once σ right → apart σ left right →
  (∀ k l r, dicts σ left !! k = Some l → dicts σ right !! k = Some r →
            mergeable (histograms σ l) (histograms σ r)) →
  ∃ σ',
    merge_mut_histo_dicts left right σ = inr σ'
    ∧ (∀ d, d ≠ left → dicts σ' d = dicts σ d)
    ∧ (∀ k, dicts σ' left !! k
            = match dicts σ left !! k with
              | Some l => Some l
              | None => dicts σ right !! k
              end)
    ∧ (∀ k l r, dicts σ left !! k = Some l → dicts σ right !! k = Some r →
                merge (histograms σ l) (histograms σ r) = inr (histograms σ' l))
    ∧ (∀ x, (∀ k, dicts σ left !! k = Some x → dicts σ right !! k = None) →
            histograms σ' x = histograms σ x).
Proof. apply merge_dicts_spec. Qed.

Lemma merge_dicts_adopts_and_merges_witness :
  ∃ σ',
    merge_mut_histo_dicts 0%nat 1%nat example_store = inr σ'
    ∧ (∀ d, d ≠ 0%nat → dicts σ' d = dicts example_store d)
    ∧ (∀ k, dicts σ' 0%nat !! k
            = match dicts example_store 0%nat !! k with
              | Some l => Some l
              | None => dicts example_store 1%nat !! k
              end)
    ∧ (∀ k l r, dicts example_store 0%nat !! k = Some l →
                dicts example_store 1%nat !! k = Some r →
                merge (histograms example_store l) (histograms example_store r)
                = inr (histograms σ' l))
    ∧ (∀ x, (∀ k, dicts example_store 0%nat !! k = Some x →
                  dicts example_store 1%nat !! k = None) →
            histograms σ' x = histograms example_store x).
Proof.
  apply (merge_dicts_adopts_and_merges example_store 0%nat 1%nat).
  - discriminate.
  - intros k1 k2 x H1 H2. example_dicts. example_lookups. reflexivity.
  - intros k1 k2 x H1 H2. example_dicts. example_lookups; congruence.
  - intros k1 k2 x H1 H2. example_dicts. example_lookups; congruence.
  - intros k l r _ _. apply example_mergeable.
Defined.

(** X30. [merge_all_merge_mut_histo_dicts] on a list of different
    dictionaries that share no histogram object and hold, under one key,
    well-formed histograms of one identity: it raises nothing and returns
    the first dictionary of the list; the other dictionaries keep their
    entries; under every key the returned dictionary holds the object of the
    first dictionary of the list that has the key, and the [num_reads] and
    [num_aligned] of that object are the sums over all the dictionaries of
    the list. *)
Theorem merge_all_adds_up (σ : store) (merged : ref) (rest : list ref) :
  NoDup (merged :: rest) → unshared σ (merged :: rest) → shards σ (merged :: rest) →
  ∃ σ',
    merge_all_merge_mut_histo_dicts (merged :: rest) σ = inr (merged, σ')
    ∧ (∀ d, d ≠ merged → dicts σ' d = dicts σ d)
    ∧ ∀ key,
        dicts σ' merged !! key = first_holder σ (merged :: rest) key
        ∧ reads_of σ' merged key = total_reads σ (merged :: rest) key.
Proof.
  intros Hnd Hun Hsh. unfold merge_all_merge_mut_histo_dicts.
  destruct (merge_all_fold σ merged (merged :: rest) rest Hun Hsh [merged] σ)
    as (σ' & Hfold & I1 & I2 & I3 & I4).
  - left.
  - exact Hnd.
  - intros d Hd. exact Hd.
  - split; [reflexivity |]. split; [| split; [| reflexivity]].
    + intros key. simpl. destruct (dicts σ merged !! key); reflexivity.
    + intros key x Hx. destruct Hsh as (Hwf & _).
      split; [exact (Hwf merged key x ltac:(left) Hx) |].
      split; [apply same_identity_refl |].
      simpl. unfold reads_of. rewrite Hx. simpl. f_equal; lia.
  - rewrite Hfold. exists σ'. split; [reflexivity |]. split; [exact I1 |].
    intros key. split; [apply I2 |].
    unfold reads_of at 1. destruct (dicts σ' merged !! key) as [x|] eqn:Hx.
    + destruct (I3 key x Hx) as (_ & _ & Hsum). exact Hsum.
    + symmetry. apply total_reads_none. apply first_holder_None.
      rewrite <- I2. exact Hx.
Qed.

Lemma merge_all_adds_up_witness :
  ∃ σ',
    merge_all_merge_mut_histo_dicts [0%nat; 1%nat] example_store = inr (0%nat, σ')
    ∧ (∀ d, d ≠ 0%nat → dicts σ' d = dicts example_store d)
    ∧ ∀ key,
        dicts σ' 0%nat !! key = first_holder example_store [0%nat; 1%nat] key
        ∧ reads_of σ' 0%nat key = total_reads example_store [0%nat; 1%nat] key.
Proof.
  apply (merge_all_adds_up example_store 0%nat [1%nat]).
  - apply NoDup_cons. split; [| apply NoDup_singleton].
    intros H%list_elem_of_singleton. discriminate.
  - intros d1 d2 k1 k2 x Hd1 Hd2 H1 H2.
    apply elem_of_cons in Hd1 as [->|Hd1]; [| apply list_elem_of_singleton in Hd1 as ->];
    (apply elem_of_cons in Hd2 as [->|Hd2]; [| apply list_elem_of_singleton in Hd2 as ->]);
    example_dicts; example_lookups; try congruence; split; reflexivity.
  - split.
    + intros d key x _ _. exact (proj1 (example_mergeable x x)).
    + intros d1 d2 key x1 x2 _ _ _ _. exact (proj2 (proj2 (example_mergeable x1 x2))).
Defined.
